(** * Forbidden intervals and saturation rules of polysat

    A shallow embedding of [forbidden_intervals.cpp], [forbidden_intervals.h]
    and of the enabled rules of [saturation.cpp], together with the
    properties stated about them.

    Layout: the polynomial layer, intervals and constraints,
    the matcher ([get_interval] and its patterns), the saturation rules,
    then the theorems. *)

From Stdlib Require Import String.
From Stdlib Require Import ZArith List Bool Lia Arith Znumtheory.
From Stdlib Require Import QArith.
From Stdlib Require Import Morphisms Setoid RelationClasses.
Import ListNotations.
Local Open Scope Z_scope.

(* ================================================================== *)
(** * Polynomials modulo [2^N] *)
(* ================================================================== *)

(** Variables of the solver are numbered. *)
Definition pvar := nat.

(** A power product: the sorted list of its variables, with repetition. *)
Definition monomial := list pvar.

(** Modelled from the spec: the polynomial library [dd::pdd] (math/dd) is not
    part of the sources at hand.  The spec calls it a "modular polynomial
    value": fixed-width-integer polynomials over variables with
    degree-in-variable, factor-by-variable and evaluate-to-constant.  A
    polynomial is kept as the list of its monomials in increasing order, each
    with a coefficient in [1, 2^N); the operations below keep that normal
    form, so that equality of representations is equality of polynomials, as
    for hash-consed decision diagrams. *)
Definition pdd := list (monomial * Z).

Fixpoint mono_compare (m1 m2 : monomial) : comparison :=
  match m1, m2 with
  | [], [] => Eq
  | [], _ :: _ => Lt
  | _ :: _, [] => Gt
  | x :: r1, y :: r2 =>
      match Nat.compare x y with
      | Eq => mono_compare r1 r2
      | Lt => Lt
      | Gt => Gt
      end
  end.

Fixpoint insert_var (x : pvar) (m : monomial) : monomial :=
  match m with
  | [] => [x]
  | y :: r => if (x <=? y)%nat then x :: m else y :: insert_var x r
  end.

Definition mono_mul (m1 m2 : monomial) : monomial :=
  fold_right insert_var m2 m1.

Fixpoint mono_eqb (m1 m2 : monomial) : bool :=
  match m1, m2 with
  | [], [] => true
  | x :: r1, y :: r2 => Nat.eqb x y && mono_eqb r1 r2
  | _, _ => false
  end.

Fixpoint pdd_eqb (p q : pdd) : bool :=
  match p, q with
  | [], [] => true
  | (m1, c1) :: p', (m2, c2) :: q' =>
      mono_eqb m1 m2 && Z.eqb c1 c2 && pdd_eqb p' q'
  | _, _ => false
  end.

(** Number of occurrences of [v] in a power product. *)
Fixpoint var_count (v : pvar) (m : monomial) : nat :=
  match m with
  | [] => O
  | x :: r => if Nat.eqb x v then S (var_count v r) else var_count v r
  end.

(** Divide a power product by [v^n] (as far as [v] occurs). *)
Fixpoint drop_var (v : pvar) (n : nat) (m : monomial) : monomial :=
  match n, m with
  | O, _ => m
  | _, [] => []
  | S n', x :: r => if Nat.eqb x v then drop_var v n' r else x :: drop_var v n r
  end.

Section Manager.

(** The bit width of the manager, [m.power_of_2()]. *)
Variable N : nat.

Definition two_to_N : Z := 2 ^ Z.of_nat N.
Definition max_value : Z := two_to_N - 1.

(** A single monomial with its coefficient reduced; nothing when the
    coefficient vanishes modulo [2^N]. *)
Definition mk_term (m : monomial) (c : Z) : pdd :=
  let c' := c mod two_to_N in
  if c' =? 0 then [] else [(m, c')].

Definition mk_val (c : Z) : pdd := mk_term [] c.
Definition zero : pdd := mk_val 0.
Definition one : pdd := mk_val 1.
Definition mk_var (x : pvar) : pdd := mk_term [x] 1.

Fixpoint add (p q : pdd) {struct p} : pdd :=
  match p with
  | [] => q
  | (m1, c1) :: p' =>
      (fix add_q (q : pdd) {struct q} : pdd :=
         match q with
         | [] => p
         | (m2, c2) :: q' =>
             match mono_compare m1 m2 with
             | Lt => (m1, c1) :: add p' q
             | Gt => (m2, c2) :: add_q q'
             | Eq => mk_term m1 (c1 + c2) ++ add p' q'
             end
         end) q
  end.

Definition mul_term (m : monomial) (c : Z) (q : pdd) : pdd :=
  fold_right
    (fun t acc => add (mk_term (mono_mul m (fst t)) (c * snd t)) acc) [] q.

Definition mul (p q : pdd) : pdd :=
  fold_right (fun t acc => add (mul_term (fst t) (snd t) q) acc) [] p.

Definition neg (p : pdd) : pdd := mul_term [] (-1) p.
Definition sub (p q : pdd) : pdd := add p (neg q).

(** [p.is_val()], [p.val()], [p.is_zero()], [p.is_one()], [p.is_max()]. *)
Definition is_val (p : pdd) : bool :=
  match p with
  | [] => true
  | [([], _)] => true
  | _ => false
  end.

Definition val (p : pdd) : Z :=
  match p with
  | [([], c)] => c mod two_to_N
  | _ => 0
  end.

Definition is_zero (p : pdd) : bool := is_val p && (val p =? 0).
Definition is_one (p : pdd) : bool := is_val p && (val p =? 1).
Definition is_max (p : pdd) : bool := is_val p && (val p =? max_value).

(** [p.degree(v)]: the largest power of [v] among the monomials of [p]. *)
Definition degree (v : pvar) (p : pdd) : nat :=
  fold_right (fun t acc => Nat.max (var_count v (fst t)) acc) O p.

(** [p.factor(v, d, lc, rest)]: [p = lc * v^d + rest] where [rest]
    collects the monomials in which [v] has degree below [d]. *)
Definition factor (v : pvar) (d : nat) (p : pdd) : pdd * pdd :=
  fold_right
    (fun t acc =>
       if (d <=? var_count v (fst t))%nat
       then (add (mk_term (drop_var v d (fst t)) (snd t)) (fst acc), snd acc)
       else (fst acc, add (mk_term (fst t) (snd t)) (snd acc)))
    ([], []) p.

(** Value of a polynomial under a total model of the variables. *)
Definition eval_mono (M : pvar -> Z) (m : monomial) : Z :=
  fold_right (fun x acc => M x * acc) 1 m.

Fixpoint eval_raw (M : pvar -> Z) (p : pdd) : Z :=
  match p with
  | [] => 0
  | (m, c) :: p' => c * eval_mono M m + eval_raw M p'
  end.

Definition eval (M : pvar -> Z) (p : pdd) : Z := eval_raw M p mod two_to_N.

(** The partial assignment of the core, and [s.subst(p)]: replace the
    assigned variables of [p] by their values. *)
Definition assignment := pvar -> option Z.

Definition subst_mono (sigma : assignment) (m : monomial) : Z * monomial :=
  fold_right
    (fun x acc =>
       match sigma x with
       | Some a => (a * fst acc, snd acc)
       | None => (fst acc, x :: snd acc)
       end) (1, []) m.

Definition subst (sigma : assignment) (p : pdd) : pdd :=
  fold_right
    (fun t acc =>
       let km := subst_mono sigma (fst t) in
       add (mk_term (snd km) (fst km * snd t)) acc) [] p.

End Manager.

(* ================================================================== *)
(** * Intervals, constraints and the core *)
(* ================================================================== *)

(** Modelled from the spec: [interval.h] is not part of the sources at hand.
    An interval is a half-open range [[lo, hi)] of words that wraps at
    [2^N], or one of the two markers [full] and [empty], told apart by the
    tag.  A proper interval carries its symbolic end points together with
    their values under the current assignment. *)
Inductive eval_interval : Type :=
| full
| empty
| proper (lo : pdd) (lo_val : Z) (hi : pdd) (hi_val : Z).

Definition is_currently_empty (i : eval_interval) : bool :=
  match i with
  | full => false
  | empty => true
  | proper _ lo_val _ hi_val => lo_val =? hi_val
  end.

(** Membership of a word in the half-open range [[lo_val, hi_val)] that
    wraps at the top of the domain. *)
Definition in_range (lo_val hi_val x : Z) : bool :=
  if lo_val <=? hi_val
  then (lo_val <=? x) && (x <? hi_val)
  else (x <? hi_val) || (lo_val <=? x).

(** Membership of a word in the set of values an interval forbids. *)
Definition currently_contains (i : eval_interval) (x : Z) : bool :=
  match i with
  | full => true
  | empty => false
  | proper _ lo_val _ hi_val => in_range lo_val hi_val x
  end.

(** Modelled from the spec: [constraints.h], [ule_constraint.h] and
    [umul_ovfl_constraint.h] are not part of the sources at hand.  The
    matcher dispatches on the kind of a constraint: unsigned-less-equal
    [ule] or unsigned-multiplication-overflow [umul_ovfl]; [op_constraint]
    stands for every other kind, which it does not support. *)
Inductive constraint : Type :=
| ule (lhs rhs : pdd)
| umul_ovfl (p q : pdd)
| op_constraint (tag : nat).

(** A constraint with a polarity; [sign = true] is the negated literal. *)
Record signed_constraint : Type := mk_sc {
  sign : bool;
  body : constraint
}.

Definition is_positive (c : signed_constraint) : bool := negb (sign c).
Definition is_negative (c : signed_constraint) : bool := sign c.
Definition sc_not (c : signed_constraint) : signed_constraint :=
  mk_sc (negb (sign c)) (body c).

Definition is_ule (c : signed_constraint) : bool :=
  match body c with ule _ _ => true | _ => false end.
Definition is_umul_ovfl (c : signed_constraint) : bool :=
  match body c with umul_ovfl _ _ => true | _ => false end.

(** [c.to_ule().lhs()], [c.to_ule().rhs()], [c.to_umul_ovfl().p()],
    [c.to_umul_ovfl().q()]. *)
Definition ule_lhs (c : signed_constraint) : pdd :=
  match body c with ule l _ => l | _ => [] end.
Definition ule_rhs (c : signed_constraint) : pdd :=
  match body c with ule _ r => r | _ => [] end.
Definition ovfl_p (c : signed_constraint) : pdd :=
  match body c with umul_ovfl p _ => p | _ => [] end.
Definition ovfl_q (c : signed_constraint) : pdd :=
  match body c with umul_ovfl _ q => q | _ => [] end.

Definition constraint_id := nat.
Definition dependency := nat.

(** The forbidden-interval record of [forbidden_intervals.h]. *)
Record fi_record : Type := mk_fi {
  interval : eval_interval;
  side_cond : list signed_constraint;
  src : list signed_constraint;
  deps : list dependency;
  coeff : Z;
  bit_width : nat
}.

(** [fi_record()] and [fi_record::reset]. *)
Definition fi_empty : fi_record := mk_fi full [] [] [] 0 O.
Definition fi_reset (_ : fi_record) : fi_record := fi_empty.

Definition set_interval (i : eval_interval) (fi : fi_record) : fi_record :=
  mk_fi i (side_cond fi) (src fi) (deps fi) (coeff fi) (bit_width fi).
Definition set_side_cond (l : list signed_constraint) (fi : fi_record)
  : fi_record :=
  mk_fi (interval fi) l (src fi) (deps fi) (coeff fi) (bit_width fi).
Definition push_side_cond (c : signed_constraint) (fi : fi_record)
  : fi_record :=
  set_side_cond (side_cond fi ++ [c]) fi.
Definition push_src (c : signed_constraint) (fi : fi_record) : fi_record :=
  mk_fi (interval fi) (side_cond fi) (src fi ++ [c]) (deps fi) (coeff fi)
        (bit_width fi).
Definition set_coeff (k : Z) (fi : fi_record) : fi_record :=
  mk_fi (interval fi) (side_cond fi) (src fi) (deps fi) k (bit_width fi).
Definition set_bit_width (w : nat) (fi : fi_record) : fi_record :=
  mk_fi (interval fi) (side_cond fi) (src fi) (deps fi) (coeff fi) w.

(** What the matcher and the saturation rules read from the core
    ([core.h]): the current assignment, the width of a variable, the
    constraint behind an identifier and the current unsat core. *)
Record core : Type := mk_core {
  assigned : assignment;
  size : pvar -> nat;
  get_constraint : constraint_id -> signed_constraint;
  unsat_core : list constraint_id
}.

Section Matcher.

Variable N : nat.
Variable s : core.

(** Modelled from the spec: the constraint constructors live in
    [constraints.h], which is not part of the sources at hand: [eq p] is
    the constraint [p = 0], kept as [p <= 0]; [ult p q] is the negation of
    [q <= p].  [core::eq(p, q)] is [eq (p - q)] as in [core.h]. *)
Definition cs_ule (p q : pdd) : signed_constraint := mk_sc false (ule p q).
Definition cs_ult (p q : pdd) : signed_constraint := sc_not (cs_ule q p).
Definition cs_eq (p : pdd) : signed_constraint := cs_ule p (zero N).
Definition cs_umul_ovfl (p q : pdd) : signed_constraint :=
  mk_sc false (umul_ovfl p q).
Definition core_eq (p q : pdd) : signed_constraint := cs_eq (sub N p q).

Definition core_subst (p : pdd) : pdd := subst N (assigned s) p.

(** Modelled from the spec: [rational::mult_inverse] is not part of the
    sources at hand; it yields the multiplicative inverse modulo [2^N] of
    an odd number and reports failure on an even one.  The inverse is
    computed by Newton iteration, each round doubling the number of
    correct low bits. *)
Fixpoint newton_inverse (a : Z) (n : nat) : Z :=
  match n with
  | O => 1
  | S n' => let x := newton_inverse a n' in (x * (2 - a * x)) mod two_to_N N
  end.

Definition mult_inverse (a : Z) : bool * Z :=
  (Z.odd a, newton_inverse a N mod two_to_N N).

(** The scope guard [backtrack]: on leaving with [released = false] the
    side conditions are cut back to their length on entry. *)
Definition shrink (sz : nat) (l : list signed_constraint) :=
  firstn sz l.

Definition backtrack (released : bool) (sz : nat) (fi : fi_record)
  : fi_record :=
  if released then fi else set_side_cond (shrink sz (side_cond fi)) fi.

Definition push_eq (is_zero : bool) (p : pdd)
           (side : list signed_constraint) : list signed_constraint :=
  if is_val p then side
  else if is_zero then side ++ [cs_eq p]
  else side ++ [sc_not (cs_eq p)].

(** [linear_decompose] returns the tuple [(ok, a, e, b)] and the side
    conditions it was handed, possibly extended. *)
Definition linear_decompose (v : pvar) (p : pdd)
           (out_side_cond : list signed_constraint)
  : (bool * Z * pdd * pdd) * list signed_constraint :=
  let deg := degree v p in
  match deg with
  | S (S _) => ((false, 0, zero N, zero N), out_side_cond)
  | _ =>
      let qe := match deg with
                | O => (zero N, p)
                | _ => factor N v 1 p
                end in
      let q := fst qe in
      let e := snd qe in
      if negb (is_val q) then
        let r := core_subst q in
        if negb (is_val r) then ((false, 0, q, e), out_side_cond)
        else
          let b := core_subst e in
          ((is_val b, val N r, e, b), out_side_cond ++ [core_eq q r])
      else
        let b := core_subst e in
        ((is_val b, val N q, e, b), out_side_cond)
  end.

(** [to_interval] updates [coeff] in place; the new value is returned
    next to the interval. *)
Definition to_interval (c : signed_constraint) (is_trivial : bool)
           (coeff : Z) (lo_val : Z) (lo : pdd) (hi_val : Z) (hi : pdd)
  : eval_interval * Z :=
  if is_trivial then
    if is_positive c then (empty, coeff) else (full, coeff)
  else
    let pow2 := two_to_N N in
    let '(coeff, lo_val, lo, hi_val, hi) :=
      if pow2 <? 2 * coeff then
        (pow2 - coeff,
         (1 - hi_val) mod pow2, sub N (one N) hi,
         (1 - lo_val) mod pow2, sub N (one N) lo)
      else (coeff, lo_val, lo, hi_val, hi) in
    if is_positive c
    then (proper lo lo_val hi hi_val, coeff)
    else (proper hi hi_val lo lo_val, coeff).

Definition add_non_unit_side_conds (fi : fi_record) (b1 e1 b2 e2 : pdd)
  : fi_record :=
  if coeff fi =? 1 then fi
  else
    let fi := if negb (pdd_eqb b1 e1)
              then push_side_cond (core_eq b1 e1) fi else fi in
    if negb (pdd_eqb b2 e2)
    then push_side_cond (core_eq b2 e2) fi else fi.

(** The shape of a pattern: it either fills the record and answers
    [true], or leaves it alone and answers [false]. *)
Definition pattern : Type :=
  signed_constraint -> Z -> pdd -> pdd -> Z -> pdd -> pdd ->
  fi_record -> bool * fi_record.

Definition finish_linear (c : signed_constraint) (is_trivial : bool)
           (a : Z) (lo_val : Z) (lo : pdd) (hi_val : Z) (hi : pdd)
           (b1 e1 b2 e2 : pdd) (fi : fi_record) : fi_record :=
  let fi := set_coeff a fi in
  let ik := to_interval c is_trivial (coeff fi) lo_val lo hi_val hi in
  let fi := set_interval (fst ik) (set_coeff (snd ik) fi) in
  add_non_unit_side_conds fi b1 e1 b2 e2.

Definition match_linear1 : pattern := fun c a1 b1 e1 a2 b2 e2 fi =>
  if (a2 =? 0) && negb (a1 =? 0) then
    let is_trivial := is_zero N (add N b2 (one N)) in
    let fi := set_side_cond
                (push_eq is_trivial (add N e2 (one N)) (side_cond fi)) fi in
    let lo := add N (sub N e2 e1) (one N) in
    let lo_val := val N (add N (sub N b2 b1) (one N)) in
    let hi := neg N e1 in
    let hi_val := val N (neg N b1) in
    (true, finish_linear c is_trivial a1 lo_val lo hi_val hi b1 e1 b2 e2 fi)
  else (false, fi).

Definition match_linear2 : pattern := fun c a1 b1 e1 a2 b2 e2 fi =>
  if (a1 =? 0) && negb (a2 =? 0) then
    let is_trivial := is_zero N b1 in
    let fi := set_side_cond (push_eq is_trivial e1 (side_cond fi)) fi in
    let lo := neg N e2 in
    let lo_val := val N (neg N b2) in
    let hi := sub N e1 e2 in
    let hi_val := val N (sub N b1 b2) in
    (true, finish_linear c is_trivial a2 lo_val lo hi_val hi b1 e1 b2 e2 fi)
  else (false, fi).

Definition match_linear3 : pattern := fun c a1 b1 e1 a2 b2 e2 fi =>
  if (a1 =? a2) && negb (a1 =? 0) then
    let is_trivial := val N b1 =? val N b2 in
    let fi := set_side_cond
                (push_eq is_trivial (sub N e1 e2) (side_cond fi)) fi in
    let lo := neg N e2 in
    let lo_val := val N (neg N b2) in
    let hi := neg N e1 in
    let hi_val := val N (neg N b1) in
    (true, finish_linear c is_trivial a1 lo_val lo hi_val hi b1 e1 b2 e2 fi)
  else (false, fi).

Definition match_linear4 : pattern := fun c a1 b1 e1 a2 b2 e2 fi =>
  if negb (a1 =? a2) && negb (a1 =? 0) && negb (a2 =? 0) then
    let lo := b1 in
    let lo_val := a1 in
    let hi := b2 in
    let hi_val := a2 in
    (true, finish_linear c false (-1) lo_val lo hi_val hi b1 e1 b2 e2 fi)
  else (false, fi).

Definition match_zero : pattern := fun c a1 b1 e1 a2 b2 e2 fi =>
  if Z.odd a1 && (a2 =? 0) && is_zero N b2 then
    let mod_value := two_to_N N in
    let a1_inv := snd (mult_inverse a1) in
    let lo_val := (- val N b1 * a1_inv) mod mod_value in
    let lo := mul N (neg N e1) (mk_val N a1_inv) in
    let hi_val := (lo_val + 1) mod mod_value in
    let hi := add N lo (one N) in
    let '(lo_val, lo, hi_val, hi) :=
      if is_positive c then (hi_val, hi, lo_val, lo)
      else (lo_val, lo, hi_val, hi) in
    let fi := set_coeff 1 fi in
    let fi := set_interval (proper lo lo_val hi hi_val) fi in
    let fi := if negb (pdd_eqb b2 e2)
              then push_side_cond (core_eq b2 e2) fi else fi in
    (true, fi)
  else (false, fi).

Definition match_max : pattern := fun c a1 b1 e1 a2 b2 e2 fi =>
  if (a1 =? 0) && is_max N b1 && Z.odd a2 then
    let mod_value := two_to_N N in
    let a2_inv := snd (mult_inverse a2) in
    let lo_val := ((-1 - val N b2) * a2_inv) mod mod_value in
    let lo := mul N (sub N (mk_val N (-1)) e2) (mk_val N a2_inv) in
    let hi_val := (lo_val + 1) mod mod_value in
    let hi := add N lo (one N) in
    let '(lo_val, lo, hi_val, hi) :=
      if is_positive c then (hi_val, hi, lo_val, lo)
      else (lo_val, lo, hi_val, hi) in
    let fi := set_coeff 1 fi in
    let fi := set_interval (proper lo lo_val hi hi_val) fi in
    let fi := if negb (pdd_eqb b1 e1)
              then push_side_cond (core_eq b1 e1) fi else fi in
    (true, fi)
  else (false, fi).

(** The two patterns for a side that does not decompose.  They are
    compiled out of [get_interval_ule] (guarded by [false &&]). *)
Definition match_non_zero (c : signed_constraint) (a1 : Z) (b1 e1 : pdd)
           (q : pdd) (fi : fi_record) : bool * fi_record :=
  if (a1 =? 1) && is_negative c then
    let lo_val := val N (neg N b1) in
    let lo := neg N e1 in
    let hi_val := (lo_val + 1) mod two_to_N N in
    let hi := add N (add N lo q) (one N) in
    (true, set_interval (proper lo lo_val hi hi_val) (set_coeff 1 fi))
  else if Z.odd a1 && is_negative c then
    let a1_inv := snd (mult_inverse a1) in
    let lo_val := (- val N b1 * a1_inv) mod two_to_N N in
    let lo := mul N (neg N e1) (mk_val N a1_inv) in
    let hi_val := (lo_val + 1) mod two_to_N N in
    let hi := add N lo (one N) in
    (true, set_interval (proper lo lo_val hi hi_val) (set_coeff 1 fi))
  else (false, fi).

Definition match_non_max (c : signed_constraint) (p : pdd)
           (a2 : Z) (b2 e2 : pdd) (fi : fi_record) : bool * fi_record :=
  if (a2 =? 1) && is_negative c then
    let hi_val := val N (neg N b2) in
    let hi := neg N e2 in
    let lo_val := (hi_val - 1) mod two_to_N N in
    let lo := sub N p e2 in
    (true, set_interval (proper lo lo_val hi hi_val) (set_coeff 1 fi))
  else if Z.odd a2 && is_negative c then
    let a2_inv := snd (mult_inverse a2) in
    let lo_val := (a2_inv * (-1 - val N b2)) mod two_to_N N in
    let lo := mul N (mk_val N a2_inv) (sub N (mk_val N (-1)) e2) in
    let hi_val := (lo_val + 1) mod two_to_N N in
    let hi := add N lo (one N) in
    (true, set_interval (proper lo lo_val hi hi_val) (set_coeff 1 fi))
  else (false, fi).

End Matcher.

Section GetInterval.

Variable N : nat.
Variable s : core.

(** The overflow path.  [released] of the scope guard is threaded to each
    exit, where [backtrack] plays the destructor. *)
Definition get_interval_umul_ovfl (c : signed_constraint) (v : pvar)
           (fi : fi_record) : bool * fi_record :=
  let sz := length (side_cond fi) in
  let fi := set_coeff 1 fi in
  let fi := push_src c fi in
  let '(ok1, a1, e1, b1, side1) :=
    linear_decompose N s v (ovfl_p c) (side_cond fi) in
  let '(ok2, a2, e2, b2, side2) :=
    linear_decompose N s v (ovfl_q c) side1 in
  let fi := set_side_cond side2 fi in
  let bound := max_value N in
  let '(ok1, a1, e1, b1, ok2, a2, e2, b2) :=
    if ok2 && negb ok1 then (ok2, a2, e2, b2, ok1, a1, e1, b1)
    else (ok1, a1, e1, b1, ok2, a2, e2, b2) in
  if ok1 && negb ok2 && (a1 =? 1) && is_zero N b1 && is_positive c then
    let lo_val := 0 in
    let hi_val := 2 in
    let lo := mk_val N lo_val in
    let hi := mk_val N hi_val in
    (true, backtrack true sz (set_interval (proper lo lo_val hi hi_val) fi))
  else if negb ok1 || negb ok2 then (false, backtrack false sz fi)
  else
    let '(a1, e1, b1, a2, e2, b2) :=
      if (a2 =? 1) && (a1 =? 0) then (a2, e2, b2, a1, e1, b1)
      else (a1, e1, b1, a2, e2, b2) in
    if negb (a1 =? 1) || negb (a2 =? 0) then (false, backtrack false sz fi)
    else if negb (is_zero N b1) then (false, backtrack false sz fi)
    else if is_positive c then
      if val N b2 <=? 1 then
        let fi := set_interval full fi in
        let fi := push_side_cond (cs_ule e2 (mk_val N 1)) fi in
        (true, backtrack true sz fi)
      else
        let A := bound / val N b2 in
        let B := (bound + A) / A - 1 in
        if (4 <=? A) && (4 <=? B) then (false, backtrack false sz fi)
        else
          let lo_val := 0 in
          let hi_val := A + 1 in
          let lo := mk_val N lo_val in
          let hi := mk_val N hi_val in
          let fi := set_interval (proper lo lo_val hi hi_val) fi in
          let fi := push_side_cond (cs_ule e2 (mk_val N B)) fi in
          (true, backtrack true sz fi)
    else
      if val N b2 <=? 1 then (false, backtrack false sz fi)
      else
        let A := bound / val N b2 + 1 in
        let B := (bound + A) / A in
        if (4 <=? A) && (4 <=? B) then (false, backtrack false sz fi)
        else
          let lo_val := A in
          let hi_val := 0 in
          let lo := mk_val N lo_val in
          let hi := mk_val N hi_val in
          let fi := set_interval (proper lo lo_val hi hi_val) fi in
          let fi := push_side_cond (cs_ule (mk_val N (val N b2)) e2) fi in
          (true, backtrack true sz fi).

(** Try one pattern: [if (match_X(...)) return true;]. *)
Definition try_pattern (m : pattern) (c : signed_constraint)
           (a1 : Z) (b1 e1 : pdd) (a2 : Z) (b2 e2 : pdd)
           (k : fi_record -> bool * fi_record) (fi : fi_record)
  : bool * fi_record :=
  let r := m c a1 b1 e1 a2 b2 e2 fi in
  if fst r then (true, snd r) else k (snd r).

(** The inequality path. *)
Definition get_interval_ule (c : signed_constraint) (v : pvar)
           (fi : fi_record) : bool * fi_record :=
  let sz := length (side_cond fi) in
  let fi := set_coeff 1 fi in
  let fi := push_src c fi in
  let '(ok1, a1, e1, b1, side1) :=
    linear_decompose N s v (ule_lhs c) (side_cond fi) in
  let '(ok2, a2, e2, b2, side2) :=
    linear_decompose N s v (ule_rhs c) side1 in
  let fi := set_side_cond side2 fi in
  if false && ok1 && negb ok2
     && fst (match_non_zero N c a1 b1 e1 (ule_rhs c) fi)
  then (true, backtrack true sz
                (snd (match_non_zero N c a1 b1 e1 (ule_rhs c) fi)))
  else if false && negb ok1 && ok2
          && fst (match_non_max N c (ule_lhs c) a2 b2 e2 fi)
  then (true, backtrack true sz
                (snd (match_non_max N c (ule_lhs c) a2 b2 e2 fi)))
  else if negb ok1 || negb ok2 || ((a1 =? 0) && (a2 =? 0))
  then (false, backtrack false sz fi)
  else
    let released (r : bool * fi_record) := (fst r, backtrack true sz (snd r)) in
    released
      (try_pattern (match_zero N) c a1 b1 e1 a2 b2 e2
      (try_pattern (match_max N) c a1 b1 e1 a2 b2 e2
      (try_pattern (match_linear1 N) c a1 b1 e1 a2 b2 e2
      (try_pattern (match_linear2 N) c a1 b1 e1 a2 b2 e2
      (try_pattern (match_linear3 N) c a1 b1 e1 a2 b2 e2
      (try_pattern (match_linear4 N) c a1 b1 e1 a2 b2 e2
      (fun fi => (false, backtrack false sz fi))))))) fi).

Definition get_interval (c : signed_constraint) (v : pvar)
           (fi : fi_record) : bool * fi_record :=
  let fi := set_bit_width (size s v) fi in
  if is_ule c then get_interval_ule c v fi
  else if is_umul_ovfl c then get_interval_umul_ovfl c v fi
  else (false, fi).

(** The priority list of the inequality path, and the combinator "the
    first pattern that matches wins", as the specification words it. *)
Definition ule_patterns : list pattern :=
  [match_zero N; match_max N; match_linear1 N; match_linear2 N;
   match_linear3 N; match_linear4 N].

Fixpoint first_match (ps : list pattern) (c : signed_constraint)
         (a1 : Z) (b1 e1 : pdd) (a2 : Z) (b2 e2 : pdd) (fi : fi_record)
  : bool * fi_record :=
  match ps with
  | [] => (false, fi)
  | m :: ps' =>
      let r := m c a1 b1 e1 a2 b2 e2 fi in
      if fst r then (true, snd r)
      else first_match ps' c a1 b1 e1 a2 b2 e2 fi
  end.

(** The disabled patterns in the shape of [pattern]. *)
Definition non_zero_pattern (q : pdd) : pattern :=
  fun c a1 b1 e1 _ _ _ fi => match_non_zero N c a1 b1 e1 q fi.
Definition non_max_pattern (p : pdd) : pattern :=
  fun c _ _ _ a2 b2 e2 fi => match_non_max N c p a2 b2 e2 fi.

End GetInterval.

(* ================================================================== *)
(** * The saturation rules *)
(* ================================================================== *)

(** Modelled from the spec: [inequality.h] is not part of the sources at
    hand.  An inequality [lhs <= rhs] or [lhs < rhs] read off a constraint
    of the core, with the identifier and the dependency of that
    constraint, as [saturation.cpp] uses it. *)
Record inequality : Type := mk_inequality {
  ineq_lhs : pdd;
  ineq_rhs : pdd;
  is_strict : bool;
  ineq_id : constraint_id;
  ineq_dep : dependency
}.

(** A member of a clause handed to the core: a dependency to be assumed or
    a constraint to be asserted. *)
Inductive core_item : Type :=
| of_dep (d : dependency)
| of_sc (sc : signed_constraint).

Inductive lbool : Type := l_false | l_undef | l_true.

(** What the saturation engine leaves behind: the rule last announced, the
    flag [m_propagated], and the literals and clauses handed to the core, in
    the order they were handed over. *)
Record saturation : Type := mk_saturation {
  m_rule : String.string;
  m_propagated : bool;
  propagations : list (signed_constraint * list constraint_id);
  clauses : list (String.string * list core_item * bool)
}.

Definition set_rule (r : String.string) (st : saturation) : saturation :=
  mk_saturation r (m_propagated st) (propagations st) (clauses st).
Definition set_propagated (b : bool) (st : saturation) : saturation :=
  mk_saturation (m_rule st) b (propagations st) (clauses st).

Section Saturation.

Variable N : nat.
Variable s : core.

(** The pattern [x*Y <= x*Z] of [inequality.h] and the evaluation of a
    constraint by the core are not part of the sources at hand; so are
    the answers of [core::add_clause] and the reading of an inequality
    off a constraint.  They are taken as given. *)
Variable is_xY_l_xZ : inequality -> pvar -> option (pdd * pdd).
Variable core_eval : constraint_id -> lbool.
Variable from_ule : constraint_id -> inequality.
Variable core_add_clause_new : list core_item -> bool.
Variable core_propagate_new : signed_constraint -> bool.

(** [core::propagate]: the literal and its premises reach the solver. *)
Definition core_propagate (sc : signed_constraint)
           (premises : list constraint_id) (st : saturation) : saturation :=
  mk_saturation (m_rule st) (m_propagated st)
                (propagations st ++ [(sc, premises)]) (clauses st).

Definition sat_propagate (sc : signed_constraint)
           (premises : list constraint_id) (st : saturation) : saturation :=
  let st := core_propagate sc premises st in
  if core_propagate_new sc then set_propagated true st else st.

Definition add_clause (name : String.string) (cs : list core_item)
           (is_redundant : bool) (st : saturation) : saturation :=
  let st := mk_saturation (m_rule st) (m_propagated st) (propagations st)
                          (clauses st ++ [(name, cs, is_redundant)]) in
  if core_add_clause_new cs then set_propagated true st else st.

(** [match_core]: the first constraint of the unsat core that passes. *)
Definition match_core (p : signed_constraint -> bool)
  : option constraint_id :=
  find (fun id => p (get_constraint s id)) (unsat_core s).

Definition ineq (strict : bool) (x y : pdd) : signed_constraint :=
  if strict then cs_ult x y else cs_ule x y.

(** p <= q, q <= p => p = q *)
Definition propagate_infer_equality (x : pvar) (i : inequality)
           (st : saturation) : saturation :=
  let st := set_rule "[x] p <= q, q <= p => p - q = 0"%string st in
  if is_strict i then st
  else if (degree x (ineq_lhs i) =? 0)%nat
          && (degree x (ineq_rhs i) =? 0)%nat then st
  else
    match match_core
            (fun sc => is_ule sc && negb (sign sc)
                       && pdd_eqb (ule_lhs sc) (ineq_rhs i)
                       && pdd_eqb (ule_rhs sc) (ineq_lhs i)) with
    | None => st
    | Some id =>
        core_propagate (core_eq N (ineq_lhs i) (ineq_rhs i))
                       [id; ineq_id i] st
    end.

(** [x] yx < zx   ==>  Ω*(x,y) \/ y < z
    [x] yx <= zx  ==>  Ω*(x,y) \/ y <= z \/ x = 0 *)
Definition try_ugt_x (v : pvar) (i : inequality) (st : saturation)
  : saturation :=
  let x := mk_var N v in
  match is_xY_l_xZ i v with
  | None => st
  | Some (y, z) =>
      let ovfl := cs_umul_ovfl x y in
      if is_strict i then
        add_clause "[x] yx < zx ==>  Ω*(x,y) \/ y < z"%string
                   [of_dep (ineq_dep i); of_sc ovfl; of_sc (cs_ult y z)]
                   false st
      else
        add_clause "[x] yx <= zx  ==>  Ω*(x,y) \/ y <= z \/ x = 0"%string
                   [of_dep (ineq_dep i); of_sc ovfl; of_sc (cs_eq N x);
                    of_sc (cs_ule y z)]
                   false st
  end.

(** [saturation::propagate(pvar, inequality const&)]. *)
Definition propagate_inequality (v : pvar) (i : inequality)
           (st : saturation) : saturation :=
  if negb (Nat.eqb (size s v) N) then st
  else try_ugt_x v i (propagate_infer_equality v i st).

(** [saturation::propagate(pvar, constraint_id)]. *)
Definition propagate_id (v : pvar) (id : constraint_id) (st : saturation)
  : bool * saturation :=
  match core_eval id with
  | l_true => (false, st)
  | _ =>
      let sc := get_constraint s id in
      let st := set_propagated false st in
      let st := if is_ule sc then propagate_inequality v (from_ule id) st
                else st in
      (m_propagated st, st)
  end.

(** [saturation::propagate(pvar)]: every member of the unsat core. *)
Definition propagate (v : pvar) (st : saturation) : saturation :=
  fold_left (fun st id => snd (propagate_id v id st)) (unsat_core s) st.

End Saturation.

(** Modelled from the spec: [inequality::is_xY_l_xZ] is not part of the
    sources at hand; [saturation.h] describes it by [c := xY <= xZ] and
    [xy := x * Y]: both sides are the variable times a cofactor, with
    nothing left over. *)
Definition is_xY (N : nat) (x : pvar) (xy : pdd) : option pdd :=
  if Nat.eqb (degree x xy) 1
  then let qe := factor N x 1 xy in
       if is_zero N (snd qe) then Some (fst qe) else None
  else None.

Definition is_xY_l_xZ_model (N : nat) (i : inequality) (x : pvar)
  : option (pdd * pdd) :=
  match is_xY N x (ineq_lhs i), is_xY N x (ineq_rhs i) with
  | Some y, Some z => Some (y, z)
  | _, _ => None
  end.

(** Modelled from the spec: the evaluation of constraints is not part of
    the sources at hand.  [ule] compares the values of its sides as
    unsigned words; the overflow predicate says that the product of the
    values of its operands exceeds the representable range, that is,
    reaches [2^N]. *)
Definition eval_constraint (N : nat) (M : pvar -> Z) (c : constraint) : bool :=
  match c with
  | ule l r => eval N M l <=? eval N M r
  | umul_ovfl p q => two_to_N N <=? eval N M p * eval N M q
  | op_constraint _ => false
  end.

Definition holds (N : nat) (M : pvar -> Z) (c : signed_constraint) : bool :=
  xorb (sign c) (eval_constraint N M (body c)).

(** Whether both sides of a constraint decompose linearly in [v]: degree
    at most one, with a coefficient and a remainder that evaluate. *)
Definition decomposes (N : nat) (s : core) (v : pvar) (p : pdd) : bool :=
  fst (fst (fst (fst (linear_decompose N s v p [])))).

Definition decomposable (N : nat) (s : core) (v : pvar)
           (c : signed_constraint) : bool :=
  match body c with
  | ule l r => decomposes N s v l && decomposes N s v r
  | umul_ovfl p q => decomposes N s v p && decomposes N s v q
  | op_constraint _ => false
  end.

(** A total model that carries the values of the current assignment on
    every variable but [v]. *)
Definition agrees_off (v : pvar) (sigma : assignment) (M : pvar -> Z) : Prop :=
  forall x a, x <> v -> sigma x = Some a -> M x = a.

(** The complement-by-negation step of [to_interval], on the coefficient
    and on the values of the end points. *)
Definition negate_normalize (N : nat) (t : Z * Z * Z) : Z * Z * Z :=
  let '(k, lo_val, hi_val) := t in
  (two_to_N N - k, (1 - hi_val) mod two_to_N N, (1 - lo_val) mod two_to_N N).

(** The same step on the symbolic end points. *)
Definition negate_endpoints (N : nat) (t : pdd * pdd) : pdd * pdd :=
  (sub N (one N) (snd t), sub N (one N) (fst t)).

(* ================================================================== *)
(** * Further parts of the core and of the saturation engine *)
(* ================================================================== *)

(** A total model that carries the whole current assignment. *)
Definition agrees (sigma : assignment) (M : pvar -> Z) : Prop :=
  forall x a, sigma x = Some a -> M x = a.

(** Modelled from the spec: the truth of an inequality of [inequality.h],
    which is not part of the sources at hand: [lhs < rhs] when strict and
    [lhs <= rhs] otherwise, on the values of the two sides as unsigned
    words. *)
Definition holds_inequality (N : nat) (M : pvar -> Z) (i : inequality)
  : bool :=
  if is_strict i
  then eval N M (ineq_lhs i) <? eval N M (ineq_rhs i)
  else eval N M (ineq_lhs i) <=? eval N M (ineq_rhs i).

(** The reading of a clause handed to [core::add_axiom], as [core.h] gives
    it: some signed constraint among its members holds.  The dependencies
    are the assumptions of the clause. *)
Definition clause_holds (N : nat) (M : pvar -> Z) (cs : list core_item)
  : bool :=
  existsb (fun it => match it with
                     | of_dep _ => false
                     | of_sc sc => holds N M sc
                     end) cs.

(** Modelled from the spec: [core::try_eval] is declared in [core.h] and
    its body is not part of the sources at hand: the value of a polynomial
    under the current assignment, when the assignment turns it into a
    constant. *)
Definition try_eval (N : nat) (s : core) (p : pdd) : option Z :=
  let r := core_subst N s p in
  if is_val r then Some (val N r) else None.

(** [saturation::is_non_overflow], in its two forms; the second hands the
    overflow constraint back through [sc] when it answers [true]. *)
Definition is_non_overflow (N : nat) (s : core) (x y : pdd) : bool :=
  match try_eval N s x with
  | None => false
  | Some x_val =>
      match try_eval N s y with
      | None => false
      | Some y_val => x_val * y_val <? two_to_N N
      end
  end.

Definition is_non_overflow_sc (N : nat) (s : core) (x y : pdd)
           (sc : signed_constraint) : bool * signed_constraint :=
  if is_non_overflow N s x y then (true, cs_umul_ovfl x y) else (false, sc).

(** [core::bnot]: [-p - 1]. *)
Definition bnot (N : nat) (p : pdd) : pdd := sub N (neg N p) (one N).

(** [core::var_activity] with its two comparisons. *)
Record var_activity : Type := mk_var_activity {
  sz : N;
  act : N
}.

Definition activity_lt (a other : var_activity) : bool :=
  if negb (sz other =? sz a)%N then (sz other <? sz a)%N
  else (act a <? act other)%N.

Definition activity_gt (a other : var_activity) : bool := activity_lt other a.

(** The struct [bilinear] of [saturation.h]: [a*x*y + b*x + c*y + d] over
    the rationals. *)
Module bilinear.

Record t : Type := mk { a : Q; b : Q; c : Q; d : Q }.

Definition eval (r : t) (x y : Q) : Q :=
  (a r * x * y + b r * x + c r * y + d r)%Q.

Definition opp (r : t) : t := mk (- a r)%Q (- b r)%Q (- c r)%Q (- d r)%Q.

Definition sub (r other : t) : t :=
  mk (a r - a other)%Q (b r - b other)%Q (c r - c other)%Q (d r - d other)%Q.

Definition add_const (r : t) (k : Q) : t := mk (a r) (b r) (c r) (d r + k)%Q.

Definition sub_const (r : t) (k : Q) : t := mk (a r) (b r) (c r) (d r - k)%Q.

Definition sub_int (r : t) (k : Z) : t :=
  mk (a r) (b r) (c r) (d r - inject_Z k)%Q.

End bilinear.

(** Every constraint of a list holds in a model. *)
Definition all_hold (N : nat) (M : pvar -> Z) (l : list signed_constraint)
  : Prop :=
  Forall (fun sc => holds N M sc = true) l.

(** Membership of a word in an interval read through its symbolic end
    points, evaluated in a model. *)
Definition symbolically_contains (N : nat) (M : pvar -> Z)
           (i : eval_interval) (x : Z) : bool :=
  match i with
  | full => true
  | empty => false
  | proper lo _ hi _ => in_range (eval N M lo) (eval N M hi) x
  end.

(** Whether every variable of a polynomial passes a test, and whether
    every variable of it other than [v] has a value. *)
Definition only_vars (ok : pvar -> bool) (p : pdd) : bool :=
  forallb (fun t => forallb ok (fst t)) p.

Definition is_assigned (sigma : assignment) (x : pvar) : bool :=
  match sigma x with Some _ => true | None => false end.

Definition assigned_but (sigma : assignment) (v : pvar) (p : pdd) : bool :=
  only_vars (fun x => Nat.eqb x v || is_assigned sigma x) p.

(** The coefficient of [v] that [linear_decompose] reports for a
    polynomial. *)
Definition coefficient (N : nat) (s : core) (v : pvar) (p : pdd) : Z :=
  snd (fst (fst (fst (linear_decompose N s v p [])))).

(** Whether a model gives the remainder of a decomposition the value it
    has under the current assignment, [eval e = val b], for one polynomial
    and for the two sides of a constraint.  A record with a coefficient
    other than one carries this as the side conditions of
    [add_non_unit_side_conds]. *)
Definition remainder_kept (N : nat) (s : core) (v : pvar) (M : pvar -> Z)
           (p : pdd) : bool :=
  let '(_, _, e, b, _) := linear_decompose N s v p [] in
  eval N M e =? val N b.

Definition remainders_kept (N : nat) (s : core) (v : pvar) (M : pvar -> Z)
           (c : signed_constraint) : bool :=
  match body c with
  | ule l r => remainder_kept N s v M l && remainder_kept N s v M r
  | umul_ovfl p q => remainder_kept N s v M p && remainder_kept N s v M q
  | op_constraint _ => false
  end.

(* ================================================================== *)
(** * Sample inputs at width 8 *)
(* ================================================================== *)

(** A core with nothing assigned and one in which the variable [1] has the
    value [2]; all variables have width 8. *)
Definition sample_core : core :=
  mk_core (fun _ => None) (fun _ => 8%nat)
          (fun _ => mk_sc false (op_constraint 0)) [].

Definition sample_core_y2 : core :=
  mk_core (fun x => if Nat.eqb x 1%nat then Some 2 else None) (fun _ => 8%nat)
          (fun _ => mk_sc false (op_constraint 0)) [].

(** [2*v <= 5], [3*v + 7 <= 0], [v*v <= 5], [ovfl(v, 3)] and
    [ovfl(v, y*v + w)] over the variables [v = 0], [y = 1], [w = 2]. *)
Definition sample_2v_le_5 : signed_constraint :=
  cs_ule (mul 8 (mk_val 8 2) (mk_var 8 0%nat)) (mk_val 8 5).

Definition sample_3v7_le_0 : signed_constraint :=
  cs_ule (add 8 (mul 8 (mk_val 8 3) (mk_var 8 0%nat)) (mk_val 8 7)) (zero 8).

Definition sample_vv_le_5 : signed_constraint :=
  cs_ule (mul 8 (mk_var 8 0%nat) (mk_var 8 0%nat)) (mk_val 8 5).

Definition sample_ovfl_v_3 : signed_constraint :=
  cs_umul_ovfl (mk_var 8 0%nat) (mk_val 8 3).

Definition sample_ovfl_v_yvw : signed_constraint :=
  cs_umul_ovfl (mk_var 8 0%nat)
    (add 8 (mul 8 (mk_var 8 1%nat) (mk_var 8 0%nat)) (mk_var 8 2%nat)).

(** [2*v <= 3*v], [ovfl(y*v, w)], a core in which [y] has the value [1],
    and the model [v = 5], [y = 2], everything else [0]. *)
Definition sample_2v_le_3v : signed_constraint :=
  cs_ule (mul 8 (mk_val 8 2) (mk_var 8 0%nat))
         (mul 8 (mk_val 8 3) (mk_var 8 0%nat)).

Definition sample_ovfl_yv_w : signed_constraint :=
  cs_umul_ovfl (mul 8 (mk_var 8 1%nat) (mk_var 8 0%nat)) (mk_var 8 2%nat).

Definition sample_core_y1 : core :=
  mk_core (fun x => if Nat.eqb x 1%nat then Some 1 else None) (fun _ => 8%nat)
          (fun _ => mk_sc false (op_constraint 0)) [].

Definition sample_model_v5_y2 : pvar -> Z :=
  fun x => match x with
           | O => 5
           | S O => 2
           | _ => 0
           end.

(** The polynomial [y*v + 3]. *)
Definition sample_yv_plus_3 : pdd :=
  add 8 (mul 8 (mk_var 8 1%nat) (mk_var 8 0%nat)) (mk_val 8 3).

(** The inequality [y*x <= z*x] over [x = 0], [y = 1], [z = 2], and a core
    whose unsat core holds [q <= p] for [p = x], [q = y]. *)
Definition sample_yx_le_zx : inequality :=
  mk_inequality (mul 8 (mk_var 8 1%nat) (mk_var 8 0%nat))
                (mul 8 (mk_var 8 2%nat) (mk_var 8 0%nat)) false 7%nat 7%nat.

Definition sample_x_le_y : inequality :=
  mk_inequality (mk_var 8 0%nat) (mk_var 8 1%nat) false 4%nat 4%nat.

Definition sample_core_mirror : core :=
  mk_core (fun _ => None) (fun _ => 8%nat)
          (fun id => if Nat.eqb id 9%nat
                     then cs_ule (mk_var 8 1%nat) (mk_var 8 0%nat)
                     else cs_ule (mk_var 8 0%nat) (mk_var 8 1%nat))
          [4%nat; 9%nat].

Definition sample_saturation : saturation :=
  mk_saturation EmptyString false [] [].

(** [y*v + 3 <= 5], the negated inequalities [not (v + 3 <= w)] and
    [not (w <= v + 3)], and the model [x = 1], [y = 1], [z = 2]. *)
Definition sample_yv3_le_5 : signed_constraint :=
  cs_ule sample_yv_plus_3 (mk_val 8 5).

Definition sample_not_v3_le_w : signed_constraint :=
  sc_not (cs_ule (add 8 (mk_var 8 0%nat) (mk_val 8 3)) (mk_var 8 2%nat)).

Definition sample_not_w_le_v3 : signed_constraint :=
  sc_not (cs_ule (mk_var 8 2%nat) (add 8 (mk_var 8 0%nat) (mk_val 8 3))).

Definition sample_model_x1_y1_z2 : pvar -> Z :=
  fun x => match x with
           | O => 1
           | S O => 1
           | S (S O) => 2
           | _ => 0
           end.

(** [v + y <= 5] over [v = 0], [y = 1]. *)
Definition sample_v_plus_y_le_5 : signed_constraint :=
  cs_ule (add 8 (mk_var 8 0%nat) (mk_var 8 1%nat)) (mk_val 8 5).

(** [ovfl(v, y)] over [v = 0], [y = 1], and the model [v = 5], [y = 1]. *)
Definition sample_ovfl_v_y : signed_constraint :=
  cs_umul_ovfl (mk_var 8 0%nat) (mk_var 8 1%nat).

Definition sample_model_v5_y1 : pvar -> Z :=
  fun x => match x with
           | O => 5
           | S O => 1
           | _ => 0
           end.

(** A core in which [y] has the value [1] and [z] the value [2], the
    inequality [2*v + y + z <= 5] over [v = 0], [y = 1], [z = 2], and the
    model [v = 1], [y = 3], everything else [0], which gives [y + z] the
    value it has under the assignment and does not carry the assignment. *)
Definition sample_core_y1_z2 : core :=
  mk_core (fun x => match x with
                    | S O => Some 1
                    | S (S O) => Some 2
                    | _ => None
                    end)
          (fun _ => 8%nat) (fun _ => mk_sc false (op_constraint 0)) [].

Definition sample_2v_y_z_le_5 : signed_constraint :=
  cs_ule (add 8 (add 8 (mul 8 (mk_val 8 2) (mk_var 8 0%nat)) (mk_var 8 1%nat))
                (mk_var 8 2%nat))
         (mk_val 8 5).

Definition sample_model_v1_y3 : pvar -> Z :=
  fun x => match x with
           | O => 1
           | S O => 3
           | _ => 0
           end.

(** The models [v = 255] and [v = 200], everything else [0]. *)
Definition sample_model_v255 : pvar -> Z :=
  fun x => match x with
           | O => 255
           | _ => 0
           end.

Definition sample_model_v200 : pvar -> Z :=
  fun x => match x with
           | O => 200
           | _ => 0
           end.

(** The negated inequality [not (v <= 3*v)] and the record that
    [get_interval_ule] hands to the patterns on it. *)
Definition sample_not_v_le_3v : signed_constraint :=
  sc_not (cs_ule (mk_var 8 0%nat) (mul 8 (mk_val 8 3) (mk_var 8 0%nat))).

Definition sample_fi_not_v_le_3v : fi_record :=
  set_side_cond [] (push_src sample_not_v_le_3v (set_coeff 1 fi_empty)).

(** Congruence modulo [2^N]. *)
Definition eqmod (N : nat) (a b : Z) : Prop :=
  a mod two_to_N N = b mod two_to_N N.

(* ================================================================== *)
(** * Facts about the polynomial layer *)
(* ================================================================== *)

Section PolyFacts.

Variable N : nat.

Lemma two_to_N_pos : 0 < two_to_N N.
Proof. unfold two_to_N. apply Z.pow_pos_nonneg; lia. Qed.

Lemma two_to_N_nonzero : two_to_N N <> 0.
Proof. pose proof two_to_N_pos. lia. Qed.

#[global] Instance eqmod_equiv : Equivalence (eqmod N).
Proof.
  split.
  - intros a. reflexivity.
  - intros a b H. unfold eqmod in *. symmetry. exact H.
  - intros a b c H1 H2. unfold eqmod in *. congruence.
Qed.

#[global] Instance eqmod_add :
  Proper (eqmod N ==> eqmod N ==> eqmod N) Z.add.
Proof.
  intros a a' Ha b b' Hb. unfold eqmod in *.
  rewrite (Zplus_mod a b), (Zplus_mod a' b'), Ha, Hb. reflexivity.
Qed.

#[global] Instance eqmod_mul :
  Proper (eqmod N ==> eqmod N ==> eqmod N) Z.mul.
Proof.
  intros a a' Ha b b' Hb. unfold eqmod in *.
  rewrite (Zmult_mod a b), (Zmult_mod a' b'), Ha, Hb. reflexivity.
Qed.

#[global] Instance eqmod_opp : Proper (eqmod N ==> eqmod N) Z.opp.
Proof.
  intros a a' Ha.
  replace (- a) with (-1 * a) by ring. replace (- a') with (-1 * a') by ring.
  rewrite Ha. reflexivity.
Qed.

#[global] Instance eqmod_sub :
  Proper (eqmod N ==> eqmod N ==> eqmod N) Z.sub.
Proof.
  intros a a' Ha b b' Hb. unfold Z.sub. rewrite Ha, Hb. reflexivity.
Qed.

Lemma eqmod_mod (a : Z) : eqmod N (a mod two_to_N N) a.
Proof. unfold eqmod. apply Z.mod_mod, two_to_N_nonzero. Qed.

Lemma eqmod_of_eq (a b : Z) : a = b -> eqmod N a b.
Proof. intros ->. reflexivity. Qed.

Lemma eqmod_small (a b : Z) :
  0 <= a < two_to_N N -> 0 <= b < two_to_N N -> eqmod N a b -> a = b.
Proof.
  unfold eqmod. intros Ha Hb H.
  rewrite (Z.mod_small a), (Z.mod_small b) in H; assumption.
Qed.

Lemma mod_range (a : Z) : 0 <= a mod two_to_N N < two_to_N N.
Proof. apply Z.mod_pos_bound, two_to_N_pos. Qed.

(** ** Monomials *)

Lemma mono_compare_eq (m1 m2 : monomial) :
  mono_compare m1 m2 = Eq -> m1 = m2.
Proof.
  revert m2. induction m1 as [|x r1 IH]; intros [|y r2]; simpl;
    try discriminate; auto.
  destruct (Nat.compare x y) eqn:E; try discriminate.
  apply Nat.compare_eq in E. intros H. f_equal; auto.
Qed.

Lemma mono_eqb_eq (m1 m2 : monomial) : mono_eqb m1 m2 = true -> m1 = m2.
Proof.
  revert m2. induction m1 as [|x r1 IH]; intros [|y r2]; simpl;
    try discriminate; auto.
  intros H. apply andb_true_iff in H. destruct H as [H1 H2].
  apply Nat.eqb_eq in H1. f_equal; auto.
Qed.

Lemma pdd_eqb_eq (p q : pdd) : pdd_eqb p q = true -> p = q.
Proof.
  revert q. induction p as [|[m1 c1] p IH]; intros [|[m2 c2] q]; simpl;
    try discriminate; auto.
  intros H. apply andb_true_iff in H. destruct H as [H H3].
  apply andb_true_iff in H. destruct H as [H1 H2].
  apply mono_eqb_eq in H1. apply Z.eqb_eq in H2. apply IH in H3.
  congruence.
Qed.

Section Eval.

Variable M : pvar -> Z.

Lemma eval_mono_nil : eval_mono M [] = 1.
Proof. reflexivity. Qed.

Lemma eval_mono_cons (x : pvar) (m : monomial) :
  eval_mono M (x :: m) = M x * eval_mono M m.
Proof. reflexivity. Qed.

Lemma eval_mono_insert (x : pvar) (m : monomial) :
  eval_mono M (insert_var x m) = M x * eval_mono M m.
Proof.
  induction m as [|y r IH]; [reflexivity|].
  cbn [insert_var]. destruct (x <=? y)%nat; [reflexivity|].
  rewrite !eval_mono_cons, IH. ring.
Qed.

Lemma eval_mono_mul (m1 m2 : monomial) :
  eval_mono M (mono_mul m1 m2) = eval_mono M m1 * eval_mono M m2.
Proof.
  induction m1 as [|x r IH].
  - rewrite eval_mono_nil. unfold mono_mul. cbn [fold_right]. ring.
  - unfold mono_mul in *. cbn [fold_right].
    rewrite eval_mono_insert, IH, eval_mono_cons. ring.
Qed.

Lemma eval_mono_drop (v : pvar) (m : monomial) :
  (1 <= var_count v m)%nat ->
  eval_mono M m = M v * eval_mono M (drop_var v 1 m).
Proof.
  induction m as [|x r IH]; cbn [var_count drop_var]; [lia|].
  destruct (Nat.eqb x v) eqn:E.
  - apply Nat.eqb_eq in E. subst x. intros _.
    rewrite eval_mono_cons. destruct r; reflexivity.
  - intros H. rewrite !eval_mono_cons, (IH H). ring.
Qed.

Lemma eval_raw_app (p q : pdd) :
  eval_raw M (p ++ q) = eval_raw M p + eval_raw M q.
Proof.
  induction p as [|[m c] p IH]; simpl; [reflexivity|]. rewrite IH. ring.
Qed.

Lemma eval_raw_mk_term (m : monomial) (c : Z) :
  eqmod N (eval_raw M (mk_term N m c)) (c * eval_mono M m).
Proof.
  unfold mk_term. destruct (c mod two_to_N N =? 0) eqn:E; simpl.
  - apply Z.eqb_eq in E.
    assert (H : eqmod N c 0).
    { unfold eqmod. rewrite E. symmetry. apply Z.mod_0_l, two_to_N_nonzero. }
    rewrite H. reflexivity.
  - rewrite eqmod_mod. apply eqmod_of_eq. ring.
Qed.

Lemma add_nil_r (p : pdd) : add N p [] = p.
Proof. destruct p as [|[m c] p]; reflexivity. Qed.

Lemma add_cons (m1 : monomial) (c1 : Z) (p : pdd)
      (m2 : monomial) (c2 : Z) (q : pdd) :
  add N ((m1, c1) :: p) ((m2, c2) :: q) =
  match mono_compare m1 m2 with
  | Lt => (m1, c1) :: add N p ((m2, c2) :: q)
  | Gt => (m2, c2) :: add N ((m1, c1) :: p) q
  | Eq => mk_term N m1 (c1 + c2) ++ add N p q
  end.
Proof. reflexivity. Qed.

Lemma eval_raw_add (p q : pdd) :
  eqmod N (eval_raw M (add N p q)) (eval_raw M p + eval_raw M q).
Proof.
  revert q. induction p as [|[m1 c1] p IHp]; intros q.
  - simpl. reflexivity.
  - induction q as [|[m2 c2] q IHq].
    + rewrite add_nil_r. apply eqmod_of_eq. simpl. ring.
    + rewrite add_cons. destruct (mono_compare m1 m2) eqn:E.
      * apply mono_compare_eq in E. subst m2.
        rewrite eval_raw_app, eval_raw_mk_term, IHp.
        apply eqmod_of_eq. simpl. ring.
      * cbn [eval_raw]. rewrite IHp. apply eqmod_of_eq. simpl. ring.
      * cbn [eval_raw]. rewrite IHq. apply eqmod_of_eq. simpl. ring.
Qed.

Lemma eval_raw_mul_term (m : monomial) (c : Z) (q : pdd) :
  eqmod N (eval_raw M (mul_term N m c q))
          (c * eval_mono M m * eval_raw M q).
Proof.
  induction q as [|[m2 c2] q IH].
  - simpl. apply eqmod_of_eq. ring.
  - unfold mul_term in *. cbn [fold_right fst snd].
    rewrite eval_raw_add, eval_raw_mk_term, IH, eval_mono_mul.
    apply eqmod_of_eq. simpl. ring.
Qed.

Lemma eval_raw_mul (p q : pdd) :
  eqmod N (eval_raw M (mul N p q)) (eval_raw M p * eval_raw M q).
Proof.
  induction p as [|[m c] p IH].
  - simpl. reflexivity.
  - unfold mul in *. cbn [fold_right fst snd].
    rewrite eval_raw_add, eval_raw_mul_term, IH.
    apply eqmod_of_eq. simpl. ring.
Qed.

Lemma eval_eqmod (p : pdd) : eqmod N (eval N M p) (eval_raw M p).
Proof. apply eqmod_mod. Qed.

Lemma eval_range (p : pdd) : 0 <= eval N M p < two_to_N N.
Proof. apply mod_range. Qed.

Lemma eval_add (p q : pdd) :
  eqmod N (eval N M (add N p q)) (eval N M p + eval N M q).
Proof. rewrite !eval_eqmod. apply eval_raw_add. Qed.

Lemma eval_mul (p q : pdd) :
  eqmod N (eval N M (mul N p q)) (eval N M p * eval N M q).
Proof. rewrite !eval_eqmod. apply eval_raw_mul. Qed.

Lemma eval_neg (p : pdd) : eqmod N (eval N M (neg N p)) (- eval N M p).
Proof.
  rewrite !eval_eqmod. unfold neg. rewrite eval_raw_mul_term.
  apply eqmod_of_eq. rewrite eval_mono_nil. ring.
Qed.

Lemma eval_sub (p q : pdd) :
  eqmod N (eval N M (sub N p q)) (eval N M p - eval N M q).
Proof.
  unfold sub. rewrite eval_add, eval_neg. apply eqmod_of_eq. ring.
Qed.

Lemma eval_mk_val (c : Z) : eqmod N (eval N M (mk_val N c)) c.
Proof.
  rewrite eval_eqmod. unfold mk_val. rewrite eval_raw_mk_term.
  apply eqmod_of_eq. rewrite eval_mono_nil. ring.
Qed.

Lemma eval_mk_var (x : pvar) : eqmod N (eval N M (mk_var N x)) (M x).
Proof.
  rewrite eval_eqmod. unfold mk_var. rewrite eval_raw_mk_term.
  apply eqmod_of_eq. rewrite eval_mono_cons, eval_mono_nil. ring.
Qed.

Lemma val_range (p : pdd) : 0 <= val N p < two_to_N N.
Proof.
  pose proof two_to_N_pos.
  destruct p as [|[[|x m] c] [|t p]]; simpl; try lia; apply mod_range.
Qed.

Lemma eval_is_val (p : pdd) : is_val p = true -> eval N M p = val N p.
Proof.
  destruct p as [|[[|x m] c] [|t p]]; simpl; try discriminate; intros _.
  - unfold eval. simpl. apply Z.mod_0_l, two_to_N_nonzero.
  - unfold eval. cbn [eval_raw]. rewrite eval_mono_nil. f_equal. ring.
Qed.

End Eval.

End PolyFacts.

Section DegreeFacts.

Variable N : nat.
Variable v : pvar.

Lemma degree_cons (m : monomial) (c : Z) (p : pdd) :
  degree v ((m, c) :: p) = Nat.max (var_count v m) (degree v p).
Proof. reflexivity. Qed.

Lemma degree_app (p q : pdd) :
  degree v (p ++ q) = Nat.max (degree v p) (degree v q).
Proof.
  induction p as [|[m c] p IH]; [reflexivity|].
  cbn [app]. rewrite !degree_cons, IH. lia.
Qed.

Lemma degree_mk_term (m : monomial) (c : Z) :
  (degree v (mk_term N m c) <= var_count v m)%nat.
Proof.
  unfold mk_term. destruct (c mod two_to_N N =? 0).
  - cbn. lia.
  - rewrite degree_cons. cbn. lia.
Qed.

Lemma degree_add (p q : pdd) :
  (degree v (add N p q) <= Nat.max (degree v p) (degree v q))%nat.
Proof.
  revert q. induction p as [|[m1 c1] p IHp]; intros q.
  - change (add N [] q) with q. change (degree v []) with O. lia.
  - induction q as [|[m2 c2] q IHq].
    + rewrite add_nil_r. lia.
    + rewrite add_cons. destruct (mono_compare m1 m2) eqn:E.
      * apply mono_compare_eq in E. subst m2.
        rewrite degree_app, !degree_cons.
        pose proof (degree_mk_term m1 (c1 + c2)).
        pose proof (IHp q). lia.
      * rewrite !degree_cons. pose proof (IHp ((m2, c2) :: q)) as H.
        rewrite degree_cons in H. lia.
      * rewrite !degree_cons. rewrite degree_cons in IHq. lia.
Qed.

Lemma var_count_drop (m : monomial) :
  var_count v (drop_var v 1 m) = (var_count v m - 1)%nat.
Proof.
  induction m as [|x r IH]; cbn [var_count drop_var]; [reflexivity|].
  destruct (Nat.eqb x v) eqn:E.
  - destruct r; cbn; lia.
  - cbn [var_count]. rewrite E. exact IH.
Qed.

Lemma factor_cons (m : monomial) (c : Z) (p : pdd) :
  factor N v 1 ((m, c) :: p) =
  if (1 <=? var_count v m)%nat
  then (add N (mk_term N (drop_var v 1 m) c) (fst (factor N v 1 p)),
        snd (factor N v 1 p))
  else (fst (factor N v 1 p),
        add N (mk_term N m c) (snd (factor N v 1 p))).
Proof. reflexivity. Qed.

(** [factor] splits a polynomial as [lc * v + rest]. *)
Lemma factor_sound (M : pvar -> Z) (p : pdd) :
  eqmod N (eval_raw M p)
        (eval_raw M (fst (factor N v 1 p)) * M v
         + eval_raw M (snd (factor N v 1 p))).
Proof.
  induction p as [|[m c] p IH].
  - cbn. reflexivity.
  - rewrite factor_cons. cbn [eval_raw].
    destruct (1 <=? var_count v m)%nat eqn:E; cbn [fst snd].
    + apply Nat.leb_le in E.
      rewrite (eval_raw_add N M), (eval_raw_mk_term N M).
      rewrite (eval_mono_drop M v m E). rewrite IH at 1.
      apply eqmod_of_eq. ring.
    + rewrite (eval_raw_add N M), (eval_raw_mk_term N M). rewrite IH at 1.
      apply eqmod_of_eq. ring.
Qed.

Lemma factor_degree (p : pdd) :
  (degree v p <= 1)%nat ->
  degree v (fst (factor N v 1 p)) = O /\ degree v (snd (factor N v 1 p)) = O.
Proof.
  induction p as [|[m c] p IH]; intros H.
  - cbn. split; reflexivity.
  - rewrite degree_cons in H. destruct IH as [IH1 IH2]; [lia|].
    rewrite factor_cons.
    destruct (1 <=? var_count v m)%nat eqn:E; cbn [fst snd]; split; auto.
    + pose proof (degree_add (mk_term N (drop_var v 1 m) c)
                             (fst (factor N v 1 p))) as Ha.
      pose proof (degree_mk_term (drop_var v 1 m) c) as Hm.
      rewrite var_count_drop in Hm. lia.
    + apply Nat.leb_gt in E.
      pose proof (degree_add (mk_term N m c) (snd (factor N v 1 p))) as Ha.
      pose proof (degree_mk_term m c) as Hm. lia.
Qed.

(** Substituting the assignment does not change the value under a model
    that carries it, as long as [v] does not occur. *)
Lemma subst_mono_cons (sigma : assignment) (x : pvar) (m : monomial) :
  subst_mono sigma (x :: m) =
  match sigma x with
  | Some a => (a * fst (subst_mono sigma m), snd (subst_mono sigma m))
  | None => (fst (subst_mono sigma m), x :: snd (subst_mono sigma m))
  end.
Proof. reflexivity. Qed.

Lemma subst_mono_sound (sigma : assignment) (M : pvar -> Z) (m : monomial) :
  agrees_off v sigma M -> var_count v m = O ->
  eval_mono M m
  = fst (subst_mono sigma m) * eval_mono M (snd (subst_mono sigma m)).
Proof.
  intros Hag. induction m as [|x r IH]; intros Hc.
  - cbn. reflexivity.
  - cbn [var_count] in Hc. destruct (Nat.eqb x v) eqn:E; [discriminate|].
    apply Nat.eqb_neq in E.
    rewrite subst_mono_cons, eval_mono_cons, (IH Hc).
    destruct (sigma x) as [a|] eqn:Hs; cbn [fst snd].
    + rewrite (Hag x a E Hs). ring.
    + rewrite eval_mono_cons. ring.
Qed.

Lemma eval_subst (sigma : assignment) (M : pvar -> Z) (p : pdd) :
  agrees_off v sigma M -> degree v p = O ->
  eval N M (subst N sigma p) = eval N M p.
Proof.
  intros Hag. unfold eval. fold (eqmod N (eval_raw M (subst N sigma p))
                                       (eval_raw M p)).
  induction p as [|[m c] p IH]; intros Hd.
  - reflexivity.
  - rewrite degree_cons in Hd. unfold subst in *. cbn [fold_right fst snd].
    rewrite (eval_raw_add N M), (eval_raw_mk_term N M), IH by lia.
    cbn [eval_raw].
    rewrite (subst_mono_sound sigma M m Hag) by lia.
    apply eqmod_of_eq. ring.
Qed.

End DegreeFacts.

(* ================================================================== *)
(** * Words: arithmetic modulo a positive modulus *)
(* ================================================================== *)

Section Words.

Variable P : Z.

Lemma mod_cases (t : Z) :
  - P <= t < 2 * P ->
  (t < 0 /\ t mod P = t + P) \/
  (0 <= t < P /\ t mod P = t) \/
  (P <= t /\ t mod P = t - P).
Proof.
  intros H.
  destruct (Z_lt_le_dec t 0) as [H0|H0]; [left|right].
  - split; [assumption|]. symmetry. apply (Z.mod_unique t P (-1)); lia.
  - destruct (Z_lt_le_dec t P) as [H1|H1]; [left|right].
    + split; [lia|]. apply Z.mod_small. lia.
    + split; [assumption|]. symmetry. apply (Z.mod_unique t P 1); lia.
Qed.

Ltac mod_split t :=
  let H := fresh "Hm" in
  let E := fresh "Em" in
  destruct (mod_cases t ltac:(lia)) as [[H E]|[[H E]|[H E]]];
  rewrite ?E in *.

Ltac case_cmp :=
  match goal with
  | |- context [(?a <=? ?b)] =>
      let H := fresh "Hle" in destruct (Z.leb_spec a b) as [H|H]
  | |- context [(?a <? ?b)] =>
      let H := fresh "Hlt" in destruct (Z.ltb_spec a b) as [H|H]
  | |- context [(?a =? ?b)] =>
      let H := fresh "Heq" in destruct (Z.eqb_spec a b) as [H|H]
  end.

Ltac cmp_split :=
  repeat case_cmp; cbn [andb orb negb]; try reflexivity; try lia.

(** y in [[l, u)] iff -y in [[1-u, 1-l)]. *)
Lemma in_range_negate (P_pos : 0 < P) (lo hi u : Z) :
  0 <= lo < P -> 0 <= hi < P -> 0 <= u < P ->
  in_range ((1 - hi) mod P) ((1 - lo) mod P) ((- u) mod P)
  = in_range lo hi u.
Proof.
  intros Hl Hh Hu.
  mod_split (1 - hi); mod_split (1 - lo); mod_split (- u);
    unfold in_range; cmp_split.
Qed.

(** Swapping the end points of a non-empty range complements it. *)
Lemma in_range_swap (lo hi u : Z) :
  lo <> hi -> in_range hi lo u = negb (in_range lo hi u).
Proof. intros H. unfold in_range; cmp_split. Qed.

Lemma in_range_unit (n u : Z) :
  1 < P -> 0 <= n < P -> 0 <= u < P ->
  in_range n ((n + 1) mod P) u = (u =? n).
Proof.
  intros H1 Hn Hu. mod_split (n + 1); unfold in_range; cmp_split.
Qed.

Lemma in_range_counit (n u : Z) :
  1 < P -> 0 <= n < P -> 0 <= u < P ->
  in_range ((n + 1) mod P) n u = negb (u =? n).
Proof.
  intros H1 Hn Hu. mod_split (n + 1); unfold in_range; cmp_split.
Qed.

(** e1 + t <= e2: the values of [t] that violate it. *)
Lemma linear1_range (P_pos : 0 < P) (u b1 b2 : Z) :
  0 <= u < P -> 0 <= b1 < P -> 0 <= b2 < P ->
  (b2 + 1) mod P <> 0 ->
  (b2 - b1 + 1) mod P <> (- b1) mod P /\
  in_range ((b2 - b1 + 1) mod P) ((- b1) mod P) u
  = negb ((u + b1) mod P <=? b2).
Proof.
  intros Hu H1 H2 Ht.
  mod_split (b2 + 1); mod_split (b2 - b1 + 1); mod_split (- b1);
    mod_split (u + b1); (split; [lia|]); unfold in_range; cmp_split.
Qed.

Lemma linear1_trivial (P_pos : 0 < P) (u b1 b2 : Z) :
  0 <= u < P -> 0 <= b1 < P -> 0 <= b2 < P ->
  (b2 + 1) mod P = 0 -> ((u + b1) mod P <=? b2) = true.
Proof.
  intros Hu H1 H2 Ht. pose proof (Z.mod_pos_bound (u + b1) P P_pos).
  mod_split (b2 + 1); cmp_split.
Qed.

(** e1 <= e2 + t. *)
Lemma linear2_range (P_pos : 0 < P) (u b1 b2 : Z) :
  0 <= u < P -> 0 <= b1 < P -> 0 <= b2 < P ->
  b1 <> 0 ->
  (- b2) mod P <> (b1 - b2) mod P /\
  in_range ((- b2) mod P) ((b1 - b2) mod P) u
  = negb (b1 <=? (u + b2) mod P).
Proof.
  intros Hu H1 H2 Ht.
  mod_split (- b2); mod_split (b1 - b2);
    mod_split (u + b2); (split; [lia|]); unfold in_range; cmp_split.
Qed.

(** e1 + t <= e2 + t. *)
Lemma linear3_range (P_pos : 0 < P) (u b1 b2 : Z) :
  0 <= u < P -> 0 <= b1 < P -> 0 <= b2 < P ->
  b1 <> b2 ->
  (- b2) mod P <> (- b1) mod P /\
  in_range ((- b2) mod P) ((- b1) mod P) u
  = negb ((u + b1) mod P <=? (u + b2) mod P).
Proof.
  intros Hu H1 H2 Ht.
  mod_split (- b2); mod_split (- b1); mod_split (u + b1);
    mod_split (u + b2); (split; [lia|]); unfold in_range; cmp_split.
Qed.

End Words.

(* ================================================================== *)
(** * The inverse of an odd number *)
(* ================================================================== *)

Section Inverse.

Variable N : nat.

Lemma pow2_divide (i j : nat) :
  (i <= j)%nat -> (2 ^ Z.of_nat i | 2 ^ Z.of_nat j).
Proof.
  intros H. exists (2 ^ Z.of_nat (j - i)).
  rewrite <- Z.pow_add_r by lia. f_equal. lia.
Qed.

Lemma newton_inverse_spec (a : Z) :
  Z.odd a = true ->
  forall n : nat,
    (2 ^ Z.of_nat (Nat.min (S n) N) | 1 - a * newton_inverse N a n).
Proof.
  intros Ha. induction n as [|n IH].
  - cbn [newton_inverse]. destruct N as [|N'].
    + cbn. apply Z.divide_1_l.
    + replace (Nat.min 1 (S N')) with 1%nat by lia.
      apply Z.odd_spec in Ha. destruct Ha as [k Hk].
      exists (- k). change (2 ^ Z.of_nat 1) with 2. lia.
  - cbn [newton_inverse].
    set (x := newton_inverse N a n) in *.
    set (e := Nat.min (S n) N) in *.
    set (e' := Nat.min (S (S n)) N).
    pose proof (Z.div_mod (x * (2 - a * x)) (two_to_N N)
                          (two_to_N_nonzero N)) as Hdm.
    replace (1 - a * ((x * (2 - a * x)) mod two_to_N N))
      with ((1 - a * x) * (1 - a * x)
            + two_to_N N * (a * ((x * (2 - a * x)) / two_to_N N)))
      by (rewrite (Z.mul_comm (two_to_N N)) in Hdm; lia).
    apply Z.divide_add_r.
    + apply Z.divide_trans with (2 ^ Z.of_nat (e + e)).
      * apply pow2_divide. unfold e, e'. lia.
      * rewrite Nat2Z.inj_add, Z.pow_add_r by lia.
        destruct IH as [j Hj]. exists (j * j). rewrite Hj. ring.
    + apply Z.divide_mul_l. unfold two_to_N.
      apply pow2_divide. unfold e'. lia.
Qed.

(** [mult_inverse] succeeds on an odd number and inverts it. *)
Lemma mult_inverse_correct (a : Z) :
  Z.odd a = true ->
  fst (mult_inverse N a) = true /\
  eqmod N (a * snd (mult_inverse N a)) 1 /\
  0 <= snd (mult_inverse N a) < two_to_N N.
Proof.
  intros Ha. unfold mult_inverse. cbn [fst snd]. split; [exact Ha|].
  split; [|apply mod_range].
  rewrite eqmod_mod.
  pose proof (newton_inverse_spec a Ha N) as [k Hk].
  replace (Nat.min (S N) N) with N in Hk by lia.
  fold (two_to_N N) in Hk. unfold eqmod.
  replace (a * newton_inverse N a N) with (1 + (- k) * two_to_N N) by lia.
  apply Z_mod_plus_full.
Qed.

(** The one solution of [a * x + b = 0] for an invertible [a]. *)
Lemma linear_root (a inv b x : Z) :
  eqmod N (a * inv) 1 ->
  (eqmod N (a * x + b) 0 <-> eqmod N x (- b * inv)).
Proof.
  intros Hinv. split; intros H.
  - transitivity ((a * inv) * x).
    + rewrite Hinv. apply eqmod_of_eq. ring.
    + transitivity (inv * ((a * x + b) - b)).
      * apply eqmod_of_eq. ring.
      * rewrite H. apply eqmod_of_eq. ring.
  - rewrite H. transitivity (- b * (a * inv) + b).
    + apply eqmod_of_eq. ring.
    + rewrite Hinv. apply eqmod_of_eq. ring.
Qed.

Lemma odd_modulus (a : Z) :
  Z.odd a = true -> 0 <= a < two_to_N N -> 1 < two_to_N N.
Proof.
  intros Ha Hr. destruct (Z.eq_dec a 0) as [->|Hn]; [discriminate|]. lia.
Qed.

(** ** Values *)

Lemma is_val_cases (p : pdd) :
  is_val p = true -> p = [] \/ exists c, p = [([], c)].
Proof.
  destruct p as [|[[|x m] c] [|t p]]; cbn; try discriminate; intros _.
  - left. reflexivity.
  - right. exists c. reflexivity.
Qed.

Lemma is_val_mk_term (c : Z) : is_val (mk_term N [] c) = true.
Proof. unfold mk_term. destruct (c mod two_to_N N =? 0); reflexivity. Qed.

Lemma is_val_mk_val (c : Z) : is_val (mk_val N c) = true.
Proof. apply is_val_mk_term. Qed.

Lemma is_val_add (p q : pdd) :
  is_val p = true -> is_val q = true -> is_val (add N p q) = true.
Proof.
  intros Hp Hq.
  destruct (is_val_cases p Hp) as [->|[c1 ->]]; [exact Hq|].
  destruct (is_val_cases q Hq) as [->|[c2 ->]]; [reflexivity|].
  rewrite add_cons. cbn [mono_compare add]. rewrite app_nil_r.
  apply is_val_mk_term.
Qed.

Lemma is_val_neg (p : pdd) : is_val p = true -> is_val (neg N p) = true.
Proof.
  intros Hp. destruct (is_val_cases p Hp) as [->|[c ->]]; [reflexivity|].
  unfold neg, mul_term. cbn [fold_right fst snd mono_mul].
  rewrite add_nil_r. apply is_val_mk_term.
Qed.

Lemma is_val_sub (p q : pdd) :
  is_val p = true -> is_val q = true -> is_val (sub N p q) = true.
Proof. intros Hp Hq. apply is_val_add; [assumption|apply is_val_neg, Hq]. Qed.

Lemma val_of_eval (M : pvar -> Z) (p : pdd) (z : Z) :
  is_val p = true -> eqmod N (eval N M p) z -> val N p = z mod two_to_N N.
Proof.
  intros Hv H. rewrite <- (eval_is_val N M p Hv).
  unfold eqmod in H. rewrite <- H. symmetry. apply Z.mod_small, eval_range.
Qed.

Lemma val_add (p q : pdd) :
  is_val p = true -> is_val q = true ->
  val N (add N p q) = (val N p + val N q) mod two_to_N N.
Proof.
  intros Hp Hq. apply (val_of_eval (fun _ => 0)).
  - apply is_val_add; assumption.
  - rewrite eval_add, !eval_is_val by assumption. reflexivity.
Qed.

Lemma val_neg (p : pdd) :
  is_val p = true -> val N (neg N p) = (- val N p) mod two_to_N N.
Proof.
  intros Hp. apply (val_of_eval (fun _ => 0)).
  - apply is_val_neg; assumption.
  - rewrite eval_neg, !eval_is_val by assumption. reflexivity.
Qed.

Lemma val_sub (p q : pdd) :
  is_val p = true -> is_val q = true ->
  val N (sub N p q) = (val N p - val N q) mod two_to_N N.
Proof.
  intros Hp Hq. apply (val_of_eval (fun _ => 0)).
  - apply is_val_sub; assumption.
  - rewrite eval_sub, !eval_is_val by assumption. reflexivity.
Qed.

Lemma val_mk_val (c : Z) : val N (mk_val N c) = c mod two_to_N N.
Proof.
  apply (val_of_eval (fun _ => 0)); [apply is_val_mk_val|apply eval_mk_val].
Qed.

End Inverse.

(* ================================================================== *)
(** * Linear decomposition *)
(* ================================================================== *)

Section Decompose.

Variable N : nat.
Variable s : core.
Variable v : pvar.

Lemma zero_nil : zero N = [].
Proof.
  unfold zero, mk_val, mk_term.
  rewrite Z.mod_0_l by apply two_to_N_nonzero. reflexivity.
Qed.

Lemma eval_factor (M : pvar -> Z) (p : pdd) :
  eqmod N (eval N M p)
        (eval N M (fst (factor N v 1 p)) * M v
         + eval N M (snd (factor N v 1 p))).
Proof. rewrite !eval_eqmod. apply factor_sound. Qed.

(** The split of [p] that [linear_decompose] starts from. *)
Lemma decompose_split (p : pdd) :
  (degree v p <= 1)%nat ->
  forall qe,
    qe = match degree v p with
         | O => (zero N, p)
         | S _ => factor N v 1 p
         end ->
    degree v (fst qe) = O /\ degree v (snd qe) = O /\
    forall M, eqmod N (eval N M p)
                    (eval N M (fst qe) * M v + eval N M (snd qe)).
Proof.
  intros Hd qe ->. destruct (degree v p) as [|d] eqn:E.
  - cbn [fst snd]. rewrite zero_nil.
    split; [reflexivity|]. split; [exact E|].
    intros M. apply eqmod_of_eq. unfold eval at 2. cbn [eval_raw].
    rewrite Z.mod_0_l by apply two_to_N_nonzero. ring.
  - destruct (factor_degree N v p) as [H1 H2]; [lia|].
    repeat split; auto. intros M. apply eval_factor.
Qed.

Lemma holds_core_eq (M : pvar -> Z) (p q : pdd) :
  holds N M (core_eq N p q) = true <-> eval N M p = eval N M q.
Proof.
  unfold holds, core_eq, cs_eq, cs_ule.
  cbn [sign body eval_constraint xorb].
  rewrite zero_nil. change (eval N M []) with (0 mod two_to_N N).
  rewrite Z.mod_0_l by apply two_to_N_nonzero.
  pose proof (eval_range N M (sub N p q)) as Hr.
  pose proof (eval_range N M p) as Hp.
  pose proof (eval_range N M q) as Hq.
  rewrite Z.leb_le. split; intros H.
  - apply (eqmod_small N); try assumption.
    assert (H0 : eval N M (sub N p q) = 0) by lia.
    pose proof (eval_sub N M p q) as Hs. rewrite H0 in Hs.
    transitivity ((eval N M p - eval N M q) + eval N M q).
    + apply eqmod_of_eq. ring.
    + rewrite <- Hs. apply eqmod_of_eq. ring.
  - assert (Hs : eqmod N (eval N M (sub N p q)) 0).
    { rewrite eval_sub, H. apply eqmod_of_eq. ring. }
    assert (H0 : eval N M (sub N p q) = 0).
    { apply (eqmod_small N);
        [assumption|pose proof (two_to_N_pos N); lia|exact Hs]. }
    lia.
Qed.

(** The tuple does not depend on the side conditions handed in, and the
    list handed back extends the one handed in. *)
Lemma linear_decompose_side (p : pdd) (side : list signed_constraint) :
  linear_decompose N s v p side =
  (fst (linear_decompose N s v p []),
   side ++ snd (linear_decompose N s v p [])).
Proof.
  unfold linear_decompose.
  destruct (degree v p) as [|[|d]];
    cbn [fst snd];
    repeat match goal with
      | |- context [if ?b then _ else _] => destruct b
      end; cbn [fst snd app]; rewrite ?app_nil_r; reflexivity.
Qed.

(** The shape of a successful decomposition. *)
Lemma linear_decompose_inv (p : pdd) (ok : bool) (a : Z) (e b : pdd)
      (emitted : list signed_constraint) :
  linear_decompose N s v p [] = ((ok, a, e, b), emitted) ->
  ok = true ->
  exists q,
    (degree v p <= 1)%nat /\
    (q, e) = (match degree v p with
              | O => (zero N, p)
              | S _ => factor N v 1 p
              end) /\
    b = core_subst N s e /\ is_val b = true /\
    ((is_val q = true /\ a = val N q /\ emitted = []) \/
     (is_val q = false /\ is_val (core_subst N s q) = true /\
      a = val N (core_subst N s q) /\
      emitted = [core_eq N q (core_subst N s q)])).
Proof.
  unfold linear_decompose. intros H Hok.
  destruct (degree v p) as [|[|d]] eqn:Hd;
    [| |inversion H; subst; discriminate].
  - cbn [fst snd] in H. exists (zero N).
    destruct (is_val (zero N)) eqn:Hz; cbn [negb] in H.
    + inversion H; subst. repeat split; auto.
    + destruct (is_val (core_subst N s (zero N))) eqn:Hr; cbn [negb] in H;
        inversion H; subst; [|discriminate].
      repeat split; auto; right; repeat split; auto.
  - exists (fst (factor N v 1 p)).
    destruct (is_val (fst (factor N v 1 p))) eqn:Hz; cbn [negb] in H.
    + inversion H; subst.
      repeat split; auto; try (symmetry; apply surjective_pairing).
    + destruct (is_val (core_subst N s (fst (factor N v 1 p)))) eqn:Hr;
        cbn [negb] in H; inversion H; subst; [|discriminate].
      repeat split; auto; try (symmetry; apply surjective_pairing);
        right; repeat split; auto.
Qed.

(** What a successful decomposition means, in terms of the side
    conditions it emitted. *)
Lemma linear_decompose_sound (p : pdd) (ok : bool) (a : Z) (e b : pdd)
      (emitted : list signed_constraint) :
  linear_decompose N s v p [] = ((ok, a, e, b), emitted) ->
  ok = true ->
  forall M, Forall (fun sc => holds N M sc = true) emitted ->
            eqmod N (eval N M p) (a * M v + eval N M e).
Proof.
  intros H Hok M Hside.
  destruct (linear_decompose_inv p ok a e b emitted H Hok)
    as (q & Hd & Hqe & Hb & Hbv & Hcase).
  destruct (decompose_split p Hd _ Hqe) as (_ & _ & Hsp).
  specialize (Hsp M). cbn [fst snd] in Hsp. rewrite Hsp.
  destruct Hcase as [(Hz & -> & _)|(Hz & Hr & -> & ->)].
  - rewrite (eval_is_val N M q Hz). reflexivity.
  - apply Forall_inv in Hside. apply holds_core_eq in Hside.
    rewrite Hside, (eval_is_val N M _ Hr). reflexivity.
Qed.

(** Under a model that carries the current assignment, a successful
    decomposition gives the value of [p] as [a * v + b]. *)
Lemma linear_decompose_agrees (p : pdd) (ok : bool) (a : Z) (e b : pdd)
      (emitted : list signed_constraint) (M : pvar -> Z) :
  linear_decompose N s v p [] = ((ok, a, e, b), emitted) ->
  ok = true ->
  agrees_off v (assigned s) M ->
  is_val b = true /\ 0 <= a < two_to_N N /\
  eval N M e = val N b /\
  Forall (fun sc => holds N M sc = true) emitted /\
  eval N M p = (a * M v + val N b) mod two_to_N N.
Proof.
  intros H Hok Hag.
  destruct (linear_decompose_inv p ok a e b emitted H Hok)
    as (q & Hd & Hqe & Hb & Hbv & Hcase).
  destruct (decompose_split p Hd _ Hqe) as (Hq & He & _).
  cbn [fst snd] in Hq, He.
  assert (Hev : eval N M e = val N b).
  { rewrite <- (eval_is_val N M b Hbv), Hb. symmetry.
    apply (eval_subst N v (assigned s) M e Hag He). }
  assert (Hem : Forall (fun sc => holds N M sc = true) emitted).
  { destruct Hcase as [(_ & _ & ->)|(_ & _ & _ & ->)]; constructor.
    - apply holds_core_eq. symmetry.
      apply (eval_subst N v (assigned s) M q Hag Hq).
    - constructor. }
  assert (Ha : 0 <= a < two_to_N N).
  { destruct Hcase as [(_ & -> & _)|(_ & _ & -> & _)]; apply val_range. }
  repeat split; try assumption; try lia.
  pose proof (linear_decompose_sound p ok a e b emitted H Hok M Hem) as Hp.
  rewrite Hev in Hp. apply (eqmod_small N).
  - apply eval_range.
  - apply mod_range.
  - rewrite Hp. symmetry. apply eqmod_mod.
Qed.

End Decompose.

(* ================================================================== *)
(** * Properties of the linear decomposition and of the normalization *)
(* ================================================================== *)

(** C7. Decomposition round trip: whenever [linear_decompose] succeeds on
    [p] for the variable [v], the polynomial has degree at most one in [v],
    at most one side condition was emitted (the equality of a non-constant
    coefficient with its value), and under every model in which the emitted
    side condition holds the returned coefficient [a] and remainder [e]
    give back [p]: [a * v + e] and [p] have the same value modulo [2^N]. *)
Theorem linear_decompose_round_trip
        (N : nat) (s : core) (v : pvar) (p : pdd)
        (side : list signed_constraint) (a : Z) (e b : pdd)
        (side' : list signed_constraint) :
  linear_decompose N s v p side = ((true, a, e, b), side') ->
  (degree v p <= 1)%nat /\
  exists emitted,
    side' = side ++ emitted /\ (length emitted <= 1)%nat /\
    forall M : pvar -> Z,
      Forall (fun sc => holds N M sc = true) emitted ->
      eval N M p = (a * M v + eval N M e) mod two_to_N N.
Proof.
  intros H. rewrite linear_decompose_side in H.
  destruct (linear_decompose N s v p []) as [[[[ok a0] e0] b0] emitted] eqn:E.
  cbn [fst snd] in H. inversion H; subst; clear H.
  destruct (linear_decompose_inv N s v p true a e b emitted E eq_refl)
    as (q & Hd & _ & _ & _ & Hcase).
  split; [exact Hd|]. exists emitted. split; [reflexivity|]. split.
  - destruct Hcase as [(_ & _ & ->)|(_ & _ & _ & ->)]; cbn; lia.
  - intros M HM.
    pose proof (linear_decompose_sound N s v p true a e b emitted E eq_refl
                                       M HM) as Hp.
    apply (eqmod_small N).
    + apply eval_range.
    + apply mod_range.
    + rewrite Hp. symmetry. apply eqmod_mod.
Qed.

(** C6. Negation-normalization is an involution: when the coefficient [k]
    exceeds half the modulus, [to_interval] replaces [k] by [2^N - k] and
    the range [[lo, hi)] by [[1 - hi, 1 - lo)]; doing the same step once
    more gives back the coefficient and the values of both end points, and
    the symbolic end points get back their values under every model. *)
Theorem negate_normalize_involutive
        (N : nat) (c : signed_constraint) (k lo_val hi_val : Z) (lo hi : pdd) :
  two_to_N N < 2 * k ->
  0 <= lo_val < two_to_N N -> 0 <= hi_val < two_to_N N ->
  to_interval N c false k lo_val lo hi_val hi =
    (let '(k', lo_val', hi_val') := negate_normalize N (k, lo_val, hi_val) in
     let '(lo', hi') := negate_endpoints N (lo, hi) in
     (if is_positive c then proper lo' lo_val' hi' hi_val'
      else proper hi' hi_val' lo' lo_val', k')) /\
  negate_normalize N (negate_normalize N (k, lo_val, hi_val))
  = (k, lo_val, hi_val) /\
  forall M : pvar -> Z,
    eval N M (fst (negate_endpoints N (negate_endpoints N (lo, hi))))
    = eval N M lo /\
    eval N M (snd (negate_endpoints N (negate_endpoints N (lo, hi))))
    = eval N M hi.
Proof.
  intros Hk Hlo Hhi. pose proof (two_to_N_pos N) as HP. split; [|split].
  - unfold to_interval, negate_normalize, negate_endpoints. cbn [fst snd].
    apply Z.ltb_lt in Hk. rewrite Hk. destruct (is_positive c); reflexivity.
  - unfold negate_normalize. f_equal; [f_equal|].
    + ring.
    + apply (eqmod_small N); [apply mod_range|assumption|].
      rewrite eqmod_mod. rewrite eqmod_mod. apply eqmod_of_eq. ring.
    + apply (eqmod_small N); [apply mod_range|assumption|].
      rewrite eqmod_mod. rewrite eqmod_mod. apply eqmod_of_eq. ring.
  - intros M. unfold negate_endpoints. cbn [fst snd]. split.
    + apply (eqmod_small N); try apply eval_range.
      rewrite !eval_sub. apply eqmod_of_eq. ring.
    + apply (eqmod_small N); try apply eval_range.
      rewrite !eval_sub. apply eqmod_of_eq. ring.
Qed.

(* ================================================================== *)
(** * Properties of the saturation rules *)
(* ================================================================== *)

Lemma mono_eqb_refl (m : monomial) : mono_eqb m m = true.
Proof.
  induction m as [|x r IH]; [reflexivity|].
  cbn [mono_eqb]. rewrite Nat.eqb_refl, IH. reflexivity.
Qed.

Lemma pdd_eqb_refl (p : pdd) : pdd_eqb p p = true.
Proof.
  induction p as [|[m c] p IH]; [reflexivity|].
  cbn [pdd_eqb]. rewrite mono_eqb_refl, Z.eqb_refl, IH. reflexivity.
Qed.

(** The test that [propagate_infer_equality] runs over the unsat core
    accepts exactly the positive mirror inequality. *)
Lemma mirror_test (i : inequality) (sc : signed_constraint) :
  is_ule sc && negb (sign sc)
  && pdd_eqb (ule_lhs sc) (ineq_rhs i)
  && pdd_eqb (ule_rhs sc) (ineq_lhs i) = true
  <-> sc = cs_ule (ineq_rhs i) (ineq_lhs i).
Proof.
  split.
  - intros H. destruct sc as [sg [l r|p q|t]];
      unfold is_ule, ule_lhs, ule_rhs in H; cbn [body sign] in H;
      try discriminate.
    destruct sg; cbn [negb andb] in H; try discriminate.
    apply andb_true_iff in H. destruct H as [H1 H2].
    apply pdd_eqb_eq in H1, H2. subst. reflexivity.
  - intros ->. unfold cs_ule, is_ule, ule_lhs, ule_rhs. cbn [body sign negb].
    rewrite !pdd_eqb_refl. reflexivity.
Qed.

(** C8. Equality inference: for a non-strict inequality [p <= q] in which
    the variable occurs, if the unsat core holds a constraint that is the
    positive inequality [q <= p], then [propagate_infer_equality] hands the
    equality [p - q = 0] to the core, with the mirror constraint (the first
    such member of the unsat core) and the inequality itself as premises,
    and nothing else. *)
Theorem propagate_infer_equality_mirror
        (N : nat) (s : core) (x : pvar) (i : inequality) (st : saturation)
        (id : constraint_id) :
  is_strict i = false ->
  (degree x (ineq_lhs i) <> O \/ degree x (ineq_rhs i) <> O) ->
  In id (unsat_core s) ->
  get_constraint s id = cs_ule (ineq_rhs i) (ineq_lhs i) ->
  exists id0,
    In id0 (unsat_core s) /\
    get_constraint s id0 = cs_ule (ineq_rhs i) (ineq_lhs i) /\
    propagations (propagate_infer_equality N s x i st)
    = propagations st
        ++ [(core_eq N (ineq_lhs i) (ineq_rhs i), [id0; ineq_id i])] /\
    clauses (propagate_infer_equality N s x i st) = clauses st.
Proof.
  intros Hstrict Hdeg Hin Hid. unfold propagate_infer_equality.
  rewrite Hstrict.
  assert (Hd : ((degree x (ineq_lhs i) =? 0)%nat
                && (degree x (ineq_rhs i) =? 0)%nat) = false).
  { apply andb_false_iff.
    destruct Hdeg as [H|H]; [left|right]; apply Nat.eqb_neq; exact H. }
  rewrite Hd. unfold match_core.
  destruct (find _ (unsat_core s)) as [id0|] eqn:Hf.
  - apply find_some in Hf. destruct Hf as [Hin0 Ht].
    apply mirror_test in Ht. exists id0. repeat split; assumption.
  - exfalso. pose proof (find_none _ _ Hf id Hin) as Hn. cbv beta in Hn.
    rewrite (proj2 (mirror_test i (get_constraint s id)) Hid) in Hn.
    discriminate.
Qed.

(** C10. The clause learned by [try_ugt_x]: when the inequality matches
    [y*x ~ z*x] for the pivot [x], a non-strict inequality yields the clause
    [overflow(x,y) \/ x = 0 \/ y <= z], which carries the disjunct [x = 0],
    while a strict one yields [overflow(x,y) \/ y < z], without it.  Both
    are handed over as non-redundant, under the dependency of the
    inequality. *)
Theorem try_ugt_x_clause
        (N : nat) (is_xY_l_xZ : inequality -> pvar -> option (pdd * pdd))
        (core_add_clause_new : list core_item -> bool)
        (v : pvar) (i : inequality) (st : saturation) (y z : pdd) :
  is_xY_l_xZ i v = Some (y, z) ->
  exists name,
    clauses (try_ugt_x N is_xY_l_xZ core_add_clause_new v i st)
    = clauses st
        ++ [(name,
             if is_strict i
             then [of_dep (ineq_dep i);
                   of_sc (cs_umul_ovfl (mk_var N v) y);
                   of_sc (cs_ult y z)]
             else [of_dep (ineq_dep i);
                   of_sc (cs_umul_ovfl (mk_var N v) y);
                   of_sc (cs_eq N (mk_var N v));
                   of_sc (cs_ule y z)],
             false)] /\
    propagations (try_ugt_x N is_xY_l_xZ core_add_clause_new v i st)
    = propagations st.
Proof.
  intros Hm. unfold try_ugt_x. rewrite Hm. unfold add_clause.
  destruct (is_strict i).
  - eexists. destruct (core_add_clause_new _); cbn; split; reflexivity.
  - eexists. destruct (core_add_clause_new _); cbn; split; reflexivity.
Qed.

(* ================================================================== *)
(** * Facts about the patterns *)
(* ================================================================== *)

Section PatternFacts.

Variable N : nat.
Variable c : signed_constraint.
Variables a1 a2 : Z.
Variables b1 e1 b2 e2 : pdd.

Ltac split_guard :=
  match goal with
  | |- context [if ?g then _ else (false, _)] => destruct g eqn:?
  end.

Lemma match_zero_fst (fi : fi_record) :
  fst (match_zero N c a1 b1 e1 a2 b2 e2 fi)
  = Z.odd a1 && (a2 =? 0) && is_zero N b2.
Proof.
  unfold match_zero. split_guard; [|reflexivity].
  destruct (is_positive c); reflexivity.
Qed.

Lemma match_max_fst (fi : fi_record) :
  fst (match_max N c a1 b1 e1 a2 b2 e2 fi)
  = (a1 =? 0) && is_max N b1 && Z.odd a2.
Proof.
  unfold match_max. split_guard; [|reflexivity].
  destruct (is_positive c); reflexivity.
Qed.

Lemma match_linear1_fst (fi : fi_record) :
  fst (match_linear1 N c a1 b1 e1 a2 b2 e2 fi)
  = (a2 =? 0) && negb (a1 =? 0).
Proof. unfold match_linear1. split_guard; reflexivity. Qed.

Lemma match_linear2_fst (fi : fi_record) :
  fst (match_linear2 N c a1 b1 e1 a2 b2 e2 fi)
  = (a1 =? 0) && negb (a2 =? 0).
Proof. unfold match_linear2. split_guard; reflexivity. Qed.

Lemma match_linear3_fst (fi : fi_record) :
  fst (match_linear3 N c a1 b1 e1 a2 b2 e2 fi)
  = (a1 =? a2) && negb (a1 =? 0).
Proof. unfold match_linear3. split_guard; reflexivity. Qed.

Lemma match_linear4_fst (fi : fi_record) :
  fst (match_linear4 N c a1 b1 e1 a2 b2 e2 fi)
  = negb (a1 =? a2) && negb (a1 =? 0) && negb (a2 =? 0).
Proof. unfold match_linear4. split_guard; reflexivity. Qed.

(** A pattern that does not match leaves the record as it found it. *)
Lemma ule_pattern_fail (m : pattern) (fi : fi_record) :
  In m (ule_patterns N) ->
  fst (m c a1 b1 e1 a2 b2 e2 fi) = false ->
  snd (m c a1 b1 e1 a2 b2 e2 fi) = fi.
Proof.
  intros Hin.
  repeat (destruct Hin as [<-|Hin]); try contradiction;
    [ rewrite match_zero_fst; unfold match_zero
    | rewrite match_max_fst; unfold match_max
    | rewrite match_linear1_fst; unfold match_linear1
    | rewrite match_linear2_fst; unfold match_linear2
    | rewrite match_linear3_fst; unfold match_linear3
    | rewrite match_linear4_fst; unfold match_linear4 ];
    intros ->; reflexivity.
Qed.

(** One of the four linear patterns applies as soon as the variable
    occurs on a side. *)
Lemma linear_patterns_exhaustive (fi1 fi2 fi3 fi4 : fi_record) :
  (a1 =? 0) && (a2 =? 0) = false ->
  fst (match_linear1 N c a1 b1 e1 a2 b2 e2 fi1)
  || fst (match_linear2 N c a1 b1 e1 a2 b2 e2 fi2)
  || fst (match_linear3 N c a1 b1 e1 a2 b2 e2 fi3)
  || fst (match_linear4 N c a1 b1 e1 a2 b2 e2 fi4) = true.
Proof.
  rewrite match_linear1_fst, match_linear2_fst, match_linear3_fst,
    match_linear4_fst.
  destruct (Z.eqb_spec a1 0), (Z.eqb_spec a2 0), (Z.eqb_spec a1 a2);
    cbn; intros H; try reflexivity; try discriminate; lia.
Qed.

Lemma try_pattern_step (m : pattern)
      (k : fi_record -> bool * fi_record) (fi : fi_record) :
  In m (ule_patterns N) ->
  try_pattern m c a1 b1 e1 a2 b2 e2 k fi
  = if fst (m c a1 b1 e1 a2 b2 e2 fi)
    then (true, snd (m c a1 b1 e1 a2 b2 e2 fi))
    else k fi.
Proof.
  intros Hin. unfold try_pattern.
  destruct (fst (m c a1 b1 e1 a2 b2 e2 fi)) eqn:E; [reflexivity|].
  rewrite (ule_pattern_fail m fi Hin E). reflexivity.
Qed.

(** The chain of trials of [get_interval_ule], one step at a time. *)
Lemma pattern_chain (k : fi_record -> bool * fi_record) (fi : fi_record) :
  try_pattern (match_zero N) c a1 b1 e1 a2 b2 e2
    (try_pattern (match_max N) c a1 b1 e1 a2 b2 e2
    (try_pattern (match_linear1 N) c a1 b1 e1 a2 b2 e2
    (try_pattern (match_linear2 N) c a1 b1 e1 a2 b2 e2
    (try_pattern (match_linear3 N) c a1 b1 e1 a2 b2 e2
    (try_pattern (match_linear4 N) c a1 b1 e1 a2 b2 e2 k))))) fi
  = if fst (first_match (ule_patterns N) c a1 b1 e1 a2 b2 e2 fi)
    then first_match (ule_patterns N) c a1 b1 e1 a2 b2 e2 fi
    else k fi.
Proof.
  rewrite !try_pattern_step by (cbn; tauto).
  unfold ule_patterns. cbn [first_match].
  destruct (fst (match_zero N c a1 b1 e1 a2 b2 e2 fi)); [reflexivity|].
  destruct (fst (match_max N c a1 b1 e1 a2 b2 e2 fi)); [reflexivity|].
  destruct (fst (match_linear1 N c a1 b1 e1 a2 b2 e2 fi)); [reflexivity|].
  destruct (fst (match_linear2 N c a1 b1 e1 a2 b2 e2 fi)); [reflexivity|].
  destruct (fst (match_linear3 N c a1 b1 e1 a2 b2 e2 fi)); [reflexivity|].
  destruct (fst (match_linear4 N c a1 b1 e1 a2 b2 e2 fi)); reflexivity.
Qed.

(** Once a pattern matches and none before it does, it decides, whatever
    stands behind it. *)
Lemma first_match_decides (pre : list pattern) (m : pattern)
      (later : list pattern) (fi : fi_record) :
  Forall (fun m' => fst (m' c a1 b1 e1 a2 b2 e2 fi) = false) pre ->
  fst (m c a1 b1 e1 a2 b2 e2 fi) = true ->
  first_match (pre ++ m :: later) c a1 b1 e1 a2 b2 e2 fi
  = (true, snd (m c a1 b1 e1 a2 b2 e2 fi)).
Proof.
  intros Hpre Hm. induction Hpre as [|m' pre Hm' _ IH];
    cbn [first_match app].
  - rewrite Hm. reflexivity.
  - rewrite Hm'. exact IH.
Qed.

(** What "the first pattern that matches wins" says of [first_match]. *)
Lemma first_match_spec (ps : list pattern) (fi : fi_record) :
  fst (first_match ps c a1 b1 e1 a2 b2 e2 fi) = true ->
  exists pre m post,
    ps = pre ++ m :: post /\
    Forall (fun m' => fst (m' c a1 b1 e1 a2 b2 e2 fi) = false) pre /\
    fst (m c a1 b1 e1 a2 b2 e2 fi) = true /\
    first_match ps c a1 b1 e1 a2 b2 e2 fi
    = (true, snd (m c a1 b1 e1 a2 b2 e2 fi)).
Proof.
  induction ps as [|m ps IH]; cbn [first_match]; [discriminate|].
  destruct (fst (m c a1 b1 e1 a2 b2 e2 fi)) eqn:E.
  - intros _. exists [], m, ps. repeat split; auto.
  - intros H. destruct (IH H) as (pre & m0 & post & -> & Hpre & Hm & Hr).
    exists (m :: pre), m0, post. repeat split; auto.
Qed.

Lemma ule_patterns_match (fi : fi_record) :
  (a1 =? 0) && (a2 =? 0) = false ->
  fst (first_match (ule_patterns N) c a1 b1 e1 a2 b2 e2 fi) = true.
Proof.
  intros H. pose proof (linear_patterns_exhaustive fi fi fi fi H) as Hex.
  unfold ule_patterns. cbn [first_match].
  destruct (fst (match_zero N c a1 b1 e1 a2 b2 e2 fi)); [reflexivity|].
  destruct (fst (match_max N c a1 b1 e1 a2 b2 e2 fi)); [reflexivity|].
  destruct (fst (match_linear1 N c a1 b1 e1 a2 b2 e2 fi)); [reflexivity|].
  destruct (fst (match_linear2 N c a1 b1 e1 a2 b2 e2 fi)); [reflexivity|].
  destruct (fst (match_linear3 N c a1 b1 e1 a2 b2 e2 fi)); [reflexivity|].
  destruct (fst (match_linear4 N c a1 b1 e1 a2 b2 e2 fi)); [reflexivity|].
  discriminate.
Qed.

End PatternFacts.

(* ================================================================== *)
(** * The matcher, path by path *)
(* ================================================================== *)

Lemma firstn_length_app {A : Type} (l r : list A) :
  firstn (length l) (l ++ r) = l.
Proof.
  induction l as [|x l IH]; cbn; [reflexivity|]. rewrite IH. reflexivity.
Qed.

Section MatcherPaths.

Variable N : nat.
Variable s : core.
Variable c : signed_constraint.
Variable v : pvar.

(** [get_interval_ule], with the two decompositions named. *)
Lemma get_interval_ule_eq (fi : fi_record)
      (ok1 ok2 : bool) (a1 a2 : Z) (e1 b1 e2 b2 : pdd)
      (em1 em2 : list signed_constraint) :
  linear_decompose N s v (ule_lhs c) [] = ((ok1, a1, e1, b1), em1) ->
  linear_decompose N s v (ule_rhs c) [] = ((ok2, a2, e2, b2), em2) ->
  get_interval_ule N s c v fi
  = if negb ok1 || negb ok2 || ((a1 =? 0) && (a2 =? 0))
    then (false, set_side_cond (side_cond fi) (push_src c (set_coeff 1 fi)))
    else first_match (ule_patterns N) c a1 b1 e1 a2 b2 e2
           (set_side_cond (side_cond fi ++ em1 ++ em2)
                          (push_src c (set_coeff 1 fi))).
Proof.
  intros H1 H2. unfold get_interval_ule.
  cbn [side_cond push_src set_coeff].
  rewrite (linear_decompose_side N s v (ule_lhs c)), H1. cbn [fst snd].
  rewrite (linear_decompose_side N s v (ule_rhs c)), H2. cbn [fst snd].
  cbn [andb]. rewrite <- app_assoc.
  destruct (negb ok1 || negb ok2 || ((a1 =? 0) && (a2 =? 0))) eqn:G.
  - unfold backtrack, shrink, set_side_cond, push_src, set_coeff.
    cbn [side_cond interval src deps coeff bit_width].
    rewrite firstn_length_app. reflexivity.
  - rewrite pattern_chain.
    apply orb_false_iff in G. destruct G as [_ G].
    rewrite (ule_patterns_match N c a1 a2 b1 e1 b2 e2 _ G).
    unfold backtrack. symmetry. apply surjective_pairing.
Qed.

(** A failure of the inequality path leaves the side conditions and the
    interval alone. *)
Lemma get_interval_ule_fail (fi fi' : fi_record) :
  get_interval_ule N s c v fi = (false, fi') ->
  fi' = set_side_cond (side_cond fi) (push_src c (set_coeff 1 fi)).
Proof.
  destruct (linear_decompose N s v (ule_lhs c) [])
    as [[[[ok1 a1] e1] b1] em1] eqn:H1.
  destruct (linear_decompose N s v (ule_rhs c) [])
    as [[[[ok2 a2] e2] b2] em2] eqn:H2.
  rewrite (get_interval_ule_eq fi _ _ _ _ _ _ _ _ _ _ H1 H2).
  destruct (negb ok1 || negb ok2 || ((a1 =? 0) && (a2 =? 0))) eqn:G.
  - intros H. inversion H. reflexivity.
  - apply orb_false_iff in G. destruct G as [_ G]. intros H.
    pose proof (ule_patterns_match N c a1 a2 b1 e1 b2 e2
                  (set_side_cond (side_cond fi ++ em1 ++ em2)
                                 (push_src c (set_coeff 1 fi))) G) as Hm.
    rewrite H in Hm. discriminate.
Qed.

(** A failure of the overflow path does the same. *)
Lemma get_interval_umul_ovfl_fail (fi fi' : fi_record) :
  get_interval_umul_ovfl N s c v fi = (false, fi') ->
  fi' = set_side_cond (side_cond fi) (push_src c (set_coeff 1 fi)).
Proof.
  unfold get_interval_umul_ovfl. cbn [side_cond push_src set_coeff].
  rewrite (linear_decompose_side N s v (ovfl_p c)).
  destruct (linear_decompose N s v (ovfl_p c) [])
    as [[[[ok1 a1] e1] b1] em1].
  cbn [fst snd].
  rewrite (linear_decompose_side N s v (ovfl_q c)).
  destruct (linear_decompose N s v (ovfl_q c) [])
    as [[[[ok2 a2] e2] b2] em2].
  cbn [fst snd]. rewrite <- app_assoc. intros H.
  assert (Hback :
    backtrack false (length (side_cond fi))
      (set_side_cond (side_cond fi ++ em1 ++ em2)
         (push_src c (set_coeff 1 fi)))
    = set_side_cond (side_cond fi) (push_src c (set_coeff 1 fi))).
  { unfold backtrack, shrink, set_side_cond, push_src, set_coeff.
    cbn [side_cond interval src deps coeff bit_width].
    rewrite firstn_length_app. reflexivity. }
  repeat match type of H with
    | context [if ?b then _ else _] => destruct b; cbv beta iota zeta in H
    end;
    try discriminate; inversion H; subst; exact Hback.
Qed.

End MatcherPaths.

(** C5 (as the code has it). Pattern priority on the inequality path: once
    both sides decompose and the variable occurs on a side, the matcher
    tries six patterns, in the order [match_zero], [match_max],
    [match_linear1], [match_linear2], [match_linear3], [match_linear4].
    One of them matches; the answer is the answer of the first that does,
    every pattern before it was tried and did not match, and no pattern
    behind it is consulted: whatever stands there, the answer is the
    same. *)
Theorem ule_pattern_priority
        (N : nat) (s : core) (c : signed_constraint) (v : pvar)
        (fi : fi_record) (a1 a2 : Z) (e1 b1 e2 b2 : pdd)
        (side1 side2 : list signed_constraint) :
  linear_decompose N s v (ule_lhs c) (side_cond fi)
  = ((true, a1, e1, b1), side1) ->
  linear_decompose N s v (ule_rhs c) side1 = ((true, a2, e2, b2), side2) ->
  a1 <> 0 \/ a2 <> 0 ->
  let fi2 := set_side_cond side2 (push_src c (set_coeff 1 fi)) in
  let six := [match_zero N; match_max N; match_linear1 N; match_linear2 N;
              match_linear3 N; match_linear4 N] in
  get_interval_ule N s c v fi = first_match six c a1 b1 e1 a2 b2 e2 fi2 /\
  exists pre m post,
    six = pre ++ m :: post /\
    Forall (fun m' => fst (m' c a1 b1 e1 a2 b2 e2 fi2) = false) pre /\
    fst (m c a1 b1 e1 a2 b2 e2 fi2) = true /\
    get_interval_ule N s c v fi = (true, snd (m c a1 b1 e1 a2 b2 e2 fi2)) /\
    forall later,
      first_match (pre ++ m :: later) c a1 b1 e1 a2 b2 e2 fi2
      = (true, snd (m c a1 b1 e1 a2 b2 e2 fi2)).
Proof.
  intros H1 H2 Hnz fi2 six.
  rewrite linear_decompose_side in H1.
  destruct (linear_decompose N s v (ule_lhs c) [])
    as [[[[ok1 a1'] e1'] b1'] em1] eqn:E1.
  cbn [fst snd] in H1. inversion H1; subst; clear H1.
  rewrite linear_decompose_side in H2.
  destruct (linear_decompose N s v (ule_rhs c) [])
    as [[[[ok2 a2'] e2'] b2'] em2] eqn:E2.
  cbn [fst snd] in H2. inversion H2; subst; clear H2.
  assert (G : (a1 =? 0) && (a2 =? 0) = false).
  { apply andb_false_iff. destruct Hnz as [H|H]; [left|right];
      apply Z.eqb_neq; exact H. }
  rewrite (get_interval_ule_eq N s c v fi _ _ _ _ _ _ _ _ _ _ E1 E2).
  cbn [negb orb]. rewrite G.
  subst fi2. rewrite <- app_assoc.
  set (fi2 := set_side_cond (side_cond fi ++ em1 ++ em2)
                            (push_src c (set_coeff 1 fi))).
  change six with (ule_patterns N).
  pose proof (ule_patterns_match N c a1 a2 b1 e1 b2 e2 fi2 G) as Hm.
  split; [reflexivity|].
  destruct (first_match_spec c a1 a2 b1 e1 b2 e2 (ule_patterns N) fi2 Hm)
    as (pre & m & post & Hps & Hpre & Hmm & Hr).
  exists pre, m, post. repeat split; try assumption.
  intros later.
  apply (first_match_decides c a1 a2 b1 e1 b2 e2 pre m later fi2 Hpre Hmm).
Qed.

(** C4 (as the code has it). Failure of [get_interval]: the side
    conditions are cut back to what they were on entry and the interval and
    the dependencies are untouched; the bit width has been set to the width
    of the variable, and on the two supported kinds of constraint the
    constraint has been appended to [src] and the coefficient set to one. *)
Theorem get_interval_failure
        (N : nat) (s : core) (c : signed_constraint) (v : pvar)
        (fi fi' : fi_record) :
  get_interval N s c v fi = (false, fi') ->
  side_cond fi' = side_cond fi /\
  interval fi' = interval fi /\
  deps fi' = deps fi /\
  bit_width fi' = size s v /\
  (if is_ule c || is_umul_ovfl c
   then src fi' = src fi ++ [c] /\ coeff fi' = 1
   else src fi' = src fi /\ coeff fi' = coeff fi).
Proof.
  unfold get_interval. intros H.
  destruct (is_ule c) eqn:Hu.
  - apply get_interval_ule_fail in H. subst fi'. cbn.
    repeat split; reflexivity.
  - destruct (is_umul_ovfl c) eqn:Ho.
    + apply get_interval_umul_ovfl_fail in H. subst fi'. cbn.
      repeat split; reflexivity.
    + inversion H; subst. cbn. repeat split; reflexivity.
Qed.

(* ================================================================== *)
(** * The overflow path *)
(* ================================================================== *)

Section OverflowPath.

Variable N : nat.
Variable s : core.
Variable v : pvar.

Lemma not_ule_of_umul_ovfl (c : signed_constraint) :
  is_umul_ovfl c = true -> is_ule c = false.
Proof. unfold is_umul_ovfl, is_ule. destruct (body c); congruence. Qed.

(** [get_interval_umul_ovfl], with the two decompositions named. *)
Lemma get_interval_umul_ovfl_eq (c : signed_constraint) (fi : fi_record)
      (ok1 ok2 : bool) (a1 a2 : Z) (e1 b1 e2 b2 : pdd)
      (em1 em2 : list signed_constraint) :
  linear_decompose N s v (ovfl_p c) [] = ((ok1, a1, e1, b1), em1) ->
  linear_decompose N s v (ovfl_q c) [] = ((ok2, a2, e2, b2), em2) ->
  forall fi2,
    fi2 = set_side_cond (side_cond fi ++ em1 ++ em2)
                        (push_src c (set_coeff 1 fi)) ->
  get_interval_umul_ovfl N s c v fi
  = let bound := max_value N in
    let '(ok1, a1, e1, b1, ok2, a2, e2, b2) :=
      if ok2 && negb ok1 then (ok2, a2, e2, b2, ok1, a1, e1, b1)
      else (ok1, a1, e1, b1, ok2, a2, e2, b2) in
    if ok1 && negb ok2 && (a1 =? 1) && is_zero N b1 && is_positive c then
      (true, set_interval (proper (mk_val N 0) 0 (mk_val N 2) 2) fi2)
    else if negb ok1 || negb ok2
    then (false, set_side_cond (side_cond fi) fi2)
    else
      let '(a1, e1, b1, a2, e2, b2) :=
        if (a2 =? 1) && (a1 =? 0) then (a2, e2, b2, a1, e1, b1)
        else (a1, e1, b1, a2, e2, b2) in
      if negb (a1 =? 1) || negb (a2 =? 0)
      then (false, set_side_cond (side_cond fi) fi2)
      else if negb (is_zero N b1)
      then (false, set_side_cond (side_cond fi) fi2)
      else if is_positive c then
        if val N b2 <=? 1 then
          (true, push_side_cond (cs_ule e2 (mk_val N 1))
                                (set_interval full fi2))
        else
          let A := bound / val N b2 in
          let B := (bound + A) / A - 1 in
          if (4 <=? A) && (4 <=? B)
          then (false, set_side_cond (side_cond fi) fi2)
          else
            (true, push_side_cond (cs_ule e2 (mk_val N B))
                     (set_interval
                        (proper (mk_val N 0) 0 (mk_val N (A + 1)) (A + 1))
                        fi2))
      else
        if val N b2 <=? 1
        then (false, set_side_cond (side_cond fi) fi2)
        else
          let A := bound / val N b2 + 1 in
          let B := (bound + A) / A in
          if (4 <=? A) && (4 <=? B)
          then (false, set_side_cond (side_cond fi) fi2)
          else
            (true, push_side_cond (cs_ule (mk_val N (val N b2)) e2)
                     (set_interval (proper (mk_val N A) A (mk_val N 0) 0)
                                   fi2)).
Proof.
  intros H1 H2 fi2 ->. unfold get_interval_umul_ovfl.
  cbn [side_cond push_src set_coeff].
  rewrite (linear_decompose_side N s v (ovfl_p c)), H1. cbn [fst snd].
  rewrite (linear_decompose_side N s v (ovfl_q c)), H2. cbn [fst snd].
  rewrite <- app_assoc.
  assert (Hback :
    backtrack false (length (side_cond fi))
      (set_side_cond (side_cond fi ++ em1 ++ em2)
         (push_src c (set_coeff 1 fi)))
    = set_side_cond (side_cond fi)
        (set_side_cond (side_cond fi ++ em1 ++ em2)
           (push_src c (set_coeff 1 fi)))).
  { unfold backtrack, shrink, set_side_cond, push_src, set_coeff.
    cbn [side_cond interval src deps coeff bit_width].
    rewrite firstn_length_app. reflexivity. }
  rewrite !Hback. unfold backtrack. reflexivity.
Qed.

End OverflowPath.

(** C9 (as the code has it). The overflow edge case: for a positive
    [umul_ovfl] constraint of which one operand decomposes to the bare
    variable (coefficient one, remainder of value zero) while the
    decomposition of the other fails, [get_interval] succeeds with the
    proper interval [[0, 2)], which forbids exactly the words 0 and 1.  It
    adds no side condition of its own: the record carries the side
    conditions on entry followed by whatever the two decompositions
    emitted. *)
Theorem umul_ovfl_bare_variable
        (N : nat) (s : core) (c : signed_constraint) (v : pvar)
        (fi : fi_record) (ok1 ok2 : bool) (a1 a2 : Z) (e1 b1 e2 b2 : pdd)
        (em1 em2 : list signed_constraint) :
  is_umul_ovfl c = true ->
  is_positive c = true ->
  linear_decompose N s v (ovfl_p c) [] = ((ok1, a1, e1, b1), em1) ->
  linear_decompose N s v (ovfl_q c) [] = ((ok2, a2, e2, b2), em2) ->
  (ok1 = true /\ ok2 = false /\ a1 = 1 /\ is_zero N b1 = true) \/
  (ok2 = true /\ ok1 = false /\ a2 = 1 /\ is_zero N b2 = true) ->
  get_interval N s c v fi
  = (true,
     mk_fi (proper (mk_val N 0) 0 (mk_val N 2) 2)
           (side_cond fi ++ em1 ++ em2)
           (src fi ++ [c]) (deps fi) 1 (size s v)) /\
  forall x, currently_contains (proper (mk_val N 0) 0 (mk_val N 2) 2) x = true
            <-> x = 0 \/ x = 1.
Proof.
  intros Hk Hpos H1 H2 Hcase. split.
  - unfold get_interval. rewrite (not_ule_of_umul_ovfl c Hk), Hk.
    rewrite (get_interval_umul_ovfl_eq N s v c _ _ _ _ _ _ _ _ _ _ _ H1 H2
               _ eq_refl).
    rewrite Hpos.
    destruct Hcase as [(-> & -> & -> & Hz)|(-> & -> & -> & Hz)];
      cbn [andb negb]; cbv beta iota zeta; rewrite Hz; reflexivity.
  - intros x. cbn [currently_contains]. unfold in_range.
    change (0 <=? 2) with true. cbn match.
    rewrite andb_true_iff, Z.leb_le, Z.ltb_lt. lia.
Qed.

(** C3. The overflow scenario at width 8: for the positive constraint
    [umul_ovfl(v, q)] (in either order of the operands) where [q] does not
    mention [v] and evaluates to 3, [get_interval] succeeds with the proper
    interval [[0, 86)], 85 being [div(255, 3)], and the one side condition
    [q <= 3]; the interval forbids exactly the words [x <= 85], which are
    the words with [x * 3 < 256]. *)
Theorem umul_ovfl_by_three
        (s : core) (v : pvar) (q : pdd) (c : signed_constraint)
        (fi : fi_record) :
  c = cs_umul_ovfl (mk_var 8 v) q \/ c = cs_umul_ovfl q (mk_var 8 v) ->
  degree v q = O ->
  core_subst 8 s q = mk_val 8 3 ->
  get_interval 8 s c v fi
  = (true,
     mk_fi (proper (mk_val 8 0) 0 (mk_val 8 86) 86)
           (side_cond fi ++ [cs_ule q (mk_val 8 3)])
           (src fi ++ [c]) (deps fi) 1 (size s v)) /\
  max_value 8 / val 8 (mk_val 8 3) = 85 /\
  forall x, 0 <= x < 256 ->
            (currently_contains (proper (mk_val 8 0) 0 (mk_val 8 86) 86) x
             = true <-> x <= 85) /\
            (x <= 85 <-> x * 3 < 256).
Proof.
  intros Hc Hdeg Hq.
  assert (Hvar : forall side,
             linear_decompose 8 s v (mk_var 8 v) side
             = ((true, 1, [], []), side)).
  { intros side. unfold linear_decompose.
    change (mk_var 8 v) with [([v], 1)].
    unfold degree, factor. cbn [fold_right fst snd var_count drop_var].
    rewrite Nat.eqb_refl. cbn [Nat.max Nat.leb drop_var fst snd].
    reflexivity. }
  assert (Hqd : forall side,
             linear_decompose 8 s v q side
             = ((true, 0, q, mk_val 8 3), side)).
  { intros side. unfold linear_decompose. rewrite Hdeg. cbn [fst snd].
    change (is_val (zero 8)) with true. cbn [negb]. rewrite Hq.
    reflexivity. }
  split; [|split; [reflexivity|]].
  - unfold get_interval.
    destruct Hc as [-> | ->]; cbn [is_ule is_umul_ovfl cs_umul_ovfl body];
      unfold get_interval_umul_ovfl; cbn [ovfl_p ovfl_q cs_umul_ovfl body];
      cbn [side_cond push_src set_coeff set_bit_width];
      rewrite ?Hvar, ?Hqd; rewrite ?Hvar, ?Hqd; reflexivity.
  - intros x Hx. split.
    + cbn [currently_contains]. unfold in_range.
      change (0 <=? 86) with true. cbn match.
      rewrite andb_true_iff, Z.leb_le, Z.ltb_lt. lia.
    + lia.
Qed.

(* ================================================================== *)
(** * Exactness of the patterns *)
(* ================================================================== *)

Section Exactness.

Variable N : nat.
Variable c : signed_constraint.

Lemma coeff_times (k x : Z) :
  ((two_to_N N - k) * x) mod two_to_N N
  = (- ((k * x) mod two_to_N N)) mod two_to_N N.
Proof.
  apply (eqmod_small N); try apply mod_range.
  rewrite !eqmod_mod.
  transitivity (x * two_to_N N + - (k * x)).
  - apply eqmod_of_eq. ring.
  - unfold eqmod. rewrite Z.add_comm. apply Z_mod_plus_full.
Qed.

(** What [to_interval] answers, in terms of the range it was given. *)
Lemma to_interval_contains (is_trivial : bool) (k lo_val hi_val : Z)
      (lo hi : pdd) (x : Z) :
  0 <= lo_val < two_to_N N -> 0 <= hi_val < two_to_N N ->
  (is_trivial = false -> lo_val <> hi_val) ->
  currently_contains
    (fst (to_interval N c is_trivial k lo_val lo hi_val hi))
    ((snd (to_interval N c is_trivial k lo_val lo hi_val hi) * x)
       mod two_to_N N)
  = if is_trivial then sign c
    else xorb (sign c) (in_range lo_val hi_val ((k * x) mod two_to_N N)).
Proof.
  intros Hlo Hhi Hne. pose proof (two_to_N_pos N) as HP.
  pose proof (mod_range N (k * x)) as Hu.
  unfold to_interval, is_positive.
  destruct is_trivial.
  - destruct (sign c); reflexivity.
  - specialize (Hne eq_refl).
    destruct (two_to_N N <? 2 * k).
    + destruct (sign c); cbn [negb fst snd currently_contains xorb].
      * rewrite coeff_times.
        rewrite (in_range_swap ((1 - hi_val) mod two_to_N N)).
        -- rewrite (in_range_negate _ HP) by assumption. reflexivity.
        -- intros E. apply Hne.
           assert (H : eqmod N (1 - hi_val) (1 - lo_val)) by exact E.
           apply (eqmod_small N); try assumption.
           transitivity (1 - (1 - lo_val)); [apply eqmod_of_eq; ring|].
           rewrite <- H. apply eqmod_of_eq. ring.
      * rewrite coeff_times.
        apply (in_range_negate _ HP); assumption.
    + destruct (sign c); cbn [negb fst snd currently_contains xorb].
      * apply in_range_swap. exact Hne.
      * reflexivity.
Qed.

Lemma to_interval_sentinel (lo_val hi_val : Z) (lo hi : pdd) :
  snd (to_interval N c false (-1) lo_val lo hi_val hi) = -1.
Proof.
  unfold to_interval. pose proof (two_to_N_pos N) as HP.
  destruct (Z.ltb_spec (two_to_N N) (2 * -1)); [lia|].
  destruct (is_positive c); reflexivity.
Qed.

Lemma add_non_unit_side_conds_fields (fi : fi_record) (b1 e1 b2 e2 : pdd) :
  interval (add_non_unit_side_conds N fi b1 e1 b2 e2) = interval fi /\
  coeff (add_non_unit_side_conds N fi b1 e1 b2 e2) = coeff fi.
Proof.
  unfold add_non_unit_side_conds.
  destruct (coeff fi =? 1); [split; reflexivity|].
  destruct (negb (pdd_eqb b1 e1)), (negb (pdd_eqb b2 e2));
    split; reflexivity.
Qed.

Lemma finish_linear_fields (is_trivial : bool) (a lo_val hi_val : Z)
      (lo hi b1 e1 b2 e2 : pdd) (fi : fi_record) :
  interval (finish_linear N c is_trivial a lo_val lo hi_val hi b1 e1 b2 e2 fi)
  = fst (to_interval N c is_trivial a lo_val lo hi_val hi) /\
  coeff (finish_linear N c is_trivial a lo_val lo hi_val hi b1 e1 b2 e2 fi)
  = snd (to_interval N c is_trivial a lo_val lo hi_val hi).
Proof.
  unfold finish_linear.
  destruct (add_non_unit_side_conds_fields
              (set_interval
                 (fst (to_interval N c is_trivial
                         (coeff (set_coeff a fi)) lo_val lo hi_val hi))
                 (set_coeff
                    (snd (to_interval N c is_trivial
                            (coeff (set_coeff a fi)) lo_val lo hi_val hi))
                    (set_coeff a fi)))
              b1 e1 b2 e2) as [Hi Hc].
  cbv zeta. rewrite Hi, Hc. split; reflexivity.
Qed.

End Exactness.

Section PatternExactness.

Variable N : nat.
Variable c : signed_constraint.
Variables a1 a2 : Z.
Variables b1 e1 b2 e2 : pdd.
Variable x : Z.

Hypothesis b1_val : is_val b1 = true.
Hypothesis b2_val : is_val b2 = true.
Hypothesis a1_range : 0 <= a1 < two_to_N N.
Hypothesis a2_range : 0 <= a2 < two_to_N N.

Lemma is_val_one : is_val (one N) = true.
Proof. apply is_val_mk_val. Qed.

Lemma val_plus_one (b : pdd) :
  is_val b = true ->
  val N (add N b (one N)) = (val N b + 1) mod two_to_N N.
Proof.
  intros Hb. apply (val_of_eval N (fun _ => 0)).
  - apply is_val_add; [assumption|apply is_val_one].
  - rewrite eval_add. unfold one. rewrite eval_mk_val.
    rewrite (eval_is_val N _ b Hb). reflexivity.
Qed.

Lemma is_zero_plus_one (b : pdd) :
  is_val b = true ->
  is_zero N (add N b (one N)) = ((val N b + 1) mod two_to_N N =? 0).
Proof.
  intros Hb. unfold is_zero.
  rewrite is_val_add by (assumption || apply is_val_one).
  rewrite (val_plus_one b Hb). reflexivity.
Qed.

Lemma val_diff_plus_one :
  val N (add N (sub N b2 b1) (one N))
  = (val N b2 - val N b1 + 1) mod two_to_N N.
Proof.
  apply (val_of_eval N (fun _ => 0)).
  - apply is_val_add; [apply is_val_sub; assumption|apply is_val_one].
  - rewrite eval_add, eval_sub. unfold one. rewrite eval_mk_val.
    rewrite !(eval_is_val N _ _ b1_val), !(eval_is_val N _ _ b2_val).
    reflexivity.
Qed.

Lemma side_value (a b : Z) :
  (a * x + b) mod two_to_N N
  = ((a * x) mod two_to_N N + b) mod two_to_N N.
Proof. symmetry. apply Zplus_mod_idemp_l. Qed.

Lemma side_constant (b : pdd) :
  (0 * x + val N b) mod two_to_N N = val N b.
Proof. rewrite Z.mul_0_l, Z.add_0_l. apply Z.mod_small, val_range. Qed.

Lemma match_linear4_sentinel (fi : fi_record) :
  fst (match_linear4 N c a1 b1 e1 a2 b2 e2 fi) = true ->
  coeff (snd (match_linear4 N c a1 b1 e1 a2 b2 e2 fi)) = -1.
Proof.
  rewrite match_linear4_fst. intros G. unfold match_linear4. rewrite G.
  cbn [snd].
  destruct (finish_linear_fields N c false (-1) a1 a2 b1 b2 b1 e1 b2 e2 fi)
    as [_ ->].
  apply to_interval_sentinel.
Qed.

End PatternExactness.

Lemma mod_eqb_root (N : nat) (a inv b x : Z) :
  eqmod N (a * inv) 1 ->
  (x mod two_to_N N =? (- b * inv) mod two_to_N N)
  = ((a * x + b) mod two_to_N N =? 0).
Proof.
  intros Hinv. pose proof (linear_root N a inv b x Hinv) as Hr.
  unfold eqmod in Hr.
  rewrite (Z.mod_0_l _ (two_to_N_nonzero N)) in Hr.
  destruct (Z.eqb_spec (x mod two_to_N N) ((- b * inv) mod two_to_N N))
    as [E|E], (Z.eqb_spec ((a * x + b) mod two_to_N N) 0) as [F|F];
    try reflexivity; exfalso; tauto.
Qed.

Section UnitPatterns.

Variable N : nat.
Variable c : signed_constraint.
Variables a1 a2 : Z.
Variables b1 e1 b2 e2 : pdd.

Hypothesis a1_range : 0 <= a1 < two_to_N N.
Hypothesis a2_range : 0 <= a2 < two_to_N N.

(** The record that [match_zero] leaves behind. *)
Lemma match_zero_result (fi : fi_record) :
  fst (match_zero N c a1 b1 e1 a2 b2 e2 fi) = true ->
  let n := (- val N b1 * snd (mult_inverse N a1)) mod two_to_N N in
  let lo := mul N (neg N e1) (mk_val N (snd (mult_inverse N a1))) in
  let hi := add N lo (one N) in
  let r := snd (match_zero N c a1 b1 e1 a2 b2 e2 fi) in
  coeff r = 1 /\
  interval r = (if is_positive c
                then proper hi ((n + 1) mod two_to_N N) lo n
                else proper lo n hi ((n + 1) mod two_to_N N)) /\
  side_cond r = (if pdd_eqb b2 e2 then side_cond fi
                 else side_cond fi ++ [core_eq N b2 e2]) /\
  src r = src fi /\ deps r = deps fi /\ bit_width r = bit_width fi.
Proof.
  rewrite match_zero_fst. intros G. unfold match_zero. rewrite G.
  destruct (is_positive c), (pdd_eqb b2 e2); cbn; repeat split; reflexivity.
Qed.

Lemma match_max_result (fi : fi_record) :
  fst (match_max N c a1 b1 e1 a2 b2 e2 fi) = true ->
  let n := ((-1 - val N b2) * snd (mult_inverse N a2)) mod two_to_N N in
  let lo := mul N (sub N (mk_val N (-1)) e2)
                (mk_val N (snd (mult_inverse N a2))) in
  let hi := add N lo (one N) in
  let r := snd (match_max N c a1 b1 e1 a2 b2 e2 fi) in
  coeff r = 1 /\
  interval r = (if is_positive c
                then proper hi ((n + 1) mod two_to_N N) lo n
                else proper lo n hi ((n + 1) mod two_to_N N)).
Proof.
  rewrite match_max_fst. intros G. unfold match_max. rewrite G.
  destruct (is_positive c), (pdd_eqb b1 e1); cbn; repeat split; reflexivity.
Qed.

(** The interval of a unit pattern anchored at [n]: it keeps [n] alone
    out for a positive constraint and holds [n] alone for a negated
    one. *)
Lemma unit_interval_contains (lo hi : pdd) (n u : Z) :
  1 < two_to_N N -> 0 <= n < two_to_N N -> 0 <= u < two_to_N N ->
  currently_contains
    (if is_positive c
     then proper hi ((n + 1) mod two_to_N N) lo n
     else proper lo n hi ((n + 1) mod two_to_N N)) u
  = xorb (is_positive c) (u =? n).
Proof.
  intros H1 Hn Hu. pose proof (two_to_N_pos N) as HP.
  destruct (is_positive c); cbn [currently_contains xorb].
  - apply in_range_counit; assumption.
  - apply in_range_unit; assumption.
Qed.

End UnitPatterns.

(* ================================================================== *)
(** * The threshold of the overflow path *)
(* ================================================================== *)

Section OverflowSides.

Variable N : nat.

(** The two bounds behind the overflow path: with [A = div(2^N - 1, B)],
    a word above [A] overflows against [B] and a word up to [A] does
    not. *)
Lemma ovfl_above (X B : Z) :
  0 <= X -> 1 < B ->
  in_range 0 (max_value N / B + 1) X = false ->
  (two_to_N N <=? X * B) = true.
Proof.
  intros HX HB. unfold max_value, in_range.
  pose proof (two_to_N_pos N) as HP.
  pose proof (Z.div_mod (two_to_N N - 1) B ltac:(lia)) as Hdm.
  pose proof (Z.mod_pos_bound (two_to_N N - 1) B ltac:(lia)) as Hm.
  assert (0 <= (two_to_N N - 1) / B) by (apply Z.div_pos; lia).
  destruct (Z.leb_spec 0 ((two_to_N N - 1) / B + 1)); [|lia].
  destruct (Z.leb_spec 0 X); [|lia].
  destruct (Z.ltb_spec X ((two_to_N N - 1) / B + 1)); [discriminate|].
  intros _. apply Z.leb_le. nia.
Qed.

Lemma ovfl_below (X B : Z) :
  0 <= X -> 1 < B ->
  in_range (max_value N / B + 1) 0 X = false ->
  (two_to_N N <=? X * B) = false.
Proof.
  intros HX HB. unfold max_value, in_range.
  pose proof (two_to_N_pos N) as HP.
  pose proof (Z.div_mod (two_to_N N - 1) B ltac:(lia)) as Hdm.
  pose proof (Z.mod_pos_bound (two_to_N N - 1) B ltac:(lia)) as Hm.
  assert (0 <= (two_to_N N - 1) / B) by (apply Z.div_pos; lia).
  destruct (Z.leb_spec ((two_to_N N - 1) / B + 1) 0); [lia|].
  destruct (Z.ltb_spec X 0); [lia|].
  destruct (Z.leb_spec ((two_to_N N - 1) / B + 1) X); [discriminate|].
  intros _. apply Z.leb_gt. nia.
Qed.

End OverflowSides.

(** C2. [match_zero]: for an inequality whose left side decomposes to
    [a1 * v + b1] with [a1] odd and whose right side has coefficient zero
    and value zero, [get_interval] succeeds with coefficient one and a
    proper interval anchored at [n = - b1 * a1^-1 mod 2^N], the one root of
    [a1 * v + b1 = 0]: for the positive constraint the interval is
    [[n + 1, n)], which leaves out [n] alone, and for the negated one it is
    the complement [[n, n + 1)], which holds [n] alone. *)
Theorem match_zero_unit_interval
        (N : nat) (s : core) (c : signed_constraint) (v : pvar)
        (fi : fi_record) (a1 : Z) (e1 b1 e2 b2 : pdd)
        (em1 em2 : list signed_constraint) :
  is_ule c = true ->
  linear_decompose N s v (ule_lhs c) [] = ((true, a1, e1, b1), em1) ->
  linear_decompose N s v (ule_rhs c) [] = ((true, 0, e2, b2), em2) ->
  Z.odd a1 = true ->
  is_zero N b2 = true ->
  let inv := snd (mult_inverse N a1) in
  let n := (- val N b1 * inv) mod two_to_N N in
  exists fi',
    get_interval N s c v fi = (true, fi') /\
    coeff fi' = 1 /\
    (exists lo hi,
        interval fi' = if is_positive c
                       then proper hi ((n + 1) mod two_to_N N) lo n
                       else proper lo n hi ((n + 1) mod two_to_N N)) /\
    (a1 * inv) mod two_to_N N = 1 /\
    (a1 * n + val N b1) mod two_to_N N = 0 /\
    forall x, 0 <= x < two_to_N N ->
              currently_contains (interval fi') x
              = xorb (is_positive c) (x =? n).
Proof.
  intros Hu E1 E2 Hodd Hz inv n.
  assert (Ha1 : 0 <= a1 < two_to_N N).
  { destruct (linear_decompose_inv N s v _ _ _ _ _ _ E1 eq_refl)
      as (q & _ & _ & _ & _ & [(_ & -> & _)|(_ & _ & -> & _)]);
      apply val_range. }
  pose proof (odd_modulus N a1 Hodd Ha1) as H1.
  pose proof (two_to_N_pos N) as HP.
  destruct (mult_inverse_correct N a1 Hodd) as (_ & Hinv & _).
  fold inv in Hinv.
  assert (Hn0 : (a1 =? 0) = false).
  { apply Z.eqb_neq. intros ->. discriminate. }
  set (fi2 := set_side_cond (side_cond fi ++ em1 ++ em2)
                (push_src c (set_coeff 1 (set_bit_width (size s v) fi)))).
  assert (G : fst (match_zero N c a1 b1 e1 0 b2 e2 fi2) = true).
  { rewrite match_zero_fst, Hodd, Hz. reflexivity. }
  exists (snd (match_zero N c a1 b1 e1 0 b2 e2 fi2)).
  destruct (match_zero_result N c a1 0 b1 e1 b2 e2 fi2 G)
    as (Hc & Hi & _).
  split; [|split; [exact Hc|split; [|split; [|split]]]].
  - unfold get_interval. rewrite Hu.
    rewrite (get_interval_ule_eq N s c v _ _ _ _ _ _ _ _ _ _ _ E1 E2).
    cbn [negb orb side_cond set_bit_width]. rewrite Hn0. cbn [andb].
    unfold ule_patterns. cbn [first_match]. fold fi2. rewrite G. reflexivity.
  - eexists. eexists. exact Hi.
  - unfold eqmod in Hinv. rewrite Hinv. apply Z.mod_small. lia.
  - assert (Hr : eqmod N (a1 * n + val N b1) 0).
    { apply (linear_root N a1 inv (val N b1) n Hinv).
      unfold n. apply eqmod_mod. }
    unfold eqmod in Hr. rewrite Hr. apply Z.mod_0_l. lia.
  - intros x Hx. rewrite Hi.
    apply unit_interval_contains; try assumption. apply mod_range.
Qed.

(* ================================================================== *)
(** * The properties at the sample inputs *)
(* ================================================================== *)

(** C1 as stated fails at [2*v <= 5], width 8: the matcher succeeds with
    the interval [[6, 0)] and no side condition; the value [v = 3] lies
    outside that interval, and yet [2*3 <= 5] is false.  The interval is
    one for [2*v]. *)
Lemma get_interval_not_exact_on_the_variable :
  exists fi',
    get_interval 8 sample_core sample_2v_le_5 0%nat fi_empty = (true, fi') /\
    agrees_off 0%nat (assigned sample_core) (fun _ => 3) /\
    Forall (fun sc => holds 8 (fun _ => 3) sc = true) (side_cond fi') /\
    currently_contains (interval fi') 3 = false /\
    holds 8 (fun _ => 3) sample_2v_le_5 = false.
Proof.
  eexists. split; [reflexivity|]. split; [|split; [|split]].
  - intros x a _ H. discriminate H.
  - constructor.
  - reflexivity.
  - reflexivity.
Qed.

(** The record of [match_linear4] is not an interval for the variable: on
    [2*v <= 3*v] it carries the coefficient [-1] and the two coefficients 2
    and 3 where the end points would be; at [v = 100] the word [-v] lies
    outside [[2, 3)] and the inequality is false. *)
Lemma diseq_lin_record_is_not_an_interval :
  exists fi',
    get_interval 8 sample_core sample_2v_le_3v 0%nat fi_empty = (true, fi') /\
    coeff fi' = -1 /\
    interval fi' = proper (zero 8) 2 (zero 8) 3 /\
    currently_contains (interval fi') ((coeff fi' * 100) mod two_to_N 8)
    = false /\
    holds 8 (fun _ => 100) sample_2v_le_3v = false.
Proof. eexists. repeat split. Qed.

(** The interval [[0, 2)] returned for an operand that does not decompose is
    not exact: on [ovfl(v, y*v + w)] with [y] assigned 2 and [w] not
    assigned, the model [v = 5], [w = 0] carries the assignment, satisfies
    the side condition [y - 2 = 0] and has [v] outside [[0, 2)], and
    [5 * 10] does not overflow. *)
Lemma bare_variable_interval_is_not_exact :
  exists fi',
    get_interval 8 sample_core_y2 sample_ovfl_v_yvw 0%nat fi_empty
    = (true, fi') /\
    decomposable 8 sample_core_y2 0%nat sample_ovfl_v_yvw = false /\
    agrees_off 0%nat (assigned sample_core_y2) sample_model_v5_y2 /\
    Forall (fun sc => holds 8 sample_model_v5_y2 sc = true) (side_cond fi') /\
    currently_contains (interval fi')
                       ((coeff fi' * sample_model_v5_y2 0%nat) mod two_to_N 8)
    = false /\
    holds 8 sample_model_v5_y2 sample_ovfl_v_yvw = false.
Proof.
  eexists. split; [reflexivity|]. split; [reflexivity|].
  split; [|split; [|split; reflexivity]].
  - intros x a _ H. cbn in H. destruct x as [|[|x]]; try discriminate H.
    injection H as <-. reflexivity.
  - constructor; [reflexivity|constructor].
Qed.

(** The side condition of a decomposition that succeeded is kept on
    purpose: on [ovfl(y*v, w)] with [y] assigned 1 the first operand
    decomposes to the bare variable only under [y - 1 = 0], and that is the
    side condition of the record. *)
Lemma bare_variable_under_side_condition :
  fst (linear_decompose 8 sample_core_y1 0%nat (ovfl_p sample_ovfl_yv_w) [])
  = (true, 1, zero 8, zero 8) /\
  decomposes 8 sample_core_y1 0%nat (ovfl_q sample_ovfl_yv_w) = false /\
  get_interval 8 sample_core_y1 sample_ovfl_yv_w 0%nat fi_empty
  = (true,
     mk_fi (proper (mk_val 8 0) 0 (mk_val 8 2) 2)
           [core_eq 8 (mk_var 8 1%nat) (mk_val 8 1)]
           [sample_ovfl_yv_w] [] 1 8%nat).
Proof. repeat split. Qed.

(** C2 at [3*v + 7 <= 0], width 8: the inverse of 3 is 171, the root is
    [n = 83], the interval is [[84, 83)] and every word but 83 is
    forbidden. *)
Lemma match_zero_unit_interval_witness :
  linear_decompose 8 sample_core 0%nat (ule_lhs sample_3v7_le_0) []
  = ((true, 3, mk_val 8 7, mk_val 8 7), []) /\
  linear_decompose 8 sample_core 0%nat (ule_rhs sample_3v7_le_0) []
  = ((true, 0, zero 8, zero 8), []) /\
  exists fi',
    get_interval 8 sample_core sample_3v7_le_0 0%nat fi_empty = (true, fi') /\
    coeff fi' = 1 /\
    (exists lo hi, interval fi' = proper hi 84 lo 83) /\
    (3 * 171) mod 256 = 1 /\
    (3 * 83 + 7) mod 256 = 0 /\
    forall x, 0 <= x < 256 ->
              currently_contains (interval fi') x = negb (x =? 83).
Proof.
  split; [reflexivity|]. split; [reflexivity|].
  exact (match_zero_unit_interval
           8 sample_core sample_3v7_le_0 0%nat fi_empty
           3 (mk_val 8 7) (mk_val 8 7) (zero 8) (zero 8) [] []
           eq_refl eq_refl eq_refl eq_refl eq_refl).
Defined.

(** C3 at [ovfl(v, 3)], width 8, on an empty record. *)
Lemma umul_ovfl_by_three_witness :
  degree 0%nat (mk_val 8 3) = O /\
  core_subst 8 sample_core (mk_val 8 3) = mk_val 8 3 /\
  get_interval 8 sample_core sample_ovfl_v_3 0%nat fi_empty
  = (true,
     mk_fi (proper (mk_val 8 0) 0 (mk_val 8 86) 86)
           [cs_ule (mk_val 8 3) (mk_val 8 3)]
           [sample_ovfl_v_3] [] 1 8%nat).
Proof.
  split; [reflexivity|]. split; [reflexivity|].
  exact (proj1 (umul_ovfl_by_three
                  sample_core 0%nat (mk_val 8 3) sample_ovfl_v_3 fi_empty
                  (or_introl eq_refl) eq_refl eq_refl)).
Defined.

(** C4 at [v*v <= 5], width 8: the matcher fails and the record keeps its
    empty side conditions and its interval. *)
Lemma get_interval_failure_witness :
  get_interval 8 sample_core sample_vv_le_5 0%nat fi_empty
  = (false, mk_fi full [] [sample_vv_le_5] [] 1 8%nat) /\
  side_cond (mk_fi full [] [sample_vv_le_5] [] 1 8%nat) = side_cond fi_empty /\
  interval (mk_fi full [] [sample_vv_le_5] [] 1 8%nat) = interval fi_empty.
Proof.
  split; [reflexivity|].
  pose proof (get_interval_failure
                8 sample_core sample_vv_le_5 0%nat fi_empty
                (mk_fi full [] [sample_vv_le_5] [] 1 8%nat) eq_refl) as H.
  split; [exact (proj1 H)|exact (proj1 (proj2 H))].
Defined.

(** C4 as stated fails at [v*v <= 5], width 8: the matcher fails on an
    empty record and hands back a record that is not empty: the constraint
    sits in [src], the coefficient is one and the bit width is 8. *)
Lemma get_interval_failure_leaves_residue :
  exists fi',
    get_interval 8 sample_core sample_vv_le_5 0%nat fi_empty = (false, fi') /\
    src fi' = [sample_vv_le_5] /\
    coeff fi' = 1 /\
    bit_width fi' = 8%nat /\
    fi' <> fi_empty.
Proof.
  eexists. split; [reflexivity|]. repeat split. discriminate.
Qed.

(** C5 at [2*v <= 5], width 8: the pattern that answers is
    [match_linear1], the third of the six. *)
Lemma ule_pattern_priority_witness :
  linear_decompose 8 sample_core 0%nat (ule_lhs sample_2v_le_5)
                   (side_cond fi_empty)
  = ((true, 2, zero 8, zero 8), []) /\
  linear_decompose 8 sample_core 0%nat (ule_rhs sample_2v_le_5) []
  = ((true, 0, mk_val 8 5, mk_val 8 5), []) /\
  get_interval_ule 8 sample_core sample_2v_le_5 0%nat fi_empty
  = first_match [match_zero 8; match_max 8; match_linear1 8; match_linear2 8;
                 match_linear3 8; match_linear4 8]
                sample_2v_le_5
                2 (zero 8) (zero 8) 0 (mk_val 8 5) (mk_val 8 5)
                (set_side_cond [] (push_src sample_2v_le_5
                                            (set_coeff 1 fi_empty))) /\
  get_interval_ule 8 sample_core sample_2v_le_5 0%nat fi_empty
  = (true,
     snd (match_linear1 8 sample_2v_le_5
            2 (zero 8) (zero 8) 0 (mk_val 8 5) (mk_val 8 5)
            (set_side_cond [] (push_src sample_2v_le_5
                                        (set_coeff 1 fi_empty))))).
Proof.
  split; [reflexivity|]. split; [reflexivity|].
  assert (Hnz : 2 <> 0 \/ 0 <> 0) by (left; discriminate).
  pose proof (ule_pattern_priority
                8 sample_core sample_2v_le_5 0%nat fi_empty
                2 0 (zero 8) (zero 8) (mk_val 8 5) (mk_val 8 5) [] []
                eq_refl eq_refl Hnz) as H.
  cbv zeta in H. split; [exact (proj1 H)|reflexivity].
Defined.

(** C5 as stated fails: the patterns tried are six, and [match_non_zero]
    and [match_non_max] are not among them.  At [not (v <= 3*v)], width 8,
    both sides decompose, with the coefficients 1 and 3, and both
    [match_non_zero] and [match_non_max] match; the one pattern of the six
    that matches is the last, [match_linear4].  Were one of the two tried
    in any place before the last, it would be the first to match and
    decide the record; the record of the matcher is another.  Behind the
    six nothing is reached, as one of them always matches.  And where the
    source names the two, with exactly one side that decomposes, they are
    switched off: at [not (v + 3 <= w)] and at [not (w <= v + 3)] with [w]
    not assigned the pattern matches and the matcher fails. *)
Lemma non_zero_and_non_max_are_not_tried :
  (linear_decompose 8 sample_core 0%nat (ule_lhs sample_not_v_le_3v) []
   = ((true, 1, zero 8, zero 8), []) /\
   linear_decompose 8 sample_core 0%nat (ule_rhs sample_not_v_le_3v) []
   = ((true, 3, zero 8, zero 8), []) /\
   fst (match_non_zero 8 sample_not_v_le_3v 1 (zero 8) (zero 8)
          (ule_rhs sample_not_v_le_3v) sample_fi_not_v_le_3v) = true /\
   fst (match_non_max 8 sample_not_v_le_3v (ule_lhs sample_not_v_le_3v)
          3 (zero 8) (zero 8) sample_fi_not_v_le_3v) = true /\
   get_interval_ule 8 sample_core sample_not_v_le_3v 0%nat fi_empty
   = (true,
      snd (match_linear4 8 sample_not_v_le_3v
             1 (zero 8) (zero 8) 3 (zero 8) (zero 8)
             sample_fi_not_v_le_3v)) /\
   forall k extra,
     (k < 6)%nat ->
     extra = non_zero_pattern 8 (ule_rhs sample_not_v_le_3v) \/
     extra = non_max_pattern 8 (ule_lhs sample_not_v_le_3v) ->
     first_match (firstn k (ule_patterns 8) ++ extra :: skipn k (ule_patterns 8))
                 sample_not_v_le_3v 1 (zero 8) (zero 8) 3 (zero 8) (zero 8)
                 sample_fi_not_v_le_3v
     <> get_interval_ule 8 sample_core sample_not_v_le_3v 0%nat fi_empty) /\
  (decomposes 8 sample_core 0%nat (ule_lhs sample_not_v3_le_w) = true /\
   decomposes 8 sample_core 0%nat (ule_rhs sample_not_v3_le_w) = false /\
   fst (match_non_zero 8 sample_not_v3_le_w 1 (mk_val 8 3) (mk_val 8 3)
          (ule_rhs sample_not_v3_le_w)
          (push_src sample_not_v3_le_w (set_coeff 1 fi_empty))) = true /\
   fst (get_interval_ule 8 sample_core sample_not_v3_le_w 0%nat fi_empty)
   = false) /\
  (decomposes 8 sample_core 0%nat (ule_lhs sample_not_w_le_v3) = false /\
   decomposes 8 sample_core 0%nat (ule_rhs sample_not_w_le_v3) = true /\
   fst (match_non_max 8 sample_not_w_le_v3 (ule_lhs sample_not_w_le_v3)
          1 (mk_val 8 3) (mk_val 8 3)
          (push_src sample_not_w_le_v3 (set_coeff 1 fi_empty))) = true /\
   fst (get_interval_ule 8 sample_core sample_not_w_le_v3 0%nat fi_empty)
   = false).
Proof.
  split; [|split; repeat split].
  repeat (split; [reflexivity|]).
  intros k extra Hk [-> | ->];
    do 6 (destruct k as [|k]; [vm_compute; discriminate|]); lia.
Qed.

(** C6 at width 8 for the coefficient 200 and the range [[6, 0)]. *)
Lemma negate_normalize_involutive_witness :
  two_to_N 8 < 2 * 200 /\
  negate_normalize 8 (200, 6, 0) = (56, 1, 251) /\
  negate_normalize 8 (negate_normalize 8 (200, 6, 0)) = (200, 6, 0).
Proof.
  split; [reflexivity|]. split; [reflexivity|].
  assert (H6 : 0 <= 6 < two_to_N 8) by (split; [discriminate|reflexivity]).
  assert (H0 : 0 <= 0 < two_to_N 8) by (split; [discriminate|reflexivity]).
  exact (proj1 (proj2 (negate_normalize_involutive
                         8 sample_2v_le_5 200 6 0 (mk_val 8 6) (zero 8)
                         eq_refl H6 H0))).
Defined.

(** C7 at [y*v + 3] with [y] assigned 2, width 8: the coefficient is 2,
    the remainder 3, and one side condition [y - 2 = 0] is emitted. *)
Lemma linear_decompose_round_trip_witness :
  linear_decompose 8 sample_core_y2 0%nat sample_yv_plus_3 []
  = ((true, 2, mk_val 8 3, mk_val 8 3),
     [core_eq 8 (mk_var 8 1%nat) (mk_val 8 2)]) /\
  forall M : pvar -> Z,
    holds 8 M (core_eq 8 (mk_var 8 1%nat) (mk_val 8 2)) = true ->
    eval 8 M sample_yv_plus_3
    = (2 * M 0%nat + eval 8 M (mk_val 8 3)) mod two_to_N 8.
Proof.
  split; [reflexivity|].
  destruct (linear_decompose_round_trip
              8 sample_core_y2 0%nat sample_yv_plus_3 []
              2 (mk_val 8 3) (mk_val 8 3)
              [core_eq 8 (mk_var 8 1%nat) (mk_val 8 2)] eq_refl)
    as (_ & emitted & Hem & _ & H).
  cbn [app] in Hem. subst emitted.
  intros M HM. apply H. constructor; [exact HM|constructor].
Defined.

(** C8 at [x <= y] with [y <= x] in the unsat core under the identifier 9:
    the equality [x - y = 0] is propagated from 9 and 4. *)
Lemma propagate_infer_equality_mirror_witness :
  get_constraint sample_core_mirror 9%nat
  = cs_ule (ineq_rhs sample_x_le_y) (ineq_lhs sample_x_le_y) /\
  propagations (propagate_infer_equality 8 sample_core_mirror 0%nat
                                         sample_x_le_y sample_saturation)
  = [(core_eq 8 (mk_var 8 0%nat) (mk_var 8 1%nat), [9%nat; 4%nat])] /\
  exists id0,
    In id0 (unsat_core sample_core_mirror) /\
    get_constraint sample_core_mirror id0
    = cs_ule (ineq_rhs sample_x_le_y) (ineq_lhs sample_x_le_y).
Proof.
  split; [reflexivity|]. split; [reflexivity|].
  assert (Hdeg : degree 0%nat (ineq_lhs sample_x_le_y) <> O \/
                 degree 0%nat (ineq_rhs sample_x_le_y) <> O)
    by (left; discriminate).
  destruct (propagate_infer_equality_mirror
              8 sample_core_mirror 0%nat sample_x_le_y sample_saturation
              9%nat eq_refl Hdeg
              (or_intror (or_introl eq_refl)) eq_refl)
    as (id0 & Hin & Hc & _).
  exists id0. split; assumption.
Defined.

(** C9 at [ovfl(v, y*v + w)] with [y] assigned 2 and [w] not assigned. *)
Lemma umul_ovfl_bare_variable_witness :
  linear_decompose 8 sample_core_y2 0%nat (ovfl_p sample_ovfl_v_yvw) []
  = ((true, 1, zero 8, zero 8), []) /\
  linear_decompose 8 sample_core_y2 0%nat (ovfl_q sample_ovfl_v_yvw) []
  = ((false, 2, mk_var 8 2%nat, mk_var 8 2%nat),
     [core_eq 8 (mk_var 8 1%nat) (mk_val 8 2)]) /\
  get_interval 8 sample_core_y2 sample_ovfl_v_yvw 0%nat fi_empty
  = (true,
     mk_fi (proper (mk_val 8 0) 0 (mk_val 8 2) 2)
           [core_eq 8 (mk_var 8 1%nat) (mk_val 8 2)]
           [sample_ovfl_v_yvw] [] 1 8%nat).
Proof.
  split; [reflexivity|]. split; [reflexivity|].
  exact (proj1 (umul_ovfl_bare_variable
                  8 sample_core_y2 sample_ovfl_v_yvw 0%nat fi_empty
                  true false 1 2 (zero 8) (zero 8)
                  (mk_var 8 2%nat) (mk_var 8 2%nat)
                  [] [core_eq 8 (mk_var 8 1%nat) (mk_val 8 2)]
                  eq_refl eq_refl eq_refl eq_refl
                  (or_introl (conj eq_refl
                                (conj eq_refl (conj eq_refl eq_refl)))))).
Defined.

(** C9 as stated fails at [ovfl(v, y*v + w)] with [y] assigned 2 and [w]
    not assigned: the first operand is the bare variable, the second does
    not decompose because [w] has no value, the matcher succeeds with
    [[0, 2)], and the record carries the side condition [y - 2 = 0] that
    the failed decomposition had emitted. *)
Lemma umul_ovfl_bare_variable_keeps_side_condition :
  is_positive sample_ovfl_v_yvw = true /\
  fst (linear_decompose 8 sample_core_y2 0%nat (ovfl_p sample_ovfl_v_yvw) [])
  = (true, 1, zero 8, zero 8) /\
  decomposes 8 sample_core_y2 0%nat (ovfl_q sample_ovfl_v_yvw) = false /\
  exists fi',
    get_interval 8 sample_core_y2 sample_ovfl_v_yvw 0%nat fi_empty
    = (true, fi') /\
    interval fi' = proper (mk_val 8 0) 0 (mk_val 8 2) 2 /\
    side_cond fi' = [core_eq 8 (mk_var 8 1%nat) (mk_val 8 2)] /\
    side_cond fi' <> side_cond fi_empty.
Proof.
  split; [reflexivity|]. split; [reflexivity|]. split; [reflexivity|].
  eexists. split; [reflexivity|]. repeat split. discriminate.
Qed.

(** C10 at [y*x <= z*x]: the clause has the four members
    [dep, ovfl(x,y), x = 0, y <= z]. *)
Lemma try_ugt_x_clause_witness :
  is_xY_l_xZ_model 8 sample_yx_le_zx 0%nat
  = Some (mk_var 8 1%nat, mk_var 8 2%nat) /\
  exists name,
    clauses (try_ugt_x 8 (is_xY_l_xZ_model 8) (fun _ => true) 0%nat
                       sample_yx_le_zx sample_saturation)
    = [(name,
        [of_dep 7%nat;
         of_sc (cs_umul_ovfl (mk_var 8 0%nat) (mk_var 8 1%nat));
         of_sc (cs_eq 8 (mk_var 8 0%nat));
         of_sc (cs_ule (mk_var 8 1%nat) (mk_var 8 2%nat))],
        false)].
Proof.
  split; [reflexivity|].
  destruct (try_ugt_x_clause
              8 (is_xY_l_xZ_model 8) (fun _ => true) 0%nat
              sample_yx_le_zx sample_saturation
              (mk_var 8 1%nat) (mk_var 8 2%nat) eq_refl)
    as (name & H & _).
  exists name. exact H.
Defined.
(* ================================================================== *)
(** * The record a successful match leaves behind *)
(* ================================================================== *)

Ltac word_cases P t :=
  let H := fresh "Hw" in
  let E := fresh "Ew" in
  destruct (mod_cases P t ltac:(lia)) as [[H E]|[[H E]|[H E]]];
  rewrite ?E in *.

Section IntervalFacts.

Variable N : nat.

Lemma negated_ends_distinct (lo_val hi_val : Z) :
  0 <= lo_val < two_to_N N -> 0 <= hi_val < two_to_N N ->
  lo_val <> hi_val ->
  (1 - hi_val) mod two_to_N N <> (1 - lo_val) mod two_to_N N.
Proof.
  intros Hlo Hhi Hne E. pose proof (two_to_N_pos N) as HP.
  word_cases (two_to_N N) (1 - hi_val);
    word_cases (two_to_N N) (1 - lo_val); lia.
Qed.

(** The interval for a constraint and the one for its negation split the
    words between them. *)
Lemma to_interval_negation (c : signed_constraint) (is_trivial : bool)
      (k lo_val hi_val : Z) (lo hi : pdd) :
  0 <= lo_val < two_to_N N -> 0 <= hi_val < two_to_N N ->
  (is_trivial = false -> lo_val <> hi_val) ->
  snd (to_interval N (sc_not c) is_trivial k lo_val lo hi_val hi)
  = snd (to_interval N c is_trivial k lo_val lo hi_val hi) /\
  forall y,
    currently_contains
      (fst (to_interval N (sc_not c) is_trivial k lo_val lo hi_val hi)) y
    = negb (currently_contains
              (fst (to_interval N c is_trivial k lo_val lo hi_val hi)) y).
Proof.
  intros Hlo Hhi Hne. unfold to_interval, is_positive, sc_not.
  cbn [sign]. destruct is_trivial.
  - destruct (sign c); cbn; split; reflexivity || (intros; reflexivity).
  - specialize (Hne eq_refl).
    pose proof (negated_ends_distinct lo_val hi_val Hlo Hhi Hne) as Hd.
    destruct (two_to_N N <? 2 * k);
      destruct (sign c); cbn [negb fst snd currently_contains];
      (split; [reflexivity|intros y]).
    + rewrite (in_range_swap _ _ y Hd). rewrite negb_involutive. reflexivity.
    + apply in_range_swap. exact Hd.
    + rewrite (in_range_swap _ _ y Hne). rewrite negb_involutive. reflexivity.
    + apply in_range_swap. exact Hne.
Qed.

(** The symbolic end points that [to_interval] answers evaluate to the
    values it answers. *)
Lemma to_interval_ends (c : signed_constraint) (is_trivial : bool)
      (k lo_val hi_val : Z) (lo hi : pdd) (M : pvar -> Z)
      (l h : pdd) (l_val h_val : Z) :
  eval N M lo = lo_val -> eval N M hi = hi_val ->
  fst (to_interval N c is_trivial k lo_val lo hi_val hi)
  = proper l l_val h h_val ->
  eval N M l = l_val /\ eval N M h = h_val.
Proof.
  intros Hlo Hhi. unfold to_interval.
  assert (Hflip : forall p z, eval N M p = z ->
                    eval N M (sub N (one N) p) = (1 - z) mod two_to_N N).
  { intros p z Hp. apply (eqmod_small N); try apply eval_range;
      try apply mod_range.
    rewrite eval_sub, eqmod_mod. unfold one. rewrite eval_mk_val, Hp.
    reflexivity. }
  destruct is_trivial.
  - destruct (is_positive c); discriminate.
  - destruct (two_to_N N <? 2 * k); destruct (is_positive c);
      cbn [fst]; intros E; injection E as <- <- <- <-;
      split; first [assumption | apply Hflip; assumption].
Qed.

(** The coefficient that [to_interval] answers next to a proper interval is
    at most half the modulus. *)
Lemma to_interval_coeff (c : signed_constraint) (is_trivial : bool)
      (k lo_val hi_val : Z) (lo hi : pdd) :
  0 < k < two_to_N N ->
  let r := to_interval N c is_trivial k lo_val lo hi_val hi in
  (if is_trivial then snd r = k
   else 0 < snd r /\ 2 * snd r <= two_to_N N) /\
  (fst r = full \/ fst r = empty <-> is_trivial = true).
Proof.
  intros Hk. unfold to_interval. destruct is_trivial.
  - destruct (is_positive c); cbn; split; auto; split; auto.
  - destruct (Z.ltb_spec (two_to_N N) (2 * k)); destruct (is_positive c);
      cbn [fst snd]; (split; [lia|]);
      (split; [intros [E|E]; discriminate E|discriminate]).
Qed.

Lemma all_hold_app (M : pvar -> Z) (l r : list signed_constraint) :
  all_hold N M (l ++ r) <-> all_hold N M l /\ all_hold N M r.
Proof. apply Forall_app. Qed.

Lemma all_hold_one (M : pvar -> Z) (sc : signed_constraint) :
  all_hold N M [sc] <-> holds N M sc = true.
Proof.
  split.
  - intros H. inversion H; assumption.
  - intros H. constructor; [assumption|constructor].
Qed.

Lemma holds_cs_eq (M : pvar -> Z) (p : pdd) :
  holds N M (cs_eq N p) = (eval N M p =? 0).
Proof.
  unfold holds, cs_eq, cs_ule. cbn [sign body eval_constraint xorb].
  rewrite zero_nil. unfold eval at 2. cbn [eval_raw].
  rewrite (Z.mod_0_l _ (two_to_N_nonzero N)).
  pose proof (eval_range N M p).
  destruct (Z.leb_spec (eval N M p) 0), (Z.eqb_spec (eval N M p) 0);
    try reflexivity; lia.
Qed.

Lemma holds_sc_not (M : pvar -> Z) (sc : signed_constraint) :
  holds N M (sc_not sc) = negb (holds N M sc).
Proof.
  unfold holds, sc_not. cbn [sign body].
  destruct (sign sc), (eval_constraint N M (body sc)); reflexivity.
Qed.

(** [push_eq] only appends, and what it appends records whether [p]
    vanishes: it is true as soon as the flag is. *)
Lemma push_eq_extends (is_zero : bool) (p : pdd)
      (side : list signed_constraint) :
  exists extra,
    push_eq N is_zero p side = side ++ extra /\
    forall M, is_zero = (eval N M p =? 0) -> all_hold N M extra.
Proof.
  unfold push_eq. destruct (is_val p).
  { exists []. split; [symmetry; apply app_nil_r|]. intros; constructor. }
  destruct is_zero; eexists; (split; [reflexivity|]); intros M Hz;
    apply all_hold_one.
  - rewrite holds_cs_eq. symmetry. exact Hz.
  - rewrite holds_sc_not, holds_cs_eq, <- Hz. reflexivity.
Qed.

Lemma add_non_unit_side_conds_rest (fi : fi_record) (b1 e1 b2 e2 : pdd) :
  let r := add_non_unit_side_conds N fi b1 e1 b2 e2 in
  src r = src fi /\ deps r = deps fi /\ bit_width r = bit_width fi /\
  exists extra,
    side_cond r = side_cond fi ++ extra /\
    forall M, eval N M b1 = eval N M e1 -> eval N M b2 = eval N M e2 ->
              all_hold N M extra.
Proof.
  unfold add_non_unit_side_conds.
  destruct (coeff fi =? 1).
  { repeat split. exists []. split; [symmetry; apply app_nil_r|].
    intros; constructor. }
  destruct (pdd_eqb b1 e1), (pdd_eqb b2 e2);
    cbn [negb side_cond src deps bit_width push_side_cond set_side_cond];
    repeat split.
  - exists []. split; [symmetry; apply app_nil_r|]. intros; constructor.
  - eexists. split; [reflexivity|]. intros M _ H2.
    apply all_hold_one, holds_core_eq, H2.
  - eexists. split; [reflexivity|]. intros M H1 _.
    apply all_hold_one, holds_core_eq, H1.
  - exists [core_eq N b1 e1; core_eq N b2 e2].
    split; [rewrite <- app_assoc; reflexivity|]. intros M H1 H2.
    constructor; [apply holds_core_eq, H1|].
    apply all_hold_one, holds_core_eq, H2.
Qed.

End IntervalFacts.

Section LinearShape.

Variable N : nat.
Variables a1 a2 : Z.
Variables e1 e2 : pdd.

Lemma eval_of_eqmod (M : pvar -> Z) (p : pdd) (z : Z) :
  eqmod N (eval N M p) z -> eval N M p = z mod two_to_N N.
Proof.
  unfold eqmod. intros H. rewrite <- H. symmetry.
  apply Z.mod_small, eval_range.
Qed.

(** The three linear patterns that bound [a * v] have one shape: they hand
    a range, a coefficient and a triviality flag to [finish_linear].  The
    coefficient and the symbolic end points depend on the remainders [e1]
    and [e2] alone; the range, read as a set of words, is where the
    inequality fails for the constants [b1] and [b2]. *)
Lemma linear_shape (m : pattern) (c : signed_constraint) (fi : fi_record)
      (b10 b20 : pdd) :
  m = match_linear1 N \/ m = match_linear2 N \/ m = match_linear3 N ->
  fst (m c a1 b10 e1 a2 b20 e2 fi) = true ->
  0 <= a1 < two_to_N N -> 0 <= a2 < two_to_N N ->
  exists (a : Z) (lo hi p : pdd),
    0 < a < two_to_N N /\
    forall b1 b2 : pdd,
      is_val b1 = true -> is_val b2 = true ->
      exists (T : bool) (lo_val hi_val : Z),
        (forall c' fi',
            snd (m c' a1 b1 e1 a2 b2 e2 fi')
            = finish_linear N c' T a lo_val lo hi_val hi b1 e1 b2 e2
                (set_side_cond (push_eq N T p (side_cond fi')) fi')) /\
        0 <= lo_val < two_to_N N /\ 0 <= hi_val < two_to_N N /\
        (T = false -> lo_val <> hi_val) /\
        (forall x,
            if T
            then ((a1 * x + val N b1) mod two_to_N N
                  <=? (a2 * x + val N b2) mod two_to_N N) = true
            else in_range lo_val hi_val ((a * x) mod two_to_N N)
                 = negb ((a1 * x + val N b1) mod two_to_N N
                         <=? (a2 * x + val N b2) mod two_to_N N)) /\
        (forall M, eval N M e1 = val N b1 -> eval N M e2 = val N b2 ->
                   eval N M lo = lo_val /\ eval N M hi = hi_val /\
                   T = (eval N M p =? 0)).
Proof.
  intros Hm G Ha1 Ha2.
  pose proof (two_to_N_pos N) as HP.
  destruct Hm as [-> | [-> | ->]].
  - (* match_linear1 *)
    rewrite match_linear1_fst in G.
    apply andb_true_iff in G. destruct G as [G0 Gn].
    apply Z.eqb_eq in G0. apply negb_true_iff, Z.eqb_neq in Gn. subst a2.
    exists a1, (add N (sub N e2 e1) (one N)), (neg N e1), (add N e2 (one N)).
    split; [lia|]. intros b1 b2 Hb1 Hb2.
    pose proof (val_range N b1) as H1. pose proof (val_range N b2) as H2.
    exists (is_zero N (add N b2 (one N))),
      (val N (add N (sub N b2 b1) (one N))), (val N (neg N b1)).
    split; [|split; [apply val_range|split; [apply val_range|]]].
    { intros c' fi'. unfold match_linear1.
      rewrite Z.eqb_refl. destruct (Z.eqb_spec a1 0); [contradiction|].
      reflexivity. }
    rewrite (is_zero_plus_one N b2 Hb2), (val_diff_plus_one N b1 b2 Hb1 Hb2),
      (val_neg N b1 Hb1).
    split; [|split].
    + intros Ht. apply Z.eqb_neq in Ht.
      apply (linear1_range _ HP 0); assumption || lia.
    + intros x. pose proof (mod_range N (a1 * x)) as Hu.
      rewrite side_constant, side_value.
      destruct (Z.eqb_spec ((val N b2 + 1) mod two_to_N N) 0) as [Ht|Ht].
      * apply (linear1_trivial _ HP); assumption.
      * apply (linear1_range _ HP); assumption.
    + intros M He1 He2. split; [|split].
      * apply eval_of_eqmod. rewrite eval_add, eval_sub. unfold one.
        rewrite eval_mk_val, He1, He2. reflexivity.
      * apply eval_of_eqmod. rewrite eval_neg, He1. reflexivity.
      * f_equal. symmetry. apply eval_of_eqmod. rewrite eval_add. unfold one.
        rewrite eval_mk_val, He2. reflexivity.
  - (* match_linear2 *)
    rewrite match_linear2_fst in G.
    apply andb_true_iff in G. destruct G as [G0 Gn].
    apply Z.eqb_eq in G0. apply negb_true_iff, Z.eqb_neq in Gn. subst a1.
    exists a2, (neg N e2), (sub N e1 e2), e1.
    split; [lia|]. intros b1 b2 Hb1 Hb2.
    pose proof (val_range N b1) as H1. pose proof (val_range N b2) as H2.
    exists (is_zero N b1), (val N (neg N b2)), (val N (sub N b1 b2)).
    split; [|split; [apply val_range|split; [apply val_range|]]].
    { intros c' fi'. unfold match_linear2.
      rewrite Z.eqb_refl. destruct (Z.eqb_spec a2 0); [contradiction|].
      reflexivity. }
    unfold is_zero. rewrite Hb1. cbn [andb].
    rewrite (val_neg N b2 Hb2), (val_sub N b1 b2 Hb1 Hb2).
    split; [|split].
    + intros Ht. apply Z.eqb_neq in Ht.
      apply (linear2_range _ HP 0); assumption || lia.
    + intros x. pose proof (mod_range N (a2 * x)) as Hu.
      rewrite side_constant, side_value.
      destruct (Z.eqb_spec (val N b1) 0) as [Ht|Ht].
      * rewrite Ht. apply Z.leb_le. apply mod_range.
      * apply (linear2_range _ HP); assumption.
    + intros M He1 He2. split; [|split].
      * apply eval_of_eqmod. rewrite eval_neg, He2. reflexivity.
      * apply eval_of_eqmod. rewrite eval_sub, He1, He2. reflexivity.
      * rewrite He1. reflexivity.
  - (* match_linear3 *)
    rewrite match_linear3_fst in G.
    apply andb_true_iff in G. destruct G as [G0 Gn].
    apply Z.eqb_eq in G0. apply negb_true_iff, Z.eqb_neq in Gn. subst a2.
    exists a1, (neg N e2), (neg N e1), (sub N e1 e2).
    split; [lia|]. intros b1 b2 Hb1 Hb2.
    pose proof (val_range N b1) as H1. pose proof (val_range N b2) as H2.
    exists (val N b1 =? val N b2), (val N (neg N b2)), (val N (neg N b1)).
    split; [|split; [apply val_range|split; [apply val_range|]]].
    { intros c' fi'. unfold match_linear3.
      rewrite Z.eqb_refl. destruct (Z.eqb_spec a1 0); [contradiction|].
      reflexivity. }
    rewrite (val_neg N b2 Hb2), (val_neg N b1 Hb1).
    split; [|split].
    + intros Ht. apply Z.eqb_neq in Ht.
      apply (linear3_range _ HP 0); assumption || lia.
    + intros x. pose proof (mod_range N (a1 * x)) as Hu.
      rewrite (side_value N x a1 (val N b1)), (side_value N x a1 (val N b2)).
      destruct (Z.eqb_spec (val N b1) (val N b2)) as [Ht|Ht].
      * rewrite Ht. apply Z.leb_refl.
      * apply (linear3_range _ HP); assumption.
    + intros M He1 He2. split; [|split].
      * apply eval_of_eqmod. rewrite eval_neg, He2. reflexivity.
      * apply eval_of_eqmod. rewrite eval_neg, He1. reflexivity.
      * rewrite (eval_of_eqmod M (sub N e1 e2) (val N b1 - val N b2))
          by (rewrite eval_sub, He1, He2; reflexivity).
        destruct (Z.eqb_spec (val N b1) (val N b2)) as [Ht|Ht].
        -- rewrite Ht, Z.sub_diag, (Z.mod_0_l _ (two_to_N_nonzero N)).
           reflexivity.
        -- symmetry. apply Z.eqb_neq.
           word_cases (two_to_N N) (val N b1 - val N b2); lia.
Qed.

End LinearShape.

Section PatternProperties.

Variable N : nat.
Variables a1 a2 : Z.
Variables b1 e1 b2 e2 : pdd.

Lemma finish_linear_rest (c : signed_constraint) (is_trivial : bool)
      (a lo_val hi_val : Z) (lo hi : pdd) (fi : fi_record) :
  let r := finish_linear N c is_trivial a lo_val lo hi_val hi
                         b1 e1 b2 e2 fi in
  src r = src fi /\ deps r = deps fi /\ bit_width r = bit_width fi /\
  exists extra,
    side_cond r = side_cond fi ++ extra /\
    forall M, eval N M b1 = eval N M e1 -> eval N M b2 = eval N M e2 ->
              all_hold N M extra.
Proof.
  unfold finish_linear. cbv zeta.
  match goal with
  | |- context [add_non_unit_side_conds N ?f b1 e1 b2 e2] =>
      destruct (add_non_unit_side_conds_rest N f b1 e1 b2 e2)
        as (Hs & Hd & Hw & extra & Hx & Hh)
  end.
  rewrite Hs, Hd, Hw. repeat split. exists extra. split; assumption.
Qed.

Lemma match_max_rest (c : signed_constraint) (fi : fi_record) :
  fst (match_max N c a1 b1 e1 a2 b2 e2 fi) = true ->
  let r := snd (match_max N c a1 b1 e1 a2 b2 e2 fi) in
  side_cond r = (if pdd_eqb b1 e1 then side_cond fi
                 else side_cond fi ++ [core_eq N b1 e1]) /\
  src r = src fi /\ deps r = deps fi /\ bit_width r = bit_width fi.
Proof.
  rewrite match_max_fst. intros G. unfold match_max. rewrite G.
  destruct (is_positive c), (pdd_eqb b1 e1); cbn; repeat split; reflexivity.
Qed.

Lemma ule_patterns_cases (m : pattern) :
  In m (ule_patterns N) ->
  m = match_zero N \/ m = match_max N \/
  (m = match_linear1 N \/ m = match_linear2 N \/ m = match_linear3 N) \/
  m = match_linear4 N.
Proof.
  unfold ule_patterns. cbn [In]. intuition (subst; auto).
Qed.

(** What every pattern leaves untouched, and what it appends. *)
Lemma ule_pattern_rest (m : pattern) (c : signed_constraint)
      (fi : fi_record) :
  In m (ule_patterns N) ->
  fst (m c a1 b1 e1 a2 b2 e2 fi) = true ->
  is_val b1 = true -> is_val b2 = true ->
  0 <= a1 < two_to_N N -> 0 <= a2 < two_to_N N ->
  let r := snd (m c a1 b1 e1 a2 b2 e2 fi) in
  src r = src fi /\ deps r = deps fi /\ bit_width r = bit_width fi /\
  exists extra,
    side_cond r = side_cond fi ++ extra /\
    forall M, eval N M e1 = val N b1 -> eval N M e2 = val N b2 ->
              all_hold N M extra.
Proof.
  intros Hin G Hb1 Hb2 Ha1 Ha2.
  destruct (ule_patterns_cases m Hin) as [-> | [-> | [Hl | ->]]]; cbv zeta.
  - destruct (match_zero_result N c a1 a2 b1 e1 b2 e2 fi G)
      as (_ & _ & Hs & Hsrc & Hd & Hw).
    rewrite Hs, Hsrc, Hd, Hw. repeat split.
    destruct (pdd_eqb b2 e2).
    + exists []. split; [symmetry; apply app_nil_r|]. intros; constructor.
    + eexists. split; [reflexivity|]. intros M _ H2.
      apply all_hold_one, holds_core_eq.
      rewrite (eval_is_val N M b2 Hb2). symmetry. exact H2.
  - destruct (match_max_rest c fi G) as (Hs & Hsrc & Hd & Hw).
    rewrite Hs, Hsrc, Hd, Hw. repeat split.
    destruct (pdd_eqb b1 e1).
    + exists []. split; [symmetry; apply app_nil_r|]. intros; constructor.
    + eexists. split; [reflexivity|]. intros M H1 _.
      apply all_hold_one, holds_core_eq.
      rewrite (eval_is_val N M b1 Hb1). symmetry. exact H1.
  - destruct (linear_shape N a1 a2 e1 e2 m c fi b1 b2 Hl G Ha1 Ha2)
      as (a & lo & hi & p & _ & Hall).
    destruct (Hall b1 b2 Hb1 Hb2)
      as (T & lo_val & hi_val & Hshape & _ & _ & _ & _ & Hev).
    rewrite Hshape.
    destruct (finish_linear_rest c T a lo_val hi_val lo hi
                (set_side_cond (push_eq N T p (side_cond fi)) fi))
      as (Hsrc & Hd & Hw & extra & Hx & Hh).
    rewrite Hsrc, Hd, Hw, Hx. repeat split.
    destruct (push_eq_extends N T p (side_cond fi)) as (extra0 & Hp & Hh0).
    exists (extra0 ++ extra). cbn [side_cond set_side_cond]. rewrite Hp.
    split; [symmetry; apply app_assoc|].
    intros M H1 H2. apply all_hold_app. split.
    + apply Hh0. apply (Hev M H1 H2).
    + apply Hh; rewrite (eval_is_val N M _ Hb1) || rewrite (eval_is_val N M _ Hb2);
        symmetry; assumption.
  - rewrite match_linear4_fst in G. unfold match_linear4. rewrite G.
    cbn [snd].
    destruct (finish_linear_rest c false (-1) a1 a2 b1 b2 fi)
      as (Hsrc & Hd & Hw & extra & Hx & Hh).
    rewrite Hsrc, Hd, Hw, Hx. repeat split.
    exists extra. split; [reflexivity|].
    intros M H1 H2.
    apply Hh; rewrite (eval_is_val N M _ Hb1) || rewrite (eval_is_val N M _ Hb2);
        symmetry; assumption.
Qed.

End PatternProperties.

Section PatternSemantics.

Variable N : nat.
Variables a1 a2 : Z.
Variables b1 e1 b2 e2 : pdd.

(** A word lies in the interval of a pattern exactly when the inequality
    fails there. *)
Lemma ule_pattern_forbids (m : pattern) (c : signed_constraint)
      (fi : fi_record) (x : Z) :
  In m (ule_patterns N) ->
  fst (m c a1 b1 e1 a2 b2 e2 fi) = true ->
  is_val b1 = true -> is_val b2 = true ->
  0 <= a1 < two_to_N N -> 0 <= a2 < two_to_N N ->
  let r := snd (m c a1 b1 e1 a2 b2 e2 fi) in
  coeff r <> -1 ->
  currently_contains (interval r) ((coeff r * x) mod two_to_N N)
  = negb (xorb (sign c)
               ((a1 * x + val N b1) mod two_to_N N
                <=? (a2 * x + val N b2) mod two_to_N N)).
Proof.
  intros Hin G Hb1 Hb2 Ha1 Ha2.
  pose proof (two_to_N_pos N) as HP.
  destruct (ule_patterns_cases N m Hin) as [-> | [-> | [Hl | ->]]]; cbv zeta.
  - destruct (match_zero_result N c a1 a2 b1 e1 b2 e2 fi G) as (Hc & Hi & _).
    rewrite Hc, Hi. intros _. rewrite match_zero_fst in G.
    apply andb_true_iff in G. destruct G as [G Gz].
    apply andb_true_iff in G. destruct G as [Godd G0].
    apply Z.eqb_eq in G0. subst a2.
    unfold is_zero in Gz. apply andb_true_iff in Gz. destruct Gz as [_ Gz].
    apply Z.eqb_eq in Gz. rewrite Gz.
    destruct (mult_inverse_correct N a1 Godd) as (_ & Hinv & _).
    pose proof (odd_modulus N a1 Godd Ha1) as Hodd.
    rewrite unit_interval_contains;
      [|assumption|apply mod_range|apply mod_range].
    rewrite Z.mul_1_l, (mod_eqb_root N a1 _ (val N b1) x Hinv).
    rewrite Z.mul_0_l, Z.add_0_l, (Z.mod_0_l _ (two_to_N_nonzero N)).
    pose proof (mod_range N (a1 * x + val N b1)) as HL.
    unfold is_positive.
    destruct (sign c),
      (Z.eqb_spec ((a1 * x + val N b1) mod two_to_N N) 0) as [E|E],
      (Z.leb_spec ((a1 * x + val N b1) mod two_to_N N) 0);
      cbn [negb xorb]; try reflexivity; lia.
  - destruct (match_max_result N c a1 a2 b1 e1 b2 e2 fi G) as (Hc & Hi).
    rewrite Hc, Hi. intros _. rewrite match_max_fst in G.
    apply andb_true_iff in G. destruct G as [G Godd].
    apply andb_true_iff in G. destruct G as [G0 Gm].
    apply Z.eqb_eq in G0. subst a1.
    unfold is_max in Gm. apply andb_true_iff in Gm. destruct Gm as [_ Gm].
    apply Z.eqb_eq in Gm. rewrite Gm.
    destruct (mult_inverse_correct N a2 Godd) as (_ & Hinv & _).
    pose proof (odd_modulus N a2 Godd Ha2) as Hodd.
    rewrite unit_interval_contains;
      [|assumption|apply mod_range|apply mod_range].
    replace ((-1 - val N b2) * snd (mult_inverse N a2))
      with (- (val N b2 + 1) * snd (mult_inverse N a2)) by ring.
    rewrite Z.mul_1_l, (mod_eqb_root N a2 _ (val N b2 + 1) x Hinv).
    rewrite Z.mul_0_l, Z.add_0_l.
    unfold max_value. rewrite (Z.mod_small (two_to_N N - 1)) by lia.
    pose proof (mod_range N (a2 * x + val N b2)) as HR.
    assert (Hiff : (a2 * x + (val N b2 + 1)) mod two_to_N N = 0
                   <-> (a2 * x + val N b2) mod two_to_N N = two_to_N N - 1).
    { rewrite Z.add_assoc, <- Zplus_mod_idemp_l.
      word_cases (two_to_N N) ((a2 * x + val N b2) mod two_to_N N + 1);
        lia. }
    unfold is_positive.
    destruct (sign c),
      (Z.eqb_spec ((a2 * x + (val N b2 + 1)) mod two_to_N N) 0) as [E|E],
      (Z.leb_spec (two_to_N N - 1) ((a2 * x + val N b2) mod two_to_N N));
      cbn [negb xorb]; try reflexivity; exfalso; lia.
  - destruct (linear_shape N a1 a2 e1 e2 m c fi b1 b2 Hl G Ha1 Ha2)
      as (a & lo & hi & p & _ & Hall).
    destruct (Hall b1 b2 Hb1 Hb2)
      as (T & lo_val & hi_val & Hshape & Hlo & Hhi & Hne & Hin_range & _).
    rewrite Hshape. intros _.
    match goal with
    | |- context [finish_linear N c T a lo_val lo hi_val hi b1 e1 b2 e2 ?f] =>
        destruct (finish_linear_fields N c T a lo_val hi_val lo hi
                                       b1 e1 b2 e2 f) as [Hi Hc]
    end.
    rewrite Hi, Hc. rewrite to_interval_contains by assumption.
    specialize (Hin_range x). destruct T.
    + rewrite Hin_range. destruct (sign c); reflexivity.
    + rewrite Hin_range. destruct (sign c), (_ <=? _); reflexivity.
  - intros Hc. exfalso. apply Hc.
    apply (match_linear4_sentinel N c a1 a2 b1 e1 b2 e2 fi G).
Qed.

(** The symbolic end points of a proper interval evaluate to its
    concrete ones. *)
Lemma ule_pattern_ends (m : pattern) (c : signed_constraint)
      (fi : fi_record) (M : pvar -> Z) (l h : pdd) (l_val h_val : Z) :
  In m (ule_patterns N) ->
  fst (m c a1 b1 e1 a2 b2 e2 fi) = true ->
  is_val b1 = true -> is_val b2 = true ->
  0 <= a1 < two_to_N N -> 0 <= a2 < two_to_N N ->
  eval N M e1 = val N b1 -> eval N M e2 = val N b2 ->
  let r := snd (m c a1 b1 e1 a2 b2 e2 fi) in
  coeff r <> -1 ->
  interval r = proper l l_val h h_val ->
  eval N M l = l_val /\ eval N M h = h_val.
Proof.
  intros Hin G Hb1 Hb2 Ha1 Ha2 He1 He2.
  destruct (ule_patterns_cases N m Hin) as [-> | [-> | [Hl | ->]]]; cbv zeta.
  - destruct (match_zero_result N c a1 a2 b1 e1 b2 e2 fi G) as (_ & Hi & _).
    rewrite Hi. intros _.
    assert (Hlo : eval N M (mul N (neg N e1)
                              (mk_val N (snd (mult_inverse N a1))))
                  = (- val N b1 * snd (mult_inverse N a1)) mod two_to_N N).
    { apply eval_of_eqmod. rewrite eval_mul, eval_neg, eval_mk_val, He1.
      reflexivity. }
    assert (Hhi : eval N M (add N (mul N (neg N e1)
                                     (mk_val N (snd (mult_inverse N a1))))
                              (one N))
                  = ((- val N b1 * snd (mult_inverse N a1)) mod two_to_N N + 1)
                      mod two_to_N N).
    { apply eval_of_eqmod. rewrite eval_add, Hlo. unfold one.
      rewrite eval_mk_val. reflexivity. }
    destruct (is_positive c); intros E; injection E as <- <- <- <-;
      split; assumption.
  - destruct (match_max_result N c a1 a2 b1 e1 b2 e2 fi G) as (_ & Hi).
    rewrite Hi. intros _.
    assert (Hlo : eval N M (mul N (sub N (mk_val N (-1)) e2)
                              (mk_val N (snd (mult_inverse N a2))))
                  = ((-1 - val N b2) * snd (mult_inverse N a2))
                      mod two_to_N N).
    { apply eval_of_eqmod.
      rewrite eval_mul, eval_sub, !eval_mk_val, He2. reflexivity. }
    assert (Hhi : eval N M (add N (mul N (sub N (mk_val N (-1)) e2)
                                     (mk_val N (snd (mult_inverse N a2))))
                              (one N))
                  = (((-1 - val N b2) * snd (mult_inverse N a2))
                       mod two_to_N N + 1) mod two_to_N N).
    { apply eval_of_eqmod. rewrite eval_add, Hlo. unfold one.
      rewrite eval_mk_val. reflexivity. }
    destruct (is_positive c); intros E; injection E as <- <- <- <-;
      split; assumption.
  - destruct (linear_shape N a1 a2 e1 e2 m c fi b1 b2 Hl G Ha1 Ha2)
      as (a & lo & hi & p & _ & Hall).
    destruct (Hall b1 b2 Hb1 Hb2)
      as (T & lo_val & hi_val & Hshape & _ & _ & _ & _ & Hev).
    rewrite Hshape. intros _.
    match goal with
    | |- context [finish_linear N c T a lo_val lo hi_val hi b1 e1 b2 e2 ?f] =>
        destruct (finish_linear_fields N c T a lo_val hi_val lo hi
                                       b1 e1 b2 e2 f) as [Hi _]
    end.
    rewrite Hi. destruct (Hev M He1 He2) as (Hlo & Hhi & _).
    apply (to_interval_ends N c T a lo_val hi_val lo hi M); assumption.
  - intros Hc. exfalso. apply Hc.
    apply (match_linear4_sentinel N c a1 a2 b1 e1 b2 e2 fi G).
Qed.

(** The coefficient next to a proper interval is the sentinel or at most
    half the modulus. *)
Lemma ule_pattern_coeff (m : pattern) (c : signed_constraint)
      (fi : fi_record) :
  In m (ule_patterns N) ->
  fst (m c a1 b1 e1 a2 b2 e2 fi) = true ->
  is_val b1 = true -> is_val b2 = true ->
  0 <= a1 < two_to_N N -> 0 <= a2 < two_to_N N ->
  let r := snd (m c a1 b1 e1 a2 b2 e2 fi) in
  interval r = full \/ interval r = empty \/ coeff r = -1 \/
  (0 < coeff r /\ 2 * coeff r <= two_to_N N).
Proof.
  intros Hin G Hb1 Hb2 Ha1 Ha2.
  destruct (ule_patterns_cases N m Hin) as [-> | [-> | [Hl | ->]]]; cbv zeta.
  - destruct (match_zero_result N c a1 a2 b1 e1 b2 e2 fi G) as (Hc & _).
    rewrite Hc. rewrite match_zero_fst in G.
    apply andb_true_iff in G. destruct G as [G _].
    apply andb_true_iff in G. destruct G as [Godd _].
    pose proof (odd_modulus N a1 Godd Ha1). right. right. right. lia.
  - destruct (match_max_result N c a1 a2 b1 e1 b2 e2 fi G) as (Hc & _).
    rewrite Hc. rewrite match_max_fst in G.
    apply andb_true_iff in G. destruct G as [_ Godd].
    pose proof (odd_modulus N a2 Godd Ha2). right. right. right. lia.
  - destruct (linear_shape N a1 a2 e1 e2 m c fi b1 b2 Hl G Ha1 Ha2)
      as (a & lo & hi & p & Ha & Hall).
    destruct (Hall b1 b2 Hb1 Hb2)
      as (T & lo_val & hi_val & Hshape & _).
    rewrite Hshape.
    match goal with
    | |- context [finish_linear N c T a lo_val lo hi_val hi b1 e1 b2 e2 ?f] =>
        destruct (finish_linear_fields N c T a lo_val hi_val lo hi
                                       b1 e1 b2 e2 f) as [Hi Hc]
    end.
    rewrite Hi, Hc.
    destruct (to_interval_coeff N c T a lo_val hi_val lo hi Ha) as [Hk Ht].
    destruct T.
    + destruct (proj2 Ht eq_refl) as [E|E]; auto.
    + right. right. right. exact Hk.
  - right. right. left.
    apply (match_linear4_sentinel N c a1 a2 b1 e1 b2 e2 fi G).
Qed.

(** A pattern answers the negated constraint with the same coefficient
    and the complementary interval. *)
Lemma ule_pattern_negation (m : pattern) (c : signed_constraint)
      (fi fi' : fi_record) :
  In m (ule_patterns N) ->
  fst (m c a1 b1 e1 a2 b2 e2 fi) = true ->
  is_val b1 = true -> is_val b2 = true ->
  0 <= a1 < two_to_N N -> 0 <= a2 < two_to_N N ->
  let r := snd (m c a1 b1 e1 a2 b2 e2 fi) in
  let r' := snd (m (sc_not c) a1 b1 e1 a2 b2 e2 fi') in
  fst (m (sc_not c) a1 b1 e1 a2 b2 e2 fi') = true /\
  coeff r' = coeff r /\
  forall y, currently_contains (interval r') y
            = negb (currently_contains (interval r) y).
Proof.
  intros Hin G Hb1 Hb2 Ha1 Ha2.
  pose proof (two_to_N_pos N) as HP.
  assert (Hunit : forall lo hi n y,
             1 < two_to_N N -> 0 <= n < two_to_N N ->
             currently_contains
               (if is_positive (sc_not c)
                then proper hi ((n + 1) mod two_to_N N) lo n
                else proper lo n hi ((n + 1) mod two_to_N N)) y
             = negb (currently_contains
                       (if is_positive c
                        then proper hi ((n + 1) mod two_to_N N) lo n
                        else proper lo n hi ((n + 1) mod two_to_N N)) y)).
  { intros lo hi n y H1 Hn.
    assert (Hd : n <> (n + 1) mod two_to_N N)
      by (word_cases (two_to_N N) (n + 1); lia).
    unfold is_positive, sc_not. cbn [sign].
    destruct (sign c); cbn [negb currently_contains].
    - apply in_range_swap. exact Hd.
    - rewrite (in_range_swap _ _ y Hd), negb_involutive. reflexivity. }
  destruct (ule_patterns_cases N m Hin) as [-> | [-> | [Hl | ->]]]; cbv zeta.
  - assert (G' : fst (match_zero N (sc_not c) a1 b1 e1 a2 b2 e2 fi') = true)
      by (rewrite match_zero_fst in *; exact G).
    destruct (match_zero_result N c a1 a2 b1 e1 b2 e2 fi G) as (Hc & Hi & _).
    destruct (match_zero_result N (sc_not c) a1 a2 b1 e1 b2 e2 fi' G')
      as (Hc' & Hi' & _).
    rewrite Hc, Hi, Hc', Hi'. split; [exact G'|split; [reflexivity|]].
    intros y. rewrite match_zero_fst in G.
    apply andb_true_iff in G. destruct G as [G _].
    apply andb_true_iff in G. destruct G as [Godd _].
    apply Hunit; [apply (odd_modulus N a1 Godd Ha1)|apply mod_range].
  - assert (G' : fst (match_max N (sc_not c) a1 b1 e1 a2 b2 e2 fi') = true)
      by (rewrite match_max_fst in *; exact G).
    destruct (match_max_result N c a1 a2 b1 e1 b2 e2 fi G) as (Hc & Hi).
    destruct (match_max_result N (sc_not c) a1 a2 b1 e1 b2 e2 fi' G')
      as (Hc' & Hi').
    rewrite Hc, Hi, Hc', Hi'. split; [exact G'|split; [reflexivity|]].
    intros y. rewrite match_max_fst in G.
    apply andb_true_iff in G. destruct G as [_ Godd].
    apply Hunit; [apply (odd_modulus N a2 Godd Ha2)|apply mod_range].
  - assert (G' : fst (m (sc_not c) a1 b1 e1 a2 b2 e2 fi') = true).
    { destruct Hl as [-> | [-> | ->]];
        rewrite ?match_linear1_fst, ?match_linear2_fst, ?match_linear3_fst
          in *; exact G. }
    split; [exact G'|].
    destruct (linear_shape N a1 a2 e1 e2 m c fi b1 b2 Hl G Ha1 Ha2)
      as (a & lo & hi & p & _ & Hall).
    destruct (Hall b1 b2 Hb1 Hb2)
      as (T & lo_val & hi_val & Hshape & Hlo & Hhi & Hne & _).
    rewrite !Hshape.
    match goal with
    | |- context [finish_linear N c T a lo_val lo hi_val hi b1 e1 b2 e2 ?f] =>
        destruct (finish_linear_fields N c T a lo_val hi_val lo hi
                                       b1 e1 b2 e2 f) as [Hi Hc]
    end.
    match goal with
    | |- context [finish_linear N (sc_not c) T a lo_val lo hi_val hi
                                b1 e1 b2 e2 ?f] =>
        destruct (finish_linear_fields N (sc_not c) T a lo_val hi_val lo hi
                                       b1 e1 b2 e2 f) as [Hi' Hc']
    end.
    rewrite Hi, Hc, Hi', Hc'.
    apply to_interval_negation; assumption.
  - assert (G' : fst (match_linear4 N (sc_not c) a1 b1 e1 a2 b2 e2 fi')
                 = true)
      by (rewrite match_linear4_fst in *; exact G).
    split; [exact G'|].
    rewrite match_linear4_fst in G. unfold match_linear4. rewrite G.
    cbn [snd].
    destruct (finish_linear_fields N c false (-1) a1 a2 b1 b2 b1 e1 b2 e2 fi)
      as [Hi Hc].
    destruct (finish_linear_fields N (sc_not c) false (-1) a1 a2 b1 b2
                                   b1 e1 b2 e2 fi') as [Hi' Hc'].
    rewrite Hi, Hc, Hi', Hc'.
    apply to_interval_negation; try assumption.
    intros _. apply andb_true_iff in G. destruct G as [G _].
    apply andb_true_iff in G. destruct G as [G _].
    apply negb_true_iff, Z.eqb_neq in G. exact G.
Qed.

End PatternSemantics.

(* ================================================================== *)
(** * The two paths of the matcher, read backwards *)
(* ================================================================== *)

Section PathInversion.

Variable N : nat.
Variable s : core.
Variable v : pvar.

Lemma linear_decompose_ranges (p : pdd) (a : Z) (e b : pdd)
      (emitted : list signed_constraint) :
  linear_decompose N s v p [] = ((true, a, e, b), emitted) ->
  is_val b = true /\ 0 <= a < two_to_N N.
Proof.
  intros E.
  destruct (linear_decompose_inv N s v _ _ _ _ _ _ E eq_refl)
    as (q & _ & _ & _ & Hb & [(_ & -> & _)|(_ & _ & -> & _)]);
    (split; [exact Hb|apply val_range]).
Qed.

(** Whatever a decomposition emits holds in every model that carries the
    assignment, whether the decomposition succeeds or not. *)
Lemma linear_decompose_emitted (p : pdd) (M : pvar -> Z) :
  agrees_off v (assigned s) M ->
  all_hold N M (snd (linear_decompose N s v p [])).
Proof.
  intros HM. unfold linear_decompose.
  destruct (degree v p) as [|[|n]] eqn:Hd.
  - cbn [fst snd]. change (is_val (zero N)) with true. cbn [negb snd].
    constructor.
  - assert (Hle : (degree v p <= 1)%nat) by lia.
    destruct (decompose_split N v p Hle (factor N v 1 p)) as (Hq & _).
    { rewrite Hd. reflexivity. }
    cbv zeta.
    destruct (is_val (fst (factor N v 1 p))); cbn [negb snd]; [constructor|].
    destruct (is_val (core_subst N s (fst (factor N v 1 p))));
      cbn [negb snd]; [|constructor].
    apply all_hold_one, holds_core_eq. symmetry.
    apply (eval_subst N v); assumption.
  - constructor.
Qed.

Lemma ule_pattern_fst (m : pattern) (c c' : signed_constraint)
      (a1 a2 : Z) (b1 e1 b2 e2 : pdd) (fi fi' : fi_record) :
  In m (ule_patterns N) ->
  fst (m c' a1 b1 e1 a2 b2 e2 fi') = fst (m c a1 b1 e1 a2 b2 e2 fi).
Proof.
  unfold ule_patterns. cbn [In].
  intros [<- | [<- | [<- | [<- | [<- | [<- | []]]]]]].
  - rewrite !match_zero_fst. reflexivity.
  - rewrite !match_max_fst. reflexivity.
  - rewrite !match_linear1_fst. reflexivity.
  - rewrite !match_linear2_fst. reflexivity.
  - rewrite !match_linear3_fst. reflexivity.
  - rewrite !match_linear4_fst. reflexivity.
Qed.

Lemma first_match_at (pre : list pattern) (m : pattern) (post : list pattern)
      (c : signed_constraint) (a1 a2 : Z) (b1 e1 b2 e2 : pdd)
      (fi : fi_record) :
  Forall (fun m' => fst (m' c a1 b1 e1 a2 b2 e2 fi) = false) pre ->
  fst (m c a1 b1 e1 a2 b2 e2 fi) = true ->
  first_match (pre ++ m :: post) c a1 b1 e1 a2 b2 e2 fi
  = (true, snd (m c a1 b1 e1 a2 b2 e2 fi)).
Proof.
  intros Hpre Hm. induction Hpre as [|m' pre Hf _ IH]; cbn [app first_match].
  - rewrite Hm. reflexivity.
  - rewrite Hf. exact IH.
Qed.

(** A success of the inequality path is the success of one pattern, on
    two decompositions that both succeeded. *)
Lemma get_interval_ule_inv (c : signed_constraint) (fi fi' : fi_record) :
  get_interval_ule N s c v fi = (true, fi') ->
  exists a1 e1 b1 em1 a2 e2 b2 em2 pre m post,
    linear_decompose N s v (ule_lhs c) [] = ((true, a1, e1, b1), em1) /\
    linear_decompose N s v (ule_rhs c) [] = ((true, a2, e2, b2), em2) /\
    ule_patterns N = pre ++ m :: post /\
    (forall c' fi0,
        Forall (fun m' => fst (m' c' a1 b1 e1 a2 b2 e2 fi0) = false) pre /\
        fst (m c' a1 b1 e1 a2 b2 e2 fi0) = true) /\
    fi' = snd (m c a1 b1 e1 a2 b2 e2
                 (set_side_cond (side_cond fi ++ em1 ++ em2)
                                (push_src c (set_coeff 1 fi)))).
Proof.
  intros H.
  destruct (linear_decompose N s v (ule_lhs c) [])
    as [[[[ok1 a1] e1] b1] em1] eqn:E1.
  destruct (linear_decompose N s v (ule_rhs c) [])
    as [[[[ok2 a2] e2] b2] em2] eqn:E2.
  rewrite (get_interval_ule_eq N s c v fi _ _ _ _ _ _ _ _ _ _ E1 E2) in H.
  destruct ok1; [|discriminate]. destruct ok2; [|discriminate].
  cbn [negb orb] in H.
  destruct ((a1 =? 0) && (a2 =? 0)) eqn:G; [discriminate|].
  set (fi2 := set_side_cond (side_cond fi ++ em1 ++ em2)
                            (push_src c (set_coeff 1 fi))) in *.
  destruct (first_match_spec c a1 a2 b1 e1 b2 e2 (ule_patterns N) fi2
              (ule_patterns_match N c a1 a2 b1 e1 b2 e2 fi2 G))
    as (pre & m & post & Hps & Hpre & Hm & Hfm).
  rewrite Hfm in H. injection H as <-.
  exists a1, e1, b1, em1, a2, e2, b2, em2, pre, m, post.
  repeat split; try assumption.
  - rewrite Forall_forall in *. intros m' Hin.
    rewrite (ule_pattern_fst m' c c' a1 a2 b1 e1 b2 e2 fi2 fi0).
    + apply Hpre, Hin.
    + rewrite Hps. apply in_or_app. left. exact Hin.
  - rewrite (ule_pattern_fst m c c' a1 a2 b1 e1 b2 e2 fi2 fi0).
    + exact Hm.
    + rewrite Hps. apply in_elt.
Qed.

(** A success of the overflow path: one operand is the bare variable;
    either the other operand does not decompose and the constraint is
    positive, or it is a constant, and then there are three outcomes. *)
Lemma get_interval_umul_ovfl_inv (c : signed_constraint)
      (fi fi' : fi_record) :
  get_interval_umul_ovfl N s c v fi = (true, fi') ->
  exists X Y eX bX emX okY aY eY bY emY,
    (X = ovfl_p c /\ Y = ovfl_q c \/ X = ovfl_q c /\ Y = ovfl_p c) /\
    linear_decompose N s v X [] = ((true, 1, eX, bX), emX) /\
    is_zero N bX = true /\
    linear_decompose N s v Y [] = ((okY, aY, eY, bY), emY) /\
    let fi2 := set_side_cond
                 (side_cond fi
                    ++ snd (linear_decompose N s v (ovfl_p c) [])
                    ++ snd (linear_decompose N s v (ovfl_q c) []))
                 (push_src c (set_coeff 1 fi)) in
    let A := max_value N / val N bY in
    ((okY = false /\ is_positive c = true /\
      fi' = set_interval (proper (mk_val N 0) 0 (mk_val N 2) 2) fi2) \/
     (okY = true /\ aY = 0 /\
      ((is_positive c = true /\ val N bY <= 1 /\
        fi' = push_side_cond (cs_ule eY (mk_val N 1))
                             (set_interval full fi2)) \/
       (is_positive c = true /\ 1 < val N bY /\
        fi' = push_side_cond
                (cs_ule eY (mk_val N ((max_value N + A) / A - 1)))
                (set_interval
                   (proper (mk_val N 0) 0 (mk_val N (A + 1)) (A + 1)) fi2)) \/
       (is_positive c = false /\ 1 < val N bY /\
        fi' = push_side_cond
                (cs_ule (mk_val N (val N bY)) eY)
                (set_interval
                   (proper (mk_val N (A + 1)) (A + 1) (mk_val N 0) 0)
                   fi2))))).
Proof.
  intros H.
  destruct (linear_decompose N s v (ovfl_p c) [])
    as [[[[ok1 a1] e1] b1] em1] eqn:E1.
  destruct (linear_decompose N s v (ovfl_q c) [])
    as [[[[ok2 a2] e2] b2] em2] eqn:E2.
  rewrite (get_interval_umul_ovfl_eq N s v c fi _ _ _ _ _ _ _ _ _ _ E1 E2
             _ eq_refl) in H.
  cbn [snd]. cbv zeta in H. revert H.
  set (fi2 := set_side_cond (side_cond fi ++ em1 ++ em2)
                            (push_src c (set_coeff 1 fi))).
  assert (Main : forall X Y aX eX bX emX aY eY bY emY,
    (X = ovfl_p c /\ Y = ovfl_q c \/ X = ovfl_q c /\ Y = ovfl_p c) ->
    linear_decompose N s v X [] = ((true, aX, eX, bX), emX) ->
    linear_decompose N s v Y [] = ((true, aY, eY, bY), emY) ->
    (if negb (aX =? 1) || negb (aY =? 0)
     then (false, set_side_cond (side_cond fi) fi2)
     else
       if negb (is_zero N bX)
       then (false, set_side_cond (side_cond fi) fi2)
       else
         if is_positive c
         then
           if val N bY <=? 1
           then (true, push_side_cond (cs_ule eY (mk_val N 1))
                                      (set_interval full fi2))
           else
             if (4 <=? max_value N / val N bY)
                && (4 <=? (max_value N + max_value N / val N bY)
                          / (max_value N / val N bY) - 1)
             then (false, set_side_cond (side_cond fi) fi2)
             else
               (true,
                push_side_cond
                  (cs_ule eY
                     (mk_val N ((max_value N + max_value N / val N bY)
                                / (max_value N / val N bY) - 1)))
                  (set_interval
                     (proper (mk_val N 0) 0
                             (mk_val N (max_value N / val N bY + 1))
                             (max_value N / val N bY + 1)) fi2))
         else
           if val N bY <=? 1
           then (false, set_side_cond (side_cond fi) fi2)
           else
             if (4 <=? max_value N / val N bY + 1)
                && (4 <=? (max_value N + (max_value N / val N bY + 1))
                          / (max_value N / val N bY + 1))
             then (false, set_side_cond (side_cond fi) fi2)
             else
               (true,
                push_side_cond (cs_ule (mk_val N (val N bY)) eY)
                  (set_interval
                     (proper (mk_val N (max_value N / val N bY + 1))
                             (max_value N / val N bY + 1)
                             (mk_val N 0) 0) fi2))) = (true, fi') ->
    exists X Y eX bX emX okY aY eY bY emY,
      (X = ovfl_p c /\ Y = ovfl_q c \/ X = ovfl_q c /\ Y = ovfl_p c) /\
      linear_decompose N s v X [] = ((true, 1, eX, bX), emX) /\
      is_zero N bX = true /\
      linear_decompose N s v Y [] = ((okY, aY, eY, bY), emY) /\
      ((okY = false /\ is_positive c = true /\
        fi' = set_interval (proper (mk_val N 0) 0 (mk_val N 2) 2) fi2) \/
       (okY = true /\ aY = 0 /\
        ((is_positive c = true /\ val N bY <= 1 /\
          fi' = push_side_cond (cs_ule eY (mk_val N 1))
                               (set_interval full fi2)) \/
         (is_positive c = true /\ 1 < val N bY /\
          fi' = push_side_cond
                  (cs_ule eY
                     (mk_val N ((max_value N + max_value N / val N bY)
                                / (max_value N / val N bY) - 1)))
                  (set_interval
                     (proper (mk_val N 0) 0
                             (mk_val N (max_value N / val N bY + 1))
                             (max_value N / val N bY + 1)) fi2)) \/
         (is_positive c = false /\ 1 < val N bY /\
          fi' = push_side_cond
                  (cs_ule (mk_val N (val N bY)) eY)
                  (set_interval
                     (proper (mk_val N (max_value N / val N bY + 1))
                             (max_value N / val N bY + 1) (mk_val N 0) 0)
                     fi2)))))).
  { intros X Y aX eX bX emX aY eY bY emY HXY EX EY.
    destruct (Z.eqb_spec aX 1) as [->|]; cbn [negb orb];
      [|intros H; discriminate H].
    destruct (Z.eqb_spec aY 0) as [->|]; cbn [negb orb];
      [|intros H; discriminate H].
    destruct (is_zero N bX) eqn:Hz; cbn [negb]; [|intros H; discriminate H].
    intros H.
    exists X, Y, eX, bX, emX, true, 0, eY, bY, emY.
    split; [exact HXY|]. split; [exact EX|]. split; [exact Hz|].
    split; [exact EY|]. right. split; [reflexivity|]. split; [reflexivity|].
    revert H.
    destruct (is_positive c); destruct (Z.leb_spec (val N bY) 1) as [Hle|Hgt].
    - intros H. injection H as <-. left. repeat split. exact Hle.
    - destruct (_ && _); [intros H; discriminate H|].
      intros H. injection H as <-. right. left. repeat split. exact Hgt.
    - intros H. discriminate H.
    - destruct (_ && _); [intros H; discriminate H|].
      intros H. injection H as <-. right. right. repeat split. exact Hgt. }
  destruct ok1, ok2; cbn [andb negb orb].
  - (* both decompose *)
    destruct ((a2 =? 1) && (a1 =? 0)).
    + apply (Main (ovfl_q c) (ovfl_p c) a2 e2 b2 em2 a1 e1 b1 em1);
        auto.
    + apply (Main (ovfl_p c) (ovfl_q c) a1 e1 b1 em1 a2 e2 b2 em2);
        auto.
  - (* only the first decomposes *)
    destruct (Z.eqb_spec a1 1) as [->|]; cbn [andb];
      [|intros H; discriminate H].
    destruct (is_zero N b1) eqn:Hz; cbn [andb]; [|intros H; discriminate H].
    destruct (is_positive c) eqn:Hpos; [|intros H; discriminate H].
    intros H. injection H as <-.
    exists (ovfl_p c), (ovfl_q c), e1, b1, em1, false, a2, e2, b2, em2.
    split; [left; split; reflexivity|]. split; [exact E1|].
    split; [exact Hz|]. split; [exact E2|]. left. repeat split.
  - (* only the second decomposes *)
    destruct (Z.eqb_spec a2 1) as [->|]; cbn [andb];
      [|intros H; discriminate H].
    destruct (is_zero N b2) eqn:Hz; cbn [andb]; [|intros H; discriminate H].
    destruct (is_positive c) eqn:Hpos; [|intros H; discriminate H].
    intros H. injection H as <-.
    exists (ovfl_q c), (ovfl_p c), e2, b2, em2, false, a1, e1, b1, em1.
    split; [right; split; reflexivity|]. split; [exact E2|].
    split; [exact Hz|]. split; [exact E1|]. left. repeat split.
  - intros H. discriminate H.
Qed.

End PathInversion.

(* ================================================================== *)
(** * Soundness of the matcher *)
(* ================================================================== *)

Section OverflowBounds.

Variable N : nat.

(** The bounds asserted on the overflow path, for a multiplier [b] with
    [1 < b <= 2^N - 1]: with [A = div(bound, b)] and
    [B = div(bound + A, A) - 1], [b <= B], [A * B <= bound] and both
    [(A + 1) * B] and [A * (B + 1)] exceed the bound. *)
Lemma overflow_bounds_positive (b : Z) :
  1 < b <= max_value N ->
  let A := max_value N / b in
  let B := (max_value N + A) / A - 1 in
  0 < A /\ b <= B /\ A * B <= max_value N /\
  (A + 1) * B > max_value N /\ A * (B + 1) > max_value N.
Proof.
  intros Hb. cbv zeta.
  pose proof (Z.div_mod (max_value N) b ltac:(lia)) as Hdm.
  pose proof (Z.mod_pos_bound (max_value N) b ltac:(lia)) as Hm.
  set (A := max_value N / b) in *.
  assert (HA : 0 < A).
  { destruct (Z_lt_le_dec 0 A) as [|Hle]; [assumption|]. exfalso. nia. }
  pose proof (Z.div_mod (max_value N + A) A ltac:(lia)) as Hdm2.
  pose proof (Z.mod_pos_bound (max_value N + A) A ltac:(lia)) as Hm2.
  set (B := (max_value N + A) / A - 1).
  assert (HB : (max_value N + A) / A = B + 1) by (unfold B; ring).
  rewrite HB in Hdm2. clearbody B A.
  assert (HbB : b <= B).
  { destruct (Z_le_gt_dec b B) as [|Hgt]; [assumption|]. exfalso.
    assert (A * (B + 1) <= A * b) by nia. nia. }
  assert (H1 : (A + 1) * b <= (A + 1) * B) by nia.
  split; [exact HA|]. split; [exact HbB|]. split; [|split]; nia.
Qed.

Lemma overflow_bounds_negative (b : Z) :
  1 < b <= max_value N ->
  let A := max_value N / b + 1 in
  let B := (max_value N + A) / A in
  A * B > max_value N /\ A * (B - 1) <= max_value N /\
  (A - 1) * B <= max_value N /\ b >= B.
Proof.
  intros Hb. cbv zeta.
  pose proof (Z.div_mod (max_value N) b ltac:(lia)) as Hdm.
  pose proof (Z.mod_pos_bound (max_value N) b ltac:(lia)) as Hm.
  assert (HA0 : 0 <= max_value N / b) by (apply Z.div_pos; lia).
  set (A := max_value N / b + 1).
  assert (Hq : max_value N / b = A - 1) by (unfold A; ring).
  rewrite Hq in Hdm. clear Hq.
  assert (HA : 0 < A) by (unfold A; lia).
  pose proof (Z.div_mod (max_value N + A) A ltac:(lia)) as Hdm2.
  pose proof (Z.mod_pos_bound (max_value N + A) A ltac:(lia)) as Hm2.
  set (B := (max_value N + A) / A) in *. clearbody B A.
  assert (HbB : b >= B).
  { destruct (Z_lt_le_dec b B) as [Hlt|]; [|lia]. exfalso.
    assert (A * (b + 1) <= A * B) by nia. nia. }
  assert (H1 : (A - 1) * B <= (A - 1) * b) by nia.
  split; [|split; [|split]]; nia.
Qed.

Lemma in_low_range (X A : Z) :
  0 <= A -> 0 <= X ->
  in_range 0 (A + 1) X = (X <=? A).
Proof.
  intros HA HX. unfold in_range.
  destruct (Z.leb_spec 0 (A + 1)); [|lia].
  destruct (Z.leb_spec 0 X), (Z.ltb_spec X (A + 1)), (Z.leb_spec X A);
    cbn [andb]; try reflexivity; lia.
Qed.

Lemma in_high_range (X A : Z) :
  0 <= A -> 0 <= X ->
  in_range (A + 1) 0 X = negb (X <=? A).
Proof.
  intros HA HX. unfold in_range.
  destruct (Z.leb_spec (A + 1) 0); [lia|].
  destruct (Z.ltb_spec X 0), (Z.leb_spec (A + 1) X), (Z.leb_spec X A);
    cbn [orb negb]; try reflexivity; lia.
Qed.

(** A word overflows against [b] exactly when it exceeds [div(bound, b)]. *)
Lemma overflow_threshold (X b : Z) :
  0 <= X -> 0 < b ->
  (two_to_N N <=? X * b) = negb (X <=? max_value N / b).
Proof.
  intros HX Hb. unfold max_value.
  pose proof (Z.div_mod (two_to_N N - 1) b ltac:(lia)) as Hdm.
  pose proof (Z.mod_pos_bound (two_to_N N - 1) b ltac:(lia)) as Hm.
  destruct (Z.leb_spec (two_to_N N) (X * b)),
    (Z.leb_spec X ((two_to_N N - 1) / b)); cbn [negb];
    try reflexivity; exfalso; nia.
Qed.

End OverflowBounds.

Section MatcherSound.

Variable N : nat.
Variable s : core.
Variable v : pvar.
Variable M : pvar -> Z.

Hypothesis M_agrees : agrees_off v (assigned s) M.

Lemma holds_ule_value (c : signed_constraint) (L R : Z) :
  is_ule c = true ->
  eval N M (ule_lhs c) = L -> eval N M (ule_rhs c) = R ->
  holds N M c = xorb (sign c) (L <=? R).
Proof.
  unfold holds, is_ule, ule_lhs, ule_rhs.
  destruct (body c); try discriminate.
  intros _ <- <-. reflexivity.
Qed.

Lemma holds_ovfl_value (c : signed_constraint) (X Y : pdd) (x y : Z) :
  is_umul_ovfl c = true ->
  (X = ovfl_p c /\ Y = ovfl_q c \/ X = ovfl_q c /\ Y = ovfl_p c) ->
  eval N M X = x -> eval N M Y = y ->
  holds N M c = xorb (sign c) (two_to_N N <=? x * y).
Proof.
  unfold holds, is_umul_ovfl, ovfl_p, ovfl_q.
  destruct (body c); try discriminate.
  intros _ [[-> ->]|[-> ->]] <- <-; cbn [eval_constraint]; [reflexivity|].
  rewrite Z.mul_comm. reflexivity.
Qed.

(** The operand that decomposes to the bare variable has the value of the
    variable. *)
Lemma bare_variable_value (X eX bX : pdd) (emX : list signed_constraint) :
  linear_decompose N s v X [] = ((true, 1, eX, bX), emX) ->
  is_zero N bX = true ->
  eval N M X = M v mod two_to_N N.
Proof.
  intros EX Hz.
  destruct (linear_decompose_agrees N s v _ _ _ _ _ _ M EX eq_refl M_agrees)
    as (_ & _ & _ & _ & ->).
  unfold is_zero in Hz. apply andb_true_iff in Hz. destruct Hz as [_ Hz].
  apply Z.eqb_eq in Hz. rewrite Hz, Z.mul_1_l, Z.add_0_r. reflexivity.
Qed.

Lemma constant_operand_value (Y eY bY : pdd) (emY : list signed_constraint) :
  linear_decompose N s v Y [] = ((true, 0, eY, bY), emY) ->
  eval N M Y = val N bY /\ eval N M eY = val N bY.
Proof.
  intros EY.
  destruct (linear_decompose_agrees N s v _ _ _ _ _ _ M EY eq_refl M_agrees)
    as (_ & _ & He & _ & ->).
  split; [|exact He].
  rewrite Z.mul_0_l, Z.add_0_l. apply Z.mod_small, val_range.
Qed.

Lemma get_interval_ule_forbids (c : signed_constraint)
      (fi fi' : fi_record) :
  is_ule c = true ->
  get_interval_ule N s c v fi = (true, fi') ->
  coeff fi' <> -1 ->
  currently_contains (interval fi') ((coeff fi' * M v) mod two_to_N N)
  = negb (holds N M c).
Proof.
  intros Hk H Hc.
  destruct (get_interval_ule_inv N s v c fi fi' H)
    as (a1 & e1 & b1 & em1 & a2 & e2 & b2 & em2 & pre & m & post
        & E1 & E2 & Hps & Hfst & ->).
  destruct (linear_decompose_agrees N s v _ _ _ _ _ _ M E1 eq_refl M_agrees)
    as (Hb1 & Ha1 & _ & _ & Hl).
  destruct (linear_decompose_agrees N s v _ _ _ _ _ _ M E2 eq_refl M_agrees)
    as (Hb2 & Ha2 & _ & _ & Hr).
  rewrite (holds_ule_value c _ _ Hk Hl Hr).
  apply ule_pattern_forbids; try assumption.
  - rewrite Hps. apply in_elt.
  - apply Hfst.
Qed.

Lemma get_interval_umul_ovfl_forbids (c : signed_constraint)
      (fi fi' : fi_record) :
  is_umul_ovfl c = true ->
  get_interval_umul_ovfl N s c v fi = (true, fi') ->
  currently_contains (interval fi') ((coeff fi' * M v) mod two_to_N N)
  = true ->
  holds N M c = false.
Proof.
  intros Hk H.
  destruct (get_interval_umul_ovfl_inv N s v c fi fi' H)
    as (X & Y & eX & bX & emX & okY & aY & eY & bY & emY
        & HXY & EX & Hz & EY & Hcase).
  cbv zeta in Hcase.
  pose proof (bare_variable_value X eX bX emX EX Hz) as HX.
  pose proof (mod_range N (M v)) as Hx.
  pose proof (two_to_N_pos N) as HP.
  pose proof (val_range N bY) as HbY.
  destruct Hcase as [(-> & Hpos & ->)|(-> & -> & Hcase)].
  - cbn [interval coeff set_interval set_side_cond push_src set_coeff
         currently_contains].
    rewrite Z.mul_1_l. intros Hin.
    rewrite (holds_ovfl_value c X Y _ _ Hk HXY HX eq_refl).
    unfold is_positive in Hpos. apply negb_true_iff in Hpos. rewrite Hpos.
    cbn [xorb]. apply Z.leb_gt.
    pose proof (eval_range N M Y) as HY.
    unfold in_range in Hin. cbn in Hin.
    apply andb_true_iff in Hin. destruct Hin as [_ Hin].
    apply Z.ltb_lt in Hin. nia.
  - destruct (constant_operand_value Y eY bY emY EY) as [HY _].
    rewrite (holds_ovfl_value c X Y _ _ Hk HXY HX HY).
    destruct Hcase as [(Hpos & Hle & ->)|[(Hpos & Hgt & ->)|(Hpos & Hgt & ->)]];
      cbn [interval coeff set_interval set_side_cond push_src set_coeff
           push_side_cond currently_contains];
      rewrite ?Z.mul_1_l; unfold is_positive in Hpos.
    + intros _. apply negb_true_iff in Hpos. rewrite Hpos. cbn [xorb].
      apply Z.leb_gt. nia.
    + apply negb_true_iff in Hpos. rewrite Hpos. cbn [xorb].
      rewrite in_low_range by (try apply Z.div_pos; unfold max_value; lia).
      rewrite (overflow_threshold N _ (val N bY)) by lia.
      intros ->. reflexivity.
    + apply negb_false_iff in Hpos. rewrite Hpos. cbn [xorb].
      rewrite in_high_range by (try apply Z.div_pos; unfold max_value; lia).
      rewrite (overflow_threshold N _ (val N bY)) by lia.
      intros ->. reflexivity.
Qed.

Lemma get_interval_ule_side_conds (c : signed_constraint)
      (fi fi' : fi_record) :
  get_interval_ule N s c v fi = (true, fi') ->
  src fi' = src fi ++ [c] /\ deps fi' = deps fi /\
  bit_width fi' = bit_width fi /\
  exists extra,
    side_cond fi' = side_cond fi ++ extra /\ all_hold N M extra.
Proof.
  intros H.
  destruct (get_interval_ule_inv N s v c fi fi' H)
    as (a1 & e1 & b1 & em1 & a2 & e2 & b2 & em2 & pre & m & post
        & E1 & E2 & Hps & Hfst & ->).
  destruct (linear_decompose_agrees N s v _ _ _ _ _ _ M E1 eq_refl M_agrees)
    as (Hb1 & Ha1 & He1 & Hem1 & _).
  destruct (linear_decompose_agrees N s v _ _ _ _ _ _ M E2 eq_refl M_agrees)
    as (Hb2 & Ha2 & He2 & Hem2 & _).
  assert (Hin : In m (ule_patterns N)) by (rewrite Hps; apply in_elt).
  set (fi2 := set_side_cond (side_cond fi ++ em1 ++ em2)
                            (push_src c (set_coeff 1 fi))).
  destruct (ule_pattern_rest N a1 a2 b1 e1 b2 e2 m c fi2 Hin
              (proj2 (Hfst c fi2)) Hb1 Hb2 Ha1 Ha2)
    as (Hsrc & Hd & Hw & extra & Hx & Hh).
  subst fi2.
  rewrite Hsrc, Hd, Hw, Hx. cbn [src deps bit_width side_cond set_side_cond
                                  push_src set_coeff].
  repeat split. exists (em1 ++ em2 ++ extra). split.
  - rewrite <- !app_assoc. reflexivity.
  - apply all_hold_app. split; [exact Hem1|].
    apply all_hold_app. split; [exact Hem2|]. apply Hh; assumption.
Qed.

Lemma get_interval_umul_ovfl_side_conds (c : signed_constraint)
      (fi fi' : fi_record) :
  get_interval_umul_ovfl N s c v fi = (true, fi') ->
  src fi' = src fi ++ [c] /\ deps fi' = deps fi /\
  bit_width fi' = bit_width fi /\
  exists extra,
    side_cond fi' = side_cond fi ++ extra /\ all_hold N M extra.
Proof.
  intros H.
  destruct (get_interval_umul_ovfl_inv N s v c fi fi' H)
    as (X & Y & eX & bX & emX & okY & aY & eY & bY & emY
        & HXY & EX & Hz & EY & Hcase).
  cbv zeta in Hcase.
  pose proof (linear_decompose_emitted N s v (ovfl_p c) M M_agrees) as Hp.
  pose proof (linear_decompose_emitted N s v (ovfl_q c) M M_agrees) as Hq.
  pose proof (two_to_N_pos N) as HP.
  pose proof (val_range N bY) as HbY.
  destruct Hcase as [(-> & Hpos & ->)|(-> & -> & Hcase)].
  - cbn [src deps bit_width side_cond set_interval set_side_cond push_src
         set_coeff]. repeat split.
    eexists. split; [reflexivity|].
    apply all_hold_app. split; assumption.
  - destruct (constant_operand_value Y eY bY emY EY) as [_ HeY].
    assert (Hext : forall sc i,
               holds N M sc = true ->
               exists extra,
                 side_cond
                   (push_side_cond sc
                      (set_interval i
                         (set_side_cond
                            (side_cond fi
                               ++ snd (linear_decompose N s v (ovfl_p c) [])
                               ++ snd (linear_decompose N s v (ovfl_q c) []))
                            (push_src c (set_coeff 1 fi)))))
                 = side_cond fi ++ extra /\ all_hold N M extra).
    { intros sc i Hsc.
      cbn [side_cond push_side_cond set_interval set_side_cond].
      eexists. split; [rewrite <- !app_assoc; reflexivity|].
      apply all_hold_app. split; [exact Hp|].
      apply all_hold_app. split; [exact Hq|].
      apply all_hold_one, Hsc. }
    destruct Hcase as [(Hpos & Hle & ->)|[(Hpos & Hgt & ->)|(Hpos & Hgt & ->)]];
      (split; [reflexivity|split; [reflexivity|split; [reflexivity|]]]);
      apply Hext; unfold holds, cs_ule; cbn [sign body eval_constraint xorb];
      rewrite HeY; apply Z.leb_le.
    + rewrite (eval_of_eqmod N M _ 1 (eval_mk_val N M 1)).
      word_cases (two_to_N N) 1; lia.
    + assert (Hb : 1 < val N bY <= max_value N) by (unfold max_value; lia).
      destruct (overflow_bounds_positive N (val N bY) Hb)
        as (HA & HB & HAB & _).
      cbv zeta in HA, HB, HAB.
      rewrite (eval_of_eqmod N M _ _ (eval_mk_val N M _)).
      rewrite Z.mod_small; [exact HB|]. unfold max_value in *. nia.
    + rewrite (eval_of_eqmod N M _ _ (eval_mk_val N M _)).
      rewrite Z.mod_small by assumption. lia.
Qed.

End MatcherSound.

Section MatcherRecord.

Variable N : nat.
Variable s : core.
Variable v : pvar.

Lemma four_le_two_to_N : (2 <= N)%nat -> 4 <= two_to_N N.
Proof.
  intros H. unfold two_to_N. change 4 with (2 ^ 2).
  apply Z.pow_le_mono_r; lia.
Qed.

Lemma two_le_two_to_N : (1 <= N)%nat -> 2 <= two_to_N N.
Proof.
  intros H. unfold two_to_N. change 2 with (2 ^ 1) at 1.
  apply Z.pow_le_mono_r; lia.
Qed.

(** The threshold of the overflow path is a word. *)
Lemma threshold_range (b : Z) :
  1 < b < two_to_N N -> 0 < max_value N / b + 1 < two_to_N N.
Proof.
  intros Hb. unfold max_value.
  pose proof (Z.div_mod (two_to_N N - 1) b ltac:(lia)) as Hdm.
  pose proof (Z.mod_pos_bound (two_to_N N - 1) b ltac:(lia)) as Hm.
  assert (0 <= (two_to_N N - 1) / b) by (apply Z.div_pos; lia).
  nia.
Qed.

Lemma decomposable_ovfl (c : signed_constraint) (X Y : pdd) (aX aY : Z)
      (eX bX eY bY : pdd) (emX emY : list signed_constraint) (okY : bool) :
  is_umul_ovfl c = true ->
  (X = ovfl_p c /\ Y = ovfl_q c \/ X = ovfl_q c /\ Y = ovfl_p c) ->
  linear_decompose N s v X [] = ((true, aX, eX, bX), emX) ->
  linear_decompose N s v Y [] = ((okY, aY, eY, bY), emY) ->
  decomposable N s v c = okY.
Proof.
  unfold decomposable, decomposes, is_umul_ovfl, ovfl_p, ovfl_q.
  destruct (body c); try discriminate.
  intros _ [[-> ->]|[-> ->]] -> ->; cbn [fst andb]; [reflexivity|].
  apply andb_true_r.
Qed.

Lemma get_interval_umul_ovfl_ends (c : signed_constraint)
      (fi fi' : fi_record) (M : pvar -> Z) (l h : pdd) (l_val h_val : Z) :
  is_umul_ovfl c = true ->
  get_interval_umul_ovfl N s c v fi = (true, fi') ->
  decomposable N s v c = true \/ (2 <= N)%nat ->
  interval fi' = proper l l_val h h_val ->
  eval N M l = l_val /\ eval N M h = h_val.
Proof.
  intros Hk H Hd.
  destruct (get_interval_umul_ovfl_inv N s v c fi fi' H)
    as (X & Y & eX & bX & emX & okY & aY & eY & bY & emY
        & HXY & EX & Hz & EY & Hcase).
  cbv zeta in Hcase.
  pose proof (two_to_N_pos N) as HP.
  pose proof (val_range N bY) as HbY.
  assert (Hval : forall z, 0 <= z < two_to_N N -> eval N M (mk_val N z) = z).
  { intros z Hz'. rewrite (eval_of_eqmod N M _ z (eval_mk_val N M z)).
    apply Z.mod_small, Hz'. }
  destruct Hcase as [(-> & Hpos & ->)|(-> & -> & Hcase)].
  - cbn [interval set_interval]. intros E. injection E as <- <- <- <-.
    destruct Hd as [Hd|Hd].
    + rewrite (decomposable_ovfl c X Y _ _ _ _ _ _ _ _ _ Hk HXY EX EY) in Hd.
      discriminate Hd.
    + pose proof (four_le_two_to_N Hd). split; apply Hval; lia.
  - destruct Hcase as [(Hpos & Hle & ->)|[(Hpos & Hgt & ->)|(Hpos & Hgt & ->)]];
      cbn [interval set_interval push_side_cond set_side_cond]; intros E;
      [discriminate E| |];
      injection E as <- <- <- <-;
      pose proof (threshold_range (val N bY) ltac:(lia));
      split; apply Hval; lia.
Qed.

Lemma get_interval_ule_ends (c : signed_constraint)
      (fi fi' : fi_record) (M : pvar -> Z) (l h : pdd) (l_val h_val : Z) :
  agrees_off v (assigned s) M ->
  get_interval_ule N s c v fi = (true, fi') ->
  coeff fi' <> -1 ->
  interval fi' = proper l l_val h h_val ->
  eval N M l = l_val /\ eval N M h = h_val.
Proof.
  intros HM H.
  destruct (get_interval_ule_inv N s v c fi fi' H)
    as (a1 & e1 & b1 & em1 & a2 & e2 & b2 & em2 & pre & m & post
        & E1 & E2 & Hps & Hfst & ->).
  destruct (linear_decompose_agrees N s v _ _ _ _ _ _ M E1 eq_refl HM)
    as (Hb1 & Ha1 & He1 & _ & _).
  destruct (linear_decompose_agrees N s v _ _ _ _ _ _ M E2 eq_refl HM)
    as (Hb2 & Ha2 & He2 & _ & _).
  apply ule_pattern_ends; try assumption.
  - rewrite Hps. apply in_elt.
  - apply Hfst.
Qed.

Lemma get_interval_ule_coeff (c : signed_constraint) (fi fi' : fi_record) :
  get_interval_ule N s c v fi = (true, fi') ->
  interval fi' = full \/ interval fi' = empty \/ coeff fi' = -1 \/
  (0 < coeff fi' /\ 2 * coeff fi' <= two_to_N N).
Proof.
  intros H.
  destruct (get_interval_ule_inv N s v c fi fi' H)
    as (a1 & e1 & b1 & em1 & a2 & e2 & b2 & em2 & pre & m & post
        & E1 & E2 & Hps & Hfst & ->).
  destruct (linear_decompose_ranges N s v _ _ _ _ _ E1) as (Hb1 & Ha1).
  destruct (linear_decompose_ranges N s v _ _ _ _ _ E2) as (Hb2 & Ha2).
  apply ule_pattern_coeff; try assumption.
  - rewrite Hps. apply in_elt.
  - apply Hfst.
Qed.

Lemma get_interval_umul_ovfl_coeff (c : signed_constraint)
      (fi fi' : fi_record) :
  get_interval_umul_ovfl N s c v fi = (true, fi') -> coeff fi' = 1.
Proof.
  intros H.
  destruct (get_interval_umul_ovfl_inv N s v c fi fi' H)
    as (X & Y & eX & bX & emX & okY & aY & eY & bY & emY
        & _ & _ & _ & _ & Hcase).
  cbv zeta in Hcase.
  destruct Hcase as [(_ & _ & ->)|(_ & _ & [(_ & _ & ->)|[(_ & _ & ->)|(_ & _ & ->)]])];
    reflexivity.
Qed.

Lemma get_interval_ule_negation (c : signed_constraint)
      (fi1 fi2 r1 r2 : fi_record) :
  get_interval_ule N s c v fi1 = (true, r1) ->
  get_interval_ule N s (sc_not c) v fi2 = (true, r2) ->
  coeff r2 = coeff r1 /\
  forall y, currently_contains (interval r2) y
            = negb (currently_contains (interval r1) y).
Proof.
  intros H1 H2.
  destruct (get_interval_ule_inv N s v c fi1 r1 H1)
    as (a1 & e1 & b1 & em1 & a2 & e2 & b2 & em2 & pre & m & post
        & E1 & E2 & Hps & Hfst & ->).
  destruct (linear_decompose_ranges N s v _ _ _ _ _ E1) as (Hb1 & Ha1).
  destruct (linear_decompose_ranges N s v _ _ _ _ _ E2) as (Hb2 & Ha2).
  assert (Hin : In m (ule_patterns N)) by (rewrite Hps; apply in_elt).
  assert (Hnz : (a1 =? 0) && (a2 =? 0) = false).
  { destruct ((a1 =? 0) && (a2 =? 0)) eqn:G; [|reflexivity].
    rewrite (get_interval_ule_eq N s c v fi1 _ _ _ _ _ _ _ _ _ _ E1 E2) in H1.
    cbn [negb orb] in H1. rewrite G in H1. discriminate H1. }
  assert (E1' : linear_decompose N s v (ule_lhs (sc_not c)) []
                = ((true, a1, e1, b1), em1)) by exact E1.
  assert (E2' : linear_decompose N s v (ule_rhs (sc_not c)) []
                = ((true, a2, e2, b2), em2)) by exact E2.
  rewrite (get_interval_ule_eq N s (sc_not c) v fi2 _ _ _ _ _ _ _ _ _ _
             E1' E2') in H2.
  cbn [negb orb] in H2. rewrite Hnz in H2. rewrite Hps in H2.
  set (fi2' := set_side_cond (side_cond fi2 ++ em1 ++ em2)
                             (push_src (sc_not c) (set_coeff 1 fi2))) in *.
  rewrite (first_match_at pre m post (sc_not c) a1 a2 b1 e1 b2 e2 fi2'
             (proj1 (Hfst (sc_not c) fi2')) (proj2 (Hfst (sc_not c) fi2')))
    in H2.
  injection H2 as <-.
  set (fi1' := set_side_cond (side_cond fi1 ++ em1 ++ em2)
                             (push_src c (set_coeff 1 fi1))).
  destruct (ule_pattern_negation N a1 a2 b1 e1 b2 e2 m c fi1' fi2' Hin
              (proj2 (Hfst c fi1')) Hb1 Hb2 Ha1 Ha2) as (_ & Hc & Hi).
  split; assumption.
Qed.

Lemma get_interval_umul_ovfl_negation (c : signed_constraint)
      (fi1 fi2 r1 r2 : fi_record) :
  get_interval_umul_ovfl N s c v fi1 = (true, r1) ->
  get_interval_umul_ovfl N s (sc_not c) v fi2 = (true, r2) ->
  coeff r2 = coeff r1 /\
  forall y, currently_contains (interval r2) y
            = negb (currently_contains (interval r1) y).
Proof.
  intros H1 H2.
  rewrite (get_interval_umul_ovfl_coeff _ _ _ H1),
    (get_interval_umul_ovfl_coeff _ _ _ H2).
  split; [reflexivity|].
  destruct (get_interval_umul_ovfl_inv N s v c fi1 r1 H1)
    as (X & Y & eX & bX & emX & okY & aY & eY & bY & emY
        & HXY & EX & Hz & EY & Hcase).
  destruct (get_interval_umul_ovfl_inv N s v (sc_not c) fi2 r2 H2)
    as (X' & Y' & eX' & bX' & emX' & okY' & aY' & eY' & bY' & emY'
        & HXY' & EX' & Hz' & EY' & Hcase').
  cbv zeta in Hcase, Hcase'.
  change (ovfl_p (sc_not c)) with (ovfl_p c) in *.
  change (ovfl_q (sc_not c)) with (ovfl_q c) in *.
  assert (Hpn : is_positive (sc_not c) = negb (is_positive c)).
  { unfold is_positive, sc_not. cbn [sign]. reflexivity. }
  pose proof (val_range N bY) as HbY.
  pose proof (two_to_N_pos N) as HP.
  (* the two runs read the same decompositions *)
  assert (Hsame : okY = true -> okY' = true -> aY = 0 -> aY' = 0 ->
                  bY' = bY).
  { intros -> -> -> ->.
    destruct HXY as [[-> ->]|[-> ->]], HXY' as [[-> ->]|[-> ->]];
      congruence. }
  destruct Hcase as [(-> & Hpos & ->)|(-> & -> & Hcase)].
  - (* the bare variable: the negated run needs both decompositions *)
    exfalso.
    destruct Hcase' as [(_ & Hpos' & _)|(-> & -> & _)].
    + rewrite Hpn, Hpos in Hpos'. discriminate Hpos'.
    + destruct HXY as [[-> ->]|[-> ->]], HXY' as [[-> ->]|[-> ->]];
        congruence.
  - destruct Hcase' as [(-> & Hpos' & ->)|(-> & -> & Hcase')].
    + exfalso.
      destruct HXY as [[-> ->]|[-> ->]], HXY' as [[-> ->]|[-> ->]];
        congruence.
    + specialize (Hsame eq_refl eq_refl eq_refl eq_refl). subst bY'.
      assert (Hne : 0 <> max_value N / val N bY + 1).
      { assert (0 <= max_value N / val N bY)
          by (apply Z_div_nonneg_nonneg; unfold max_value; lia). lia. }
      destruct Hcase as [(Hpos & Hle & ->)|[(Hpos & Hgt & ->)|(Hpos & Hgt & ->)]];
        destruct Hcase'
          as [(Hpos' & Hle' & ->)|[(Hpos' & Hgt' & ->)|(Hpos' & Hgt' & ->)]];
        rewrite Hpn, Hpos in Hpos'; try discriminate Hpos'; try lia;
        cbn [interval set_interval push_side_cond set_side_cond
             currently_contains]; intros y.
      * apply in_range_swap. exact Hne.
      * rewrite (in_range_swap _ _ y Hne), negb_involutive. reflexivity.
Qed.

End MatcherRecord.

(** X1. Soundness of the matcher: let [get_interval] succeed with a
    coefficient other than the sentinel [-1].  Under every model that
    carries the current assignment on the other variables, if the word
    [coeff * v] lies inside the returned interval then the constraint is
    false.  This holds on every path, the interval [[0, 2)] for an operand
    that does not decompose included. *)
Theorem get_interval_forbids
        (N : nat) (s : core) (c : signed_constraint) (v : pvar)
        (fi fi' : fi_record) (M : pvar -> Z) :
  get_interval N s c v fi = (true, fi') ->
  coeff fi' <> -1 ->
  agrees_off v (assigned s) M ->
  currently_contains (interval fi') ((coeff fi' * M v) mod two_to_N N)
  = true ->
  holds N M c = false.
Proof.
  intros H Hc HM Hin. unfold get_interval in H.
  destruct (is_ule c) eqn:Hu.
  - pose proof (get_interval_ule_forbids N s v M HM c _ fi' Hu H Hc) as E.
    rewrite Hin in E. destruct (holds N M c); [discriminate E|reflexivity].
  - destruct (is_umul_ovfl c) eqn:Ho; [|discriminate].
    apply (get_interval_umul_ovfl_forbids N s v M HM c _ fi' Ho H Hin).
Qed.

(** X2. The side conditions that [get_interval] adds on success are
    appended to those of the record on entry, and every one of them holds
    in every model that carries the current assignment on the other
    variables. *)
Theorem get_interval_side_conditions
        (N : nat) (s : core) (c : signed_constraint) (v : pvar)
        (fi fi' : fi_record) :
  get_interval N s c v fi = (true, fi') ->
  exists extra,
    side_cond fi' = side_cond fi ++ extra /\
    forall M : pvar -> Z,
      agrees_off v (assigned s) M ->
      Forall (fun sc => holds N M sc = true) extra.
Proof.
  intros H. unfold get_interval in H.
  set (M0 := fun x => match assigned s x with Some a => a | None => 0 end).
  assert (HM0 : agrees_off v (assigned s) M0).
  { intros x a _ Hx. unfold M0. rewrite Hx. reflexivity. }
  assert (Hpath : forall M, agrees_off v (assigned s) M ->
            exists extra,
              side_cond fi' = side_cond fi ++ extra /\ all_hold N M extra).
  { intros M HM. destruct (is_ule c).
    - destruct (get_interval_ule_side_conds N s v M HM c _ fi' H)
        as (_ & _ & _ & extra & Hx & Hh).
      exists extra. split; assumption.
    - destruct (is_umul_ovfl c); [|discriminate].
      destruct (get_interval_umul_ovfl_side_conds N s v M HM c _ fi' H)
        as (_ & _ & _ & extra & Hx & Hh).
      exists extra. split; assumption. }
  destruct (Hpath M0 HM0) as (extra & Hx & _).
  exists extra. split; [exact Hx|].
  intros M HM. destruct (Hpath M HM) as (extra' & Hx' & Hh).
  rewrite Hx in Hx'. apply app_inv_head in Hx'. subst extra'. exact Hh.
Qed.

(** X3. On success [get_interval] has appended the constraint to [src],
    has set the bit width to the width of the variable and has left the
    dependencies alone.  A record that comes in with no source leaves with
    exactly one. *)
Theorem get_interval_success_record
        (N : nat) (s : core) (c : signed_constraint) (v : pvar)
        (fi fi' : fi_record) :
  get_interval N s c v fi = (true, fi') ->
  src fi' = src fi ++ [c] /\
  deps fi' = deps fi /\
  bit_width fi' = size s v /\
  (src fi = [] -> length (src fi') = 1%nat).
Proof.
  intros H. unfold get_interval in H.
  set (M0 := fun x => match assigned s x with Some a => a | None => 0 end).
  assert (HM0 : agrees_off v (assigned s) M0).
  { intros x a _ Hx. unfold M0. rewrite Hx. reflexivity. }
  assert (Hr : src fi' = src fi ++ [c] /\ deps fi' = deps fi /\
               bit_width fi' = size s v).
  { destruct (is_ule c).
    - destruct (get_interval_ule_side_conds N s v M0 HM0 c _ fi' H)
        as (Hs & Hd & Hw & _).
      repeat split; assumption.
    - destruct (is_umul_ovfl c); [|discriminate].
      destruct (get_interval_umul_ovfl_side_conds N s v M0 HM0 c _ fi' H)
        as (Hs & Hd & Hw & _).
      repeat split; assumption. }
  destruct Hr as (Hs & Hd & Hw). repeat split; try assumption.
  intros E. rewrite Hs, E. reflexivity.
Qed.

(** X4. The symbolic end points of a proper interval returned by
    [get_interval] evaluate, in every model that carries the current
    assignment on the other variables, to the concrete end points stored
    next to them; for the interval [[0, 2)] of an operand that does not
    decompose this needs a width of at least two bits. *)
Theorem get_interval_end_points
        (N : nat) (s : core) (c : signed_constraint) (v : pvar)
        (fi fi' : fi_record) (M : pvar -> Z)
        (lo hi : pdd) (lo_val hi_val : Z) :
  get_interval N s c v fi = (true, fi') ->
  coeff fi' <> -1 ->
  decomposable N s v c = true \/ (2 <= N)%nat ->
  agrees_off v (assigned s) M ->
  interval fi' = proper lo lo_val hi hi_val ->
  eval N M lo = lo_val /\ eval N M hi = hi_val /\
  0 <= lo_val < two_to_N N /\ 0 <= hi_val < two_to_N N.
Proof.
  intros H Hc Hd HM Hi. unfold get_interval in H.
  assert (He : eval N M lo = lo_val /\ eval N M hi = hi_val).
  { destruct (is_ule c) eqn:Hu.
    - apply (get_interval_ule_ends N s v c _ fi' M lo hi lo_val hi_val
               HM H Hc Hi).
    - destruct (is_umul_ovfl c) eqn:Ho; [|discriminate].
      apply (get_interval_umul_ovfl_ends N s v c _ fi' M lo hi lo_val hi_val
               Ho H Hd Hi). }
  destruct He as [<- <-]. repeat split; apply eval_range.
Qed.

(** X5. The coefficient next to a proper interval returned by
    [get_interval] is normalised: it is the sentinel [-1] of
    [match_linear4], or it is positive and at most half the modulus. *)
Theorem get_interval_coefficient
        (N : nat) (s : core) (c : signed_constraint) (v : pvar)
        (fi fi' : fi_record) (lo hi : pdd) (lo_val hi_val : Z) :
  (1 <= N)%nat ->
  get_interval N s c v fi = (true, fi') ->
  interval fi' = proper lo lo_val hi hi_val ->
  coeff fi' = -1 \/ (0 < coeff fi' /\ 2 * coeff fi' <= two_to_N N).
Proof.
  intros HN H Hi. unfold get_interval in H.
  destruct (is_ule c).
  - destruct (get_interval_ule_coeff N s v c _ fi' H) as [E|[E|[E|E]]];
      try (rewrite E in Hi; discriminate Hi); auto.
  - destruct (is_umul_ovfl c); [|discriminate].
    rewrite (get_interval_umul_ovfl_coeff N s v c _ fi' H).
    pose proof (two_le_two_to_N N HN). right. lia.
Qed.

(** X6. Negation: when [get_interval] succeeds on a constraint and on its
    negation, the two records carry the same coefficient and their
    intervals are complements of one another: a word is forbidden by one
    exactly when it is not forbidden by the other. *)
Theorem get_interval_negation
        (N : nat) (s : core) (c : signed_constraint) (v : pvar)
        (fi1 fi2 r1 r2 : fi_record) :
  get_interval N s c v fi1 = (true, r1) ->
  get_interval N s (sc_not c) v fi2 = (true, r2) ->
  coeff r2 = coeff r1 /\
  forall y, currently_contains (interval r2) y
            = negb (currently_contains (interval r1) y).
Proof.
  intros H1 H2. unfold get_interval in H1, H2.
  change (is_ule (sc_not c)) with (is_ule c) in H2.
  change (is_umul_ovfl (sc_not c)) with (is_umul_ovfl c) in H2.
  destruct (is_ule c).
  - apply (get_interval_ule_negation N s v c _ _ r1 r2 H1 H2).
  - destruct (is_umul_ovfl c); [|discriminate].
    apply (get_interval_umul_ovfl_negation N s v c _ _ r1 r2 H1 H2).
Qed.

(** X7. When the inequality path succeeds: on an inequality
    [get_interval] answers [true] exactly when both sides decompose
    linearly in the variable and the variable has a non-zero coefficient on
    one of them.  No inequality of that kind is left without an
    interval. *)
Theorem get_interval_ule_succeeds
        (N : nat) (s : core) (c : signed_constraint) (v : pvar)
        (fi : fi_record) :
  is_ule c = true ->
  fst (get_interval N s c v fi)
  = decomposable N s v c
    && negb ((coefficient N s v (ule_lhs c) =? 0)
             && (coefficient N s v (ule_rhs c) =? 0)).
Proof.
  intros Hu. unfold get_interval. rewrite Hu.
  destruct (linear_decompose N s v (ule_lhs c) [])
    as [[[[ok1 a1] e1] b1] em1] eqn:E1.
  destruct (linear_decompose N s v (ule_rhs c) [])
    as [[[[ok2 a2] e2] b2] em2] eqn:E2.
  rewrite (get_interval_ule_eq N s c v _ _ _ _ _ _ _ _ _ _ _ E1 E2).
  assert (Hd : decomposable N s v c = ok1 && ok2).
  { unfold decomposable, decomposes, is_ule, ule_lhs, ule_rhs in *.
    destruct (body c); try discriminate. rewrite E1, E2. reflexivity. }
  rewrite Hd. unfold coefficient. rewrite E1, E2. cbn [fst snd].
  destruct ok1, ok2; cbn [negb orb andb]; try reflexivity.
  destruct ((a1 =? 0) && (a2 =? 0)) eqn:G; [reflexivity|].
  cbn [negb]. apply ule_patterns_match. exact G.
Qed.

(** X8. The bounds asserted on the overflow path hold: for a multiplier
    [b] with [1 < b <= 2^N - 1], the threshold [A = div(2^N - 1, b)] of the
    positive case and the bound [B = div(2^N - 1 + A, A) - 1] of its side
    condition satisfy [b <= B], [A * B <= 2^N - 1], [(A + 1) * B > 2^N - 1]
    and [A * (B + 1) > 2^N - 1]; the threshold [A' = A + 1] of the negated
    case and [B' = div(2^N - 1 + A', A')] satisfy [A' * B' > 2^N - 1],
    [A' * (B' - 1) <= 2^N - 1], [(A' - 1) * B' <= 2^N - 1] and
    [b >= B']. *)
Theorem umul_ovfl_asserted_bounds (N : nat) (b : Z) :
  1 < b <= max_value N ->
  (let A := max_value N / b in
   let B := (max_value N + A) / A - 1 in
   b <= B /\ A * B <= max_value N /\
   (A + 1) * B > max_value N /\ A * (B + 1) > max_value N) /\
  (let A := max_value N / b + 1 in
   let B := (max_value N + A) / A in
   A * B > max_value N /\ A * (B - 1) <= max_value N /\
   (A - 1) * B <= max_value N /\ b >= B).
Proof.
  intros Hb. split.
  - destruct (overflow_bounds_positive N b Hb) as (_ & H). exact H.
  - apply (overflow_bounds_negative N b Hb).
Qed.

(* ================================================================== *)
(** * When a polynomial decomposes *)
(* ================================================================== *)

Section Completeness.

Variable N : nat.
Variable s : core.
Variable v : pvar.

Lemma only_vars_cons (ok : pvar -> bool) (m : monomial) (c : Z) (p : pdd) :
  only_vars ok ((m, c) :: p) = forallb ok m && only_vars ok p.
Proof. reflexivity. Qed.

Lemma only_vars_app (ok : pvar -> bool) (p q : pdd) :
  only_vars ok (p ++ q) = only_vars ok p && only_vars ok q.
Proof. unfold only_vars. apply forallb_app. Qed.

Lemma only_vars_mk_term (ok : pvar -> bool) (m : monomial) (c : Z) :
  forallb ok m = true -> only_vars ok (mk_term N m c) = true.
Proof.
  intros H. unfold mk_term. destruct (_ =? 0); [reflexivity|].
  rewrite only_vars_cons, H. reflexivity.
Qed.

Lemma only_vars_add (ok : pvar -> bool) (p q : pdd) :
  only_vars ok p = true -> only_vars ok q = true ->
  only_vars ok (add N p q) = true.
Proof.
  revert q. induction p as [|[m1 c1] p IHp]; intros q Hp Hq.
  - exact Hq.
  - induction q as [|[m2 c2] q IHq].
    + rewrite add_nil_r. exact Hp.
    + rewrite add_cons. rewrite only_vars_cons in Hp, Hq.
      apply andb_true_iff in Hp, Hq.
      destruct Hp as [Hm1 Hp], Hq as [Hm2 Hq].
      destruct (mono_compare m1 m2).
      * rewrite only_vars_app, (only_vars_mk_term ok m1 _ Hm1).
        apply IHp; assumption.
      * rewrite only_vars_cons, Hm1. apply IHp; [assumption|].
        rewrite only_vars_cons, Hm2, Hq. reflexivity.
      * rewrite only_vars_cons, Hm2. apply IHq. exact Hq.
Qed.

Lemma forallb_drop_var (ok : pvar -> bool) (m : monomial) :
  forallb ok m = true -> forallb ok (drop_var v 1 m) = true.
Proof.
  induction m as [|x r IH]; [intros; reflexivity|].
  cbn [forallb drop_var]. intros H. apply andb_true_iff in H.
  destruct H as [Hx Hr]. destruct (Nat.eqb x v).
  - destruct r; exact Hr.
  - cbn [forallb]. rewrite Hx. apply IH, Hr.
Qed.

Lemma only_vars_factor (ok : pvar -> bool) (p : pdd) :
  only_vars ok p = true ->
  only_vars ok (fst (factor N v 1 p)) = true /\
  only_vars ok (snd (factor N v 1 p)) = true.
Proof.
  induction p as [|[m c] p IH]; [intros; split; reflexivity|].
  rewrite only_vars_cons. intros H. apply andb_true_iff in H.
  destruct H as [Hm Hp]. destruct (IH Hp) as [Hq He].
  rewrite factor_cons. destruct (1 <=? var_count v m)%nat; cbn [fst snd].
  - split; [|exact He].
    apply only_vars_add; [|exact Hq].
    apply only_vars_mk_term, forallb_drop_var, Hm.
  - split; [exact Hq|].
    apply only_vars_add; [|exact He]. apply only_vars_mk_term, Hm.
Qed.

(** A power product without [v], all of whose variables but [v] have a
    value, collapses to a number. *)
Lemma subst_mono_closed (m : monomial) :
  var_count v m = O ->
  forallb (fun x => Nat.eqb x v || is_assigned (assigned s) x) m = true ->
  snd (subst_mono (assigned s) m) = [].
Proof.
  induction m as [|x r IH]; [reflexivity|].
  cbn [var_count forallb]. intros Hc H.
  apply andb_true_iff in H. destruct H as [Hx Hr].
  destruct (Nat.eqb x v); [discriminate Hc|].
  cbn [orb] in Hx. unfold is_assigned in Hx.
  rewrite subst_mono_cons.
  destruct (assigned s x); [|discriminate Hx].
  cbn [snd]. apply IH; assumption.
Qed.

Lemma subst_closed (p : pdd) :
  degree v p = O -> assigned_but (assigned s) v p = true ->
  is_val (core_subst N s p) = true.
Proof.
  unfold assigned_but, core_subst.
  induction p as [|[m c] p IH]; [reflexivity|].
  rewrite degree_cons, only_vars_cons. intros Hd H.
  apply andb_true_iff in H. destruct H as [Hm Hp].
  unfold subst in *. cbn [fold_right fst snd].
  apply is_val_add.
  - rewrite (subst_mono_closed m) by (assumption || lia).
    apply is_val_mk_term.
  - apply IH; [lia|exact Hp].
Qed.

End Completeness.

(** X9. Completeness of [linear_decompose]: a polynomial of degree at most
    one in [v], all of whose other variables have a value in the current
    assignment, decomposes. *)
Theorem linear_decompose_complete
        (N : nat) (s : core) (v : pvar) (p : pdd)
        (side : list signed_constraint) :
  (degree v p <= 1)%nat ->
  assigned_but (assigned s) v p = true ->
  exists a e b side',
    linear_decompose N s v p side = ((true, a, e, b), side').
Proof.
  intros Hd Hp.
  destruct (decompose_split N v p Hd _ eq_refl) as (Hq & He & _).
  assert (Hvars : assigned_but (assigned s) v
                    (fst (match degree v p with
                          | O => (zero N, p)
                          | S _ => factor N v 1 p
                          end)) = true /\
                  assigned_but (assigned s) v
                    (snd (match degree v p with
                          | O => (zero N, p)
                          | S _ => factor N v 1 p
                          end)) = true).
  { destruct (degree v p).
    - split; [rewrite zero_nil; reflexivity|exact Hp].
    - apply only_vars_factor, Hp. }
  destruct Hvars as [Vq Ve].
  pose proof (subst_closed N s v _ Hq Vq) as Sq.
  pose proof (subst_closed N s v _ He Ve) as Se.
  unfold linear_decompose.
  destruct (degree v p) as [|[|n]]; [| |lia]; cbv zeta in *;
    cbn [fst snd] in *.
  - change (is_val (zero N)) with true. cbn [negb]. rewrite Se.
    eexists. eexists. eexists. eexists. reflexivity.
  - destruct (is_val (fst (factor N v 1 p))); cbn [negb].
    + rewrite Se. eexists. eexists. eexists. eexists. reflexivity.
    + rewrite Sq. cbn [negb]. rewrite Se.
      eexists. eexists. eexists. eexists. reflexivity.
Qed.

(** X10. What a successful decomposition hands back: the coefficient is a
    word, the remainder [e] does not mention [v], [b] is the remainder
    under the current assignment and is a constant, and in every model that
    carries the assignment on the other variables the remainder has the
    value [b]. *)
Theorem linear_decompose_remainder
        (N : nat) (s : core) (v : pvar) (p : pdd)
        (side : list signed_constraint) (a : Z) (e b : pdd)
        (side' : list signed_constraint) :
  linear_decompose N s v p side = ((true, a, e, b), side') ->
  0 <= a < two_to_N N /\
  degree v e = O /\
  b = core_subst N s e /\ is_val b = true /\
  forall M : pvar -> Z,
    agrees_off v (assigned s) M -> eval N M e = val N b.
Proof.
  intros H. rewrite linear_decompose_side in H.
  destruct (linear_decompose N s v p []) as [[[[ok a'] e'] b'] em] eqn:E.
  cbn [fst snd] in H. injection H as -> -> -> -> _.
  destruct (linear_decompose_inv N s v _ _ _ _ _ _ E eq_refl)
    as (q & Hd & Hqe & Hb & Hv & _).
  destruct (decompose_split N v p Hd (q, e) Hqe) as (_ & He & _).
  destruct (linear_decompose_ranges N s v _ _ _ _ _ E) as (_ & Ha).
  split; [exact Ha|]. split; [exact He|]. split; [exact Hb|].
  split; [exact Hv|]. intros M HM.
  apply (linear_decompose_agrees N s v _ _ _ _ _ _ M E eq_refl HM).
Qed.

(* ================================================================== *)
(** * The two patterns for a side that does not decompose *)
(* ================================================================== *)

Section NonDecomposing.

Variable N : nat.

(** The one word of a unit range. *)
Lemma unit_range_member (n u : Z) :
  0 <= n < two_to_N N -> 0 <= u < two_to_N N ->
  in_range n ((n + 1) mod two_to_N N) u = true -> u = n.
Proof.
  intros Hn Hu. pose proof (two_to_N_pos N) as HP.
  destruct (Z.eq_dec (two_to_N N) 1) as [E1|E1].
  - intros _. lia.
  - rewrite (in_range_unit (two_to_N N)) by lia.
    intros E. apply Z.eqb_eq, E.
Qed.

Lemma root_of_unit (a inv b x : Z) :
  eqmod N (a * inv) 1 ->
  x mod two_to_N N = (- b * inv) mod two_to_N N ->
  (a * x + b) mod two_to_N N = 0.
Proof.
  intros Hinv E.
  pose proof (mod_eqb_root N a inv b x Hinv) as H.
  rewrite E, Z.eqb_refl in H. symmetry in H. apply Z.eqb_eq, H.
Qed.

End NonDecomposing.

(** X11. [match_non_zero] is sound: it only matches a negated inequality
    [not (a1 * v + b1 <= q)] with [a1] one or odd, it sets the coefficient
    to one, and every word in the interval it returns is a root of
    [a1 * v + b1], so that the left side is zero there and the negated
    inequality fails, whatever the value of [q]. *)
Theorem match_non_zero_forbids
        (N : nat) (c : signed_constraint) (a1 : Z) (b1 e1 q : pdd)
        (fi : fi_record) (x R : Z) :
  fst (match_non_zero N c a1 b1 e1 q fi) = true ->
  is_val b1 = true ->
  0 <= R ->
  let r := snd (match_non_zero N c a1 b1 e1 q fi) in
  is_negative c = true /\ coeff r = 1 /\
  (currently_contains (interval r) ((coeff r * x) mod two_to_N N) = true ->
   (a1 * x + val N b1) mod two_to_N N = 0 /\
   xorb (sign c) ((a1 * x + val N b1) mod two_to_N N <=? R) = false).
Proof.
  intros G Hb HR. pose proof (two_to_N_pos N) as HP.
  pose proof (mod_range N x) as Hx.
  assert (Hfin : is_negative c = true ->
                 (a1 * x + val N b1) mod two_to_N N = 0 ->
                 (a1 * x + val N b1) mod two_to_N N = 0 /\
                 xorb (sign c) ((a1 * x + val N b1) mod two_to_N N <=? R)
                 = false).
  { unfold is_negative. intros -> E. split; [exact E|]. rewrite E.
    destruct (Z.leb_spec 0 R); [reflexivity|lia]. }
  revert G. unfold match_non_zero.
  destruct ((a1 =? 1) && is_negative c) eqn:G1.
  - intros _. apply andb_true_iff in G1. destruct G1 as [G1 Hneg].
    apply Z.eqb_eq in G1. subst a1. cbv zeta.
    cbn [snd interval coeff set_interval set_coeff currently_contains].
    split; [exact Hneg|]. split; [reflexivity|].
    intros Hin. apply (Hfin Hneg). rewrite Z.mul_1_l in Hin.
    apply unit_range_member in Hin; try apply val_range; try assumption.
    rewrite (val_neg N b1 Hb) in Hin.
    apply (root_of_unit N 1 1 (val N b1) x); [reflexivity|].
    rewrite Hin. f_equal. ring.
  - destruct (Z.odd a1 && is_negative c) eqn:G2; [|intros G; discriminate G].
    intros _. apply andb_true_iff in G2. destruct G2 as [Godd Hneg].
    cbv zeta.
    cbn [snd interval coeff set_interval set_coeff currently_contains].
    split; [exact Hneg|]. split; [reflexivity|].
    intros Hin. apply (Hfin Hneg). rewrite Z.mul_1_l in Hin.
    destruct (mult_inverse_correct N a1 Godd) as (_ & Hinv & _).
    apply unit_range_member in Hin; try apply mod_range.
    apply (root_of_unit N a1 _ _ x Hinv Hin).
Qed.

(** X12. [match_non_max] is sound: it only matches a negated inequality
    [not (p <= a2 * v + b2)] with [a2] one or odd, it sets the coefficient
    to one, and at every word in the interval it returns the right side
    [a2 * v + b2] is the largest word [2^N - 1], so that the negated
    inequality fails, whatever the value of [p]. *)
Theorem match_non_max_forbids
        (N : nat) (c : signed_constraint) (p : pdd) (a2 : Z) (b2 e2 : pdd)
        (fi : fi_record) (x L : Z) :
  fst (match_non_max N c p a2 b2 e2 fi) = true ->
  is_val b2 = true ->
  L < two_to_N N ->
  let r := snd (match_non_max N c p a2 b2 e2 fi) in
  is_negative c = true /\ coeff r = 1 /\
  (currently_contains (interval r) ((coeff r * x) mod two_to_N N) = true ->
   (a2 * x + val N b2) mod two_to_N N = max_value N /\
   xorb (sign c) (L <=? (a2 * x + val N b2) mod two_to_N N) = false).
Proof.
  intros G Hb HL. pose proof (two_to_N_pos N) as HP.
  pose proof (mod_range N x) as Hx.
  assert (Hfin : is_negative c = true ->
                 (a2 * x + (val N b2 + 1)) mod two_to_N N = 0 ->
                 (a2 * x + val N b2) mod two_to_N N = max_value N /\
                 xorb (sign c) (L <=? (a2 * x + val N b2) mod two_to_N N)
                 = false).
  { unfold is_negative, max_value. intros -> E.
    pose proof (mod_range N (a2 * x + val N b2)) as HR.
    assert (Hm : (a2 * x + val N b2) mod two_to_N N = two_to_N N - 1).
    { rewrite Z.add_assoc, <- Zplus_mod_idemp_l in E.
      word_cases (two_to_N N) ((a2 * x + val N b2) mod two_to_N N + 1);
        lia. }
    split; [exact Hm|]. rewrite Hm.
    destruct (Z.leb_spec L (two_to_N N - 1)); [reflexivity|lia]. }
  revert G. unfold match_non_max.
  destruct ((a2 =? 1) && is_negative c) eqn:G1.
  - intros _. apply andb_true_iff in G1. destruct G1 as [G1 Hneg].
    apply Z.eqb_eq in G1. subst a2. cbv zeta.
    cbn [snd interval coeff set_interval set_coeff currently_contains].
    split; [exact Hneg|]. split; [reflexivity|].
    intros Hin. apply (Hfin Hneg). rewrite Z.mul_1_l in Hin.
    rewrite (val_neg N b2 Hb) in Hin.
    pose proof (val_range N b2) as Hv.
    assert (Hh : (- val N b2) mod two_to_N N
                 = (((- val N b2) mod two_to_N N - 1) mod two_to_N N + 1)
                     mod two_to_N N).
    { rewrite Zplus_mod_idemp_l.
      replace ((- val N b2) mod two_to_N N - 1 + 1)
        with ((- val N b2) mod two_to_N N) by ring.
      symmetry. apply Z.mod_mod. lia. }
    rewrite Hh in Hin at 2.
    apply unit_range_member in Hin; try apply mod_range.
    apply (root_of_unit N 1 1 (val N b2 + 1) x); [reflexivity|].
    rewrite Hin, Zminus_mod_idemp_l. f_equal. ring.
  - destruct (Z.odd a2 && is_negative c) eqn:G2; [|intros G; discriminate G].
    intros _. apply andb_true_iff in G2. destruct G2 as [Godd Hneg].
    cbv zeta.
    cbn [snd interval coeff set_interval set_coeff currently_contains].
    split; [exact Hneg|]. split; [reflexivity|].
    intros Hin. apply (Hfin Hneg). rewrite Z.mul_1_l in Hin.
    destruct (mult_inverse_correct N a2 Godd) as (_ & Hinv & _).
    apply unit_range_member in Hin; try apply mod_range.
    apply (root_of_unit N a2 _ _ x Hinv). rewrite Hin. f_equal. ring.
Qed.

(* ================================================================== *)
(** * The saturation rules *)
(* ================================================================== *)

Section ClauseFacts.

Variable N : nat.
Variable M : pvar -> Z.

Lemma holds_cs_ule (p q : pdd) :
  holds N M (cs_ule p q) = (eval N M p <=? eval N M q).
Proof. reflexivity. Qed.

Lemma holds_cs_ult (p q : pdd) :
  holds N M (cs_ult p q) = (eval N M p <? eval N M q).
Proof.
  unfold cs_ult. rewrite holds_sc_not, holds_cs_ule.
  destruct (Z.leb_spec (eval N M q) (eval N M p)),
    (Z.ltb_spec (eval N M p) (eval N M q)); try reflexivity; lia.
Qed.

Lemma holds_cs_umul_ovfl (p q : pdd) :
  holds N M (cs_umul_ovfl p q)
  = (two_to_N N <=? eval N M p * eval N M q).
Proof. reflexivity. Qed.

(** The cofactor pattern of the model matcher is sound. *)
Lemma is_xY_sound (x : pvar) (xy y : pdd) :
  is_xY N x xy = Some y ->
  eqmod N (eval N M xy) (M x * eval N M y).
Proof.
  unfold is_xY. destruct (Nat.eqb (degree x xy) 1); [|discriminate].
  destruct (is_zero N (snd (factor N x 1 xy))) eqn:Hz; [|discriminate].
  intros E. injection E as <-.
  rewrite (eval_factor N x M xy).
  unfold is_zero in Hz. apply andb_true_iff in Hz. destruct Hz as [Hv Hz].
  apply Z.eqb_eq in Hz. rewrite (eval_is_val N M _ Hv), Hz.
  apply eqmod_of_eq. ring.
Qed.

Lemma is_xY_l_xZ_model_sound (i : inequality) (x : pvar) (y z : pdd) :
  is_xY_l_xZ_model N i x = Some (y, z) ->
  eqmod N (eval N M (ineq_lhs i)) (M x * eval N M y) /\
  eqmod N (eval N M (ineq_rhs i)) (M x * eval N M z).
Proof.
  unfold is_xY_l_xZ_model.
  destruct (is_xY N x (ineq_lhs i)) as [y'|] eqn:Ey; [|discriminate].
  destruct (is_xY N x (ineq_rhs i)) as [z'|] eqn:Ez; [|discriminate].
  intros E. injection E as <- <-.
  split; apply is_xY_sound; assumption.
Qed.

(** The arithmetic behind the rule [x*y <= x*z ==> ovfl(x,y) \/ y <= z
    \/ x = 0] and its strict form. *)
Lemma ugt_x_words (X Y Z : Z) :
  0 <= X < two_to_N N -> 0 <= Y < two_to_N N -> 0 <= Z < two_to_N N ->
  ((X * Y) mod two_to_N N < (X * Z) mod two_to_N N ->
   two_to_N N <= X * Y \/ Y < Z) /\
  ((X * Y) mod two_to_N N <= (X * Z) mod two_to_N N ->
   two_to_N N <= X * Y \/ X = 0 \/ Y <= Z).
Proof.
  intros HX HY HZ. pose proof (two_to_N_pos N) as HP.
  assert (Hz : (X * Z) mod two_to_N N <= X * Z)
    by (apply Z.mod_le; nia).
  destruct (Z_lt_le_dec (X * Y) (two_to_N N)) as [Hlt|Hge].
  - rewrite (Z.mod_small (X * Y)) by nia. split; intros H; right.
    + nia.
    + destruct (Z.eq_dec X 0); [left; assumption|right; nia].
  - split; intros _; left; exact Hge.
Qed.

End ClauseFacts.

(** X13. The clause of [try_ugt_x] is valid: when the inequality has the
    shape [x*y <= x*z] (or [x*y < x*z]) for the variable [x], every model
    in which the inequality holds satisfies one of the constraints of the
    clause that the rule adds: [ovfl(x, y)], [y <= z] or [x = 0] in the
    non-strict case, [ovfl(x, y)] or [y < z] in the strict one. *)
Theorem try_ugt_x_valid
        (N : nat) (is_xY_l_xZ : inequality -> pvar -> option (pdd * pdd))
        (core_add_clause_new : list core_item -> bool)
        (v : pvar) (i : inequality) (st : saturation) (y z : pdd)
        (M : pvar -> Z) :
  is_xY_l_xZ i v = Some (y, z) ->
  eqmod N (eval N M (ineq_lhs i)) (M v * eval N M y) ->
  eqmod N (eval N M (ineq_rhs i)) (M v * eval N M z) ->
  holds_inequality N M i = true ->
  exists name cs,
    clauses (try_ugt_x N is_xY_l_xZ core_add_clause_new v i st)
    = clauses st ++ [(name, cs, false)] /\
    In (of_dep (ineq_dep i)) cs /\
    clause_holds N M cs = true.
Proof.
  intros Hm Hl Hr Hi. unfold try_ugt_x. rewrite Hm.
  pose proof (eval_range N M (mk_var N v)) as HX.
  pose proof (eval_range N M y) as HY.
  pose proof (eval_range N M z) as HZ.
  assert (Hx : eqmod N (eval N M (mk_var N v)) (M v))
    by apply eval_mk_var.
  assert (El : eval N M (ineq_lhs i)
               = (eval N M (mk_var N v) * eval N M y) mod two_to_N N).
  { apply eval_of_eqmod. rewrite Hl, Hx. reflexivity. }
  assert (Er : eval N M (ineq_rhs i)
               = (eval N M (mk_var N v) * eval N M z) mod two_to_N N).
  { apply eval_of_eqmod. rewrite Hr, Hx. reflexivity. }
  destruct (ugt_x_words N _ _ _ HX HY HZ) as [Hs Hn].
  unfold holds_inequality in Hi. rewrite El, Er in Hi.
  destruct (is_strict i).
  - eexists. eexists. split; [unfold add_clause;
      destruct (core_add_clause_new _); reflexivity|].
    split; [left; reflexivity|].
    unfold clause_holds. cbn [existsb].
    rewrite holds_cs_umul_ovfl, holds_cs_ult.
    apply Z.ltb_lt in Hi. destruct (Hs Hi) as [H|H].
    + apply Z.leb_le in H. rewrite H. reflexivity.
    + apply Z.ltb_lt in H. rewrite H. apply orb_true_r.
  - eexists. eexists. split; [unfold add_clause;
      destruct (core_add_clause_new _); reflexivity|].
    split; [left; reflexivity|].
    unfold clause_holds. cbn [existsb].
    rewrite holds_cs_umul_ovfl, holds_cs_eq, holds_cs_ule.
    apply Z.leb_le in Hi. destruct (Hn Hi) as [H|[H|H]].
    + apply Z.leb_le in H. rewrite H. reflexivity.
    + apply Z.eqb_eq in H. rewrite H. cbn. apply orb_true_r.
    + apply Z.leb_le in H. rewrite H. cbn. rewrite !orb_true_r.
      reflexivity.
Qed.

(** What [propagate_infer_equality] does to the state. *)
Lemma propagate_infer_equality_effect
      (N : nat) (s : core) (x : pvar) (i : inequality) (st : saturation) :
  clauses (propagate_infer_equality N s x i st) = clauses st /\
  m_propagated (propagate_infer_equality N s x i st) = m_propagated st /\
  (propagations (propagate_infer_equality N s x i st) = propagations st \/
   exists id,
     In id (unsat_core s) /\
     get_constraint s id = cs_ule (ineq_rhs i) (ineq_lhs i) /\
     is_strict i = false /\
     propagations (propagate_infer_equality N s x i st)
     = propagations st
         ++ [(core_eq N (ineq_lhs i) (ineq_rhs i), [id; ineq_id i])]).
Proof.
  unfold propagate_infer_equality.
  destruct (is_strict i) eqn:Hs; [repeat split; left; reflexivity|].
  destruct ((degree x (ineq_lhs i) =? 0)%nat
            && (degree x (ineq_rhs i) =? 0)%nat);
    [repeat split; left; reflexivity|].
  destruct (match_core s _) as [id|] eqn:Hf;
    [|repeat split; left; reflexivity].
  split; [reflexivity|]. split; [reflexivity|]. right.
  unfold match_core in Hf. apply find_some in Hf. destruct Hf as [Hin Hp].
  apply mirror_test in Hp.
  exists id. repeat split; assumption.
Qed.

(** X14. [propagate_infer_equality] is sound and does nothing else:
    either it leaves the propagations alone, or the inequality is not
    strict, the unsat core holds its mirror image [rhs <= lhs] under some
    identifier, and the one literal added is [lhs = rhs] with that
    identifier and the one of the inequality as premises; the literal holds
    in every model in which the inequality and its mirror image hold.  The
    rule adds no clause and never raises the flag [m_propagated]. *)
Theorem propagate_infer_equality_sound
        (N : nat) (s : core) (x : pvar) (i : inequality) (st : saturation) :
  clauses (propagate_infer_equality N s x i st) = clauses st /\
  m_propagated (propagate_infer_equality N s x i st) = m_propagated st /\
  (propagations (propagate_infer_equality N s x i st) = propagations st \/
   exists id,
     In id (unsat_core s) /\
     get_constraint s id = cs_ule (ineq_rhs i) (ineq_lhs i) /\
     is_strict i = false /\
     propagations (propagate_infer_equality N s x i st)
     = propagations st
         ++ [(core_eq N (ineq_lhs i) (ineq_rhs i), [id; ineq_id i])] /\
     forall M : pvar -> Z,
       holds_inequality N M i = true ->
       holds N M (get_constraint s id) = true ->
       holds N M (core_eq N (ineq_lhs i) (ineq_rhs i)) = true).
Proof.
  destruct (propagate_infer_equality_effect N s x i st)
    as (Hc & Hm & [Hp|(id & Hin & Hg & Hs & Hp)]);
    (split; [exact Hc|split; [exact Hm|]]); [left; exact Hp|right].
  exists id. split; [exact Hin|]. split; [exact Hg|].
  split; [exact Hs|]. split; [exact Hp|].
  intros M Hi Hmir. rewrite Hg in Hmir. unfold holds_inequality in Hi.
  rewrite Hs in Hi. rewrite holds_cs_ule in Hmir.
  apply Z.leb_le in Hi, Hmir. apply holds_core_eq. lia.
Qed.

Section PropagateFacts.

Variable N : nat.
Variable s : core.
Variable is_xY_l_xZ : inequality -> pvar -> option (pdd * pdd).
Variable core_eval : constraint_id -> lbool.
Variable from_ule : constraint_id -> inequality.
Variable core_add_clause_new : list core_item -> bool.

Lemma propagate_infer_equality_step (x : pvar) (i : inequality)
      (st : saturation) :
  m_propagated (propagate_infer_equality N s x i st) = m_propagated st /\
  clauses (propagate_infer_equality N s x i st) = clauses st /\
  exists ps,
    propagations (propagate_infer_equality N s x i st)
    = propagations st ++ ps /\ (length ps <= 1)%nat.
Proof.
  destruct (propagate_infer_equality_effect N s x i st)
    as (Hc & Hm & [Hp|(id & _ & _ & _ & Hp)]);
    (split; [exact Hm|split; [exact Hc|]]).
  - exists []. rewrite app_nil_r. split; [exact Hp|cbn; lia].
  - eexists. split; [exact Hp|cbn; lia].
Qed.

Lemma try_ugt_x_step (v : pvar) (i : inequality) (st : saturation) :
  propagations (try_ugt_x N is_xY_l_xZ core_add_clause_new v i st)
  = propagations st /\
  exists cs,
    clauses (try_ugt_x N is_xY_l_xZ core_add_clause_new v i st)
    = clauses st ++ cs /\ (length cs <= 1)%nat.
Proof.
  unfold try_ugt_x.
  destruct (is_xY_l_xZ i v) as [[y z]|].
  - destruct (is_strict i); unfold add_clause;
      destruct (core_add_clause_new _); cbn;
      (split; [reflexivity|]); eexists; (split; [reflexivity|cbn; lia]).
  - split; [reflexivity|]. exists []. rewrite app_nil_r.
    split; [reflexivity|cbn; lia].
Qed.

Lemma propagate_id_step (v : pvar) (id : constraint_id) (st : saturation) :
  exists ps cs,
    propagations
      (snd (propagate_id N s is_xY_l_xZ core_eval from_ule
                         core_add_clause_new v id st))
    = propagations st ++ ps /\
    clauses
      (snd (propagate_id N s is_xY_l_xZ core_eval from_ule
                         core_add_clause_new v id st))
    = clauses st ++ cs /\
    (length ps <= 1)%nat /\ (length cs <= 1)%nat.
Proof.
  assert (Hnil : forall st' : saturation,
             propagations st' = propagations st ->
             clauses st' = clauses st ->
             exists ps cs,
               propagations st' = propagations st ++ ps /\
               clauses st' = clauses st ++ cs /\
               (length ps <= 1)%nat /\ (length cs <= 1)%nat).
  { intros st' Hp Hc. exists [], []. rewrite !app_nil_r.
    repeat split; try assumption; cbn; lia. }
  unfold propagate_id.
  destruct (core_eval id); cbn [snd];
    try (apply Hnil; reflexivity);
    (destruct (is_ule (get_constraint s id)); [|apply Hnil; reflexivity]);
    unfold propagate_inequality;
    (destruct (negb (Nat.eqb (size s v) N)); [apply Hnil; reflexivity|]);
    destruct (propagate_infer_equality_step v (from_ule id)
                (set_propagated false st)) as (_ & Hc & ps & Hp & Hlp);
    destruct (try_ugt_x_step v (from_ule id)
                (propagate_infer_equality N s v (from_ule id)
                   (set_propagated false st))) as (Hp' & cs & Hc' & Hlc);
    exists ps, cs; rewrite Hp', Hp, Hc', Hc; repeat split; assumption.
Qed.

End PropagateFacts.

(** X15. What [propagate(v, id)] answers: [true] exactly when the
    constraint is not already true, is an inequality over polynomials of
    the width of [v], has the shape [x*y <= x*z] for [v], and the core
    reports the clause of [try_ugt_x] as new.  The literal handed over by
    [propagate_infer_equality] has no part in the answer. *)
Theorem propagate_id_answer
        (N : nat) (s : core)
        (is_xY_l_xZ : inequality -> pvar -> option (pdd * pdd))
        (core_eval : constraint_id -> lbool)
        (from_ule : constraint_id -> inequality)
        (core_add_clause_new : list core_item -> bool)
        (v : pvar) (id : constraint_id) (st : saturation) :
  fst (propagate_id N s is_xY_l_xZ core_eval from_ule core_add_clause_new
                    v id st) = true
  <->
  core_eval id <> l_true /\
  is_ule (get_constraint s id) = true /\
  size s v = N /\
  exists y z,
    is_xY_l_xZ (from_ule id) v = Some (y, z) /\
    core_add_clause_new
      (if is_strict (from_ule id)
       then [of_dep (ineq_dep (from_ule id));
             of_sc (cs_umul_ovfl (mk_var N v) y);
             of_sc (cs_ult y z)]
       else [of_dep (ineq_dep (from_ule id));
             of_sc (cs_umul_ovfl (mk_var N v) y);
             of_sc (cs_eq N (mk_var N v));
             of_sc (cs_ule y z)]) = true.
Proof.
  unfold propagate_id.
  assert (Hcore :
    fst (let sc := get_constraint s id in
         let st0 := set_propagated false st in
         let st1 := if is_ule sc
                    then propagate_inequality N s is_xY_l_xZ
                           core_add_clause_new v (from_ule id) st0
                    else st0 in
         (m_propagated st1, st1)) = true
    <->
    is_ule (get_constraint s id) = true /\
    size s v = N /\
    exists y z,
      is_xY_l_xZ (from_ule id) v = Some (y, z) /\
      core_add_clause_new
        (if is_strict (from_ule id)
         then [of_dep (ineq_dep (from_ule id));
               of_sc (cs_umul_ovfl (mk_var N v) y);
               of_sc (cs_ult y z)]
         else [of_dep (ineq_dep (from_ule id));
               of_sc (cs_umul_ovfl (mk_var N v) y);
               of_sc (cs_eq N (mk_var N v));
               of_sc (cs_ule y z)]) = true).
  { cbv zeta. cbn [fst].
    destruct (is_ule (get_constraint s id));
      [|cbn; split; [discriminate|intros (H & _); discriminate H]].
    unfold propagate_inequality.
    destruct (Nat.eqb_spec (size s v) N) as [Hw|Hw]; cbn [negb];
      [|cbn; split; [discriminate|intros (_ & H & _); contradiction]].
    unfold try_ugt_x.
    destruct (propagate_infer_equality_effect N s v (from_ule id)
                (set_propagated false st)) as (_ & Hm & _).
    cbn [m_propagated set_propagated] in Hm.
    assert (Hadd : forall name cs red st',
               m_propagated st' = false ->
               m_propagated (add_clause core_add_clause_new name cs red st')
               = core_add_clause_new cs).
    { intros name cs red st' Hst. unfold add_clause.
      destruct (core_add_clause_new cs); cbn; [reflexivity|exact Hst]. }
    destruct (is_xY_l_xZ (from_ule id) v) as [[y z]|].
    - destruct (is_strict (from_ule id)); rewrite (Hadd _ _ _ _ Hm);
        (split;
         [intros H; repeat split; try assumption;
          exists y, z; split; [reflexivity|assumption]
         |intros (_ & _ & y' & z' & E & Hn'); injection E as <- <-;
          exact Hn']).
    - rewrite Hm. split; [discriminate|].
      intros (_ & _ & y' & z' & E & _). discriminate E. }
  destruct (core_eval id).
  - rewrite Hcore. split; [intros H; split; [discriminate|exact H]|tauto].
  - rewrite Hcore. split; [intros H; split; [discriminate|exact H]|tauto].
  - cbn. split; [discriminate|]. intros (H & _). contradiction.
Qed.

(** X16. [propagate(v)] only appends: the literals and clauses handed to
    the core before the call are still there, in the same order, and the
    call adds at most one literal and at most one clause for each member of
    the unsat core. *)
Theorem propagate_appends
        (N : nat) (s : core)
        (is_xY_l_xZ : inequality -> pvar -> option (pdd * pdd))
        (core_eval : constraint_id -> lbool)
        (from_ule : constraint_id -> inequality)
        (core_add_clause_new : list core_item -> bool)
        (v : pvar) (st : saturation) :
  exists ps cs,
    propagations (propagate N s is_xY_l_xZ core_eval from_ule
                            core_add_clause_new v st)
    = propagations st ++ ps /\
    clauses (propagate N s is_xY_l_xZ core_eval from_ule
                       core_add_clause_new v st)
    = clauses st ++ cs /\
    (length ps <= length (unsat_core s))%nat /\
    (length cs <= length (unsat_core s))%nat.
Proof.
  unfold propagate. generalize (unsat_core s) as ids.
  intros ids. revert st. induction ids as [|id ids IH]; intros st.
  - exists [], []. rewrite !app_nil_r. repeat split; cbn; lia.
  - cbn [fold_left].
    destruct (propagate_id_step N s is_xY_l_xZ core_eval from_ule
                core_add_clause_new v id st)
      as (ps1 & cs1 & Hp1 & Hc1 & Hl1 & Hk1).
    destruct (IH (snd (propagate_id N s is_xY_l_xZ core_eval from_ule
                         core_add_clause_new v id st)))
      as (ps2 & cs2 & Hp2 & Hc2 & Hl2 & Hk2).
    exists (ps1 ++ ps2), (cs1 ++ cs2).
    rewrite Hp2, Hc2, Hp1, Hc1, <- !app_assoc, !length_app.
    repeat split; cbn [length]; lia.
Qed.

(* ================================================================== *)
(** * Evaluation under the whole assignment *)
(* ================================================================== *)

Section FullAssignment.

Variable N : nat.
Variable sigma : assignment.
Variable M : pvar -> Z.

Hypothesis M_agrees : agrees sigma M.

Lemma subst_mono_agrees (m : monomial) :
  eval_mono M m
  = fst (subst_mono sigma m) * eval_mono M (snd (subst_mono sigma m)).
Proof.
  induction m as [|x r IH].
  - cbn. reflexivity.
  - rewrite subst_mono_cons, eval_mono_cons, IH.
    destruct (sigma x) as [a|] eqn:Hs; cbn [fst snd].
    + rewrite (M_agrees x a Hs). ring.
    + rewrite eval_mono_cons. ring.
Qed.

Lemma eval_subst_agrees (p : pdd) :
  eval N M (subst N sigma p) = eval N M p.
Proof.
  unfold eval. fold (eqmod N (eval_raw M (subst N sigma p)) (eval_raw M p)).
  induction p as [|[m c] p IH].
  - reflexivity.
  - unfold subst in *. cbn [fold_right fst snd].
    rewrite (eval_raw_add N M), (eval_raw_mk_term N M), IH.
    cbn [eval_raw]. rewrite (subst_mono_agrees m).
    apply eqmod_of_eq. ring.
Qed.

End FullAssignment.

(** X17. [try_eval] and [is_non_overflow] are sound: a value that
    [try_eval] reports is the value of the polynomial in every model that
    carries the current assignment, and when [is_non_overflow] answers
    [true] the product of the two values stays below [2^N], so that the
    overflow constraint on the two polynomials is false in every such
    model.  The second form hands that constraint back exactly when it
    answers [true]. *)
Theorem is_non_overflow_sound
        (N : nat) (s : core) (x y : pdd) (M : pvar -> Z) :
  agrees (assigned s) M ->
  (forall p r, try_eval N s p = Some r -> eval N M p = r) /\
  (is_non_overflow N s x y = true ->
   eval N M x * eval N M y < two_to_N N /\
   holds N M (cs_umul_ovfl x y) = false) /\
  (forall sc,
      is_non_overflow_sc N s x y sc
      = if is_non_overflow N s x y then (true, cs_umul_ovfl x y)
        else (false, sc)).
Proof.
  intros HM.
  assert (Ht : forall p r, try_eval N s p = Some r -> eval N M p = r).
  { intros p r. unfold try_eval, core_subst.
    destruct (is_val (subst N (assigned s) p)) eqn:Hv; [|discriminate].
    intros E. injection E as <-.
    rewrite <- (eval_subst_agrees N (assigned s) M HM p).
    apply eval_is_val, Hv. }
  split; [exact Ht|]. split; [|reflexivity].
  unfold is_non_overflow.
  destruct (try_eval N s x) as [xv|] eqn:Ex; [|discriminate].
  destruct (try_eval N s y) as [yv|] eqn:Ey; [|discriminate].
  intros H. apply Z.ltb_lt in H.
  rewrite (Ht x xv Ex), (Ht y yv Ey). split; [exact H|].
  unfold holds, cs_umul_ovfl. cbn [sign body eval_constraint xorb].
  rewrite (Ht x xv Ex), (Ht y yv Ey). apply Z.leb_gt, H.
Qed.

(* ================================================================== *)
(** * Small parts of the core *)
(* ================================================================== *)

(** X18. The order on [var_activity]: [operator<] is a strict total
    order, in which a variable of larger size comes before one of smaller
    size and, at equal size, the one of smaller activity comes first;
    [operator>] is its converse. *)
Theorem activity_lt_strict_total_order :
  (forall a, activity_lt a a = false) /\
  (forall a b c, activity_lt a b = true -> activity_lt b c = true ->
                 activity_lt a c = true) /\
  (forall a b, a <> b -> activity_lt a b = true \/ activity_lt b a = true) /\
  (forall a b, activity_lt a b = true ->
               (sz b < sz a)%N \/ (sz a = sz b /\ (act a < act b)%N)) /\
  (forall a b, activity_gt a b = activity_lt b a).
Proof.
  unfold activity_lt, activity_gt.
  split; [|split; [|split; [|split]]].
  - intros a. rewrite N.eqb_refl. cbn. apply N.ltb_irrefl.
  - intros a b c.
    destruct (N.eqb_spec (sz b) (sz a)), (N.eqb_spec (sz c) (sz b)),
      (N.eqb_spec (sz c) (sz a)); cbn [negb];
      rewrite ?N.ltb_lt; lia.
  - intros [sa aa] [sb ab] Hne. cbn [sz act].
    destruct (N.eqb_spec sb sa), (N.eqb_spec sa sb); cbn [negb];
      rewrite ?N.ltb_lt; try lia.
    destruct (N.lt_trichotomy aa ab) as [H|[H|H]]; try lia.
    exfalso. apply Hne. subst. reflexivity.
  - intros a b.
    destruct (N.eqb_spec (sz b) (sz a)); cbn [negb]; rewrite N.ltb_lt; lia.
  - reflexivity.
Qed.

(** X19. [bnot]: the polynomial [-p - 1] evaluates to the bitwise
    complement of the value of [p] on [N] bits, that is to
    [2^N - 1 - p]; complementing twice gives the value back. *)
Theorem bnot_complement (N : nat) (M : pvar -> Z) (p : pdd) :
  eval N M (bnot N p) = max_value N - eval N M p /\
  eval N M (bnot N p) = Z.lnot (eval N M p) mod two_to_N N /\
  (forall k, 0 <= k < Z.of_nat N ->
             Z.testbit (eval N M (bnot N p)) k
             = negb (Z.testbit (eval N M p) k)) /\
  eval N M (bnot N (bnot N p)) = eval N M p.
Proof.
  pose proof (two_to_N_pos N) as HP.
  assert (Hb : forall q, eval N M (bnot N q) = max_value N - eval N M q).
  { intros q. pose proof (eval_range N M q) as Hq.
    apply (eqmod_small N); [apply eval_range|unfold max_value; lia|].
    unfold bnot. rewrite eval_sub, eval_neg. unfold one.
    rewrite eval_mk_val. unfold max_value, eqmod.
    replace (two_to_N N - 1 - eval N M q)
      with (- eval N M q - 1 + 1 * two_to_N N) by ring.
    symmetry. apply Z_mod_plus_full. }
  assert (Hl : eval N M (bnot N p) = Z.lnot (eval N M p) mod two_to_N N).
  { apply eval_of_eqmod. unfold bnot. rewrite eval_sub, eval_neg.
    unfold one. rewrite eval_mk_val. apply eqmod_of_eq.
    unfold Z.lnot. lia. }
  split; [apply Hb|]. split; [exact Hl|]. split.
  - intros k Hk. rewrite Hl. unfold two_to_N.
    rewrite Z.mod_pow2_bits_low by lia. apply Z.lnot_spec. lia.
  - rewrite !Hb. ring.
Qed.

(** X20. The operators of [bilinear] act on the value: negation negates
    [eval], the difference of two forms evaluates to the difference of
    their values, and adding or subtracting a constant shifts the value by
    that constant. *)
Theorem bilinear_eval_operators (r other : bilinear.t) (x y k : Q) (n : Z) :
  (bilinear.eval (bilinear.opp r) x y == - bilinear.eval r x y)%Q /\
  (bilinear.eval (bilinear.sub r other) x y
   == bilinear.eval r x y - bilinear.eval other x y)%Q /\
  (bilinear.eval (bilinear.add_const r k) x y == bilinear.eval r x y + k)%Q /\
  (bilinear.eval (bilinear.sub_const r k) x y == bilinear.eval r x y - k)%Q /\
  (bilinear.eval (bilinear.sub_int r n) x y
   == bilinear.eval r x y - inject_Z n)%Q.
Proof.
  unfold bilinear.eval, bilinear.opp, bilinear.sub, bilinear.add_const,
    bilinear.sub_const, bilinear.sub_int.
  cbn [bilinear.a bilinear.b bilinear.c bilinear.d].
  repeat split; ring.
Qed.

(** X21. The constraints built by [core::eq] and [saturation::ineq] mean
    what they say: [eq(p, q)], kept as [p - q <= 0], holds exactly when [p]
    and [q] have the same value, and [ineq(strict, x, y)] holds exactly
    when [x < y], respectively [x <= y], on the values. *)
Theorem eq_and_ineq_meaning
        (N : nat) (M : pvar -> Z) (p q : pdd) (strict : bool) :
  holds N M (core_eq N p q) = (eval N M p =? eval N M q) /\
  holds N M (ineq strict p q)
  = (if strict then eval N M p <? eval N M q
     else eval N M p <=? eval N M q).
Proof.
  split.
  - pose proof (holds_core_eq N M p q) as H.
    destruct (holds N M (core_eq N p q)),
      (Z.eqb_spec (eval N M p) (eval N M q)) as [E|E];
      try reflexivity; exfalso.
    + apply E, H. reflexivity.
    + apply H in E. discriminate E.
  - unfold ineq. destruct strict.
    + apply holds_cs_ult.
    + apply holds_cs_ule.
Qed.

(* ================================================================== *)
(** * The interval as a lemma: validity under the side conditions *)
(* ================================================================== *)

Section SymbolicIntervals.

Variable N : nat.
Variable M : pvar -> Z.

(** The symbolic end points and the coefficient that [to_interval]
    answers do not depend on the concrete end points it is given. *)
Lemma to_interval_symbolic (c : signed_constraint) (is_trivial : bool)
      (k lo_val hi_val lo_val' hi_val' : Z) (lo hi : pdd) :
  snd (to_interval N c is_trivial k lo_val lo hi_val hi)
  = snd (to_interval N c is_trivial k lo_val' lo hi_val' hi) /\
  forall y,
    symbolically_contains N M
      (fst (to_interval N c is_trivial k lo_val lo hi_val hi)) y
    = symbolically_contains N M
        (fst (to_interval N c is_trivial k lo_val' lo hi_val' hi)) y.
Proof.
  unfold to_interval. destruct is_trivial.
  - destruct (is_positive c); split; reflexivity.
  - destruct (two_to_N N <? 2 * k); destruct (is_positive c);
      split; reflexivity.
Qed.

Lemma symbolic_of_concrete (i : eval_interval) (y : Z) :
  (forall l l_val h h_val,
      i = proper l l_val h h_val ->
      eval N M l = l_val /\ eval N M h = h_val) ->
  symbolically_contains N M i y = currently_contains i y.
Proof.
  intros H. destruct i as [| |l l_val h h_val]; try reflexivity.
  destruct (H l l_val h h_val eq_refl) as [<- <-]. reflexivity.
Qed.

(** What [push_eq] has recorded about [p] is how [p] evaluates. *)
Lemma push_eq_reads (is_zero : bool) (p : pdd)
      (side : list signed_constraint) :
  all_hold N M (push_eq N is_zero p side) ->
  is_val p = false ->
  is_zero = (eval N M p =? 0).
Proof.
  unfold push_eq. intros H Hv. rewrite Hv in H.
  destruct is_zero; apply all_hold_app in H; destruct H as [_ H];
    apply all_hold_one in H.
  - rewrite holds_cs_eq in H. symmetry. exact H.
  - rewrite holds_sc_not, holds_cs_eq in H.
    apply negb_true_iff in H. symmetry. exact H.
Qed.

Lemma eval_constant (M0 : pvar -> Z) (p : pdd) :
  is_val p = true -> eval N M p = eval N M0 p.
Proof.
  intros H. rewrite (eval_is_val N M p H), (eval_is_val N M0 p H).
  reflexivity.
Qed.

Lemma val_of_word (z : Z) :
  0 <= z < two_to_N N -> val N (mk_val N z) = z.
Proof. intros H. rewrite val_mk_val. apply Z.mod_small, H. Qed.

End SymbolicIntervals.

Section PatternLemma.

Variable N : nat.
Variables a1 a2 : Z.
Variables b1 e1 b2 e2 : pdd.
Variable M : pvar -> Z.

(** The run of a pattern on the values that the remainders have in the
    model [M]: it matches as well, with the same coefficient and the same
    symbolic interval, as soon as [M] satisfies the side conditions of the
    run on the values under the assignment. *)
Lemma ule_pattern_virtual (m : pattern) (c : signed_constraint)
      (fi : fi_record) (M0 : pvar -> Z) :
  In m (ule_patterns N) ->
  fst (m c a1 b1 e1 a2 b2 e2 fi) = true ->
  is_val b1 = true -> is_val b2 = true ->
  0 <= a1 < two_to_N N -> 0 <= a2 < two_to_N N ->
  eval N M0 e1 = val N b1 -> eval N M0 e2 = val N b2 ->
  let r := snd (m c a1 b1 e1 a2 b2 e2 fi) in
  let r' := snd (m c a1 (mk_val N (eval N M e1)) e1
                   a2 (mk_val N (eval N M e2)) e2 fi) in
  all_hold N M (side_cond r) ->
  coeff r <> -1 ->
  fst (m c a1 (mk_val N (eval N M e1)) e1
         a2 (mk_val N (eval N M e2)) e2 fi) = true /\
  coeff r' = coeff r /\
  forall y, symbolically_contains N M (interval r) y
            = symbolically_contains N M (interval r') y.
Proof.
  intros Hin G Hb1 Hb2 Ha1 Ha2 H01 H02.
  pose proof (is_val_mk_val N (eval N M e1)) as Hb1'.
  pose proof (is_val_mk_val N (eval N M e2)) as Hb2'.
  pose proof (val_of_word N _ (eval_range N M e1)) as Hv1.
  pose proof (val_of_word N _ (eval_range N M e2)) as Hv2.
  destruct (ule_patterns_cases N m Hin) as [-> | [-> | [Hl | ->]]]; cbv zeta.
  - (* match_zero *)
    destruct (match_zero_result N c a1 a2 b1 e1 b2 e2 fi G)
      as (Hc & Hi & Hs & _).
    rewrite Hs. intros Hside _.
    assert (G' : fst (match_zero N c a1 (mk_val N (eval N M e1)) e1
                        a2 (mk_val N (eval N M e2)) e2 fi) = true).
    { rewrite match_zero_fst in *.
      apply andb_true_iff in G. destruct G as [G Gz]. rewrite G.
      unfold is_zero in *. rewrite Hb2', Hv2. cbn [andb].
      apply andb_true_iff in Gz. destruct Gz as [_ Gz].
      apply Z.eqb_eq in Gz. apply Z.eqb_eq.
      destruct (pdd_eqb b2 e2) eqn:Eb.
      - apply pdd_eqb_eq in Eb. rewrite <- Eb.
        rewrite (eval_is_val N M b2 Hb2). exact Gz.
      - apply all_hold_app in Hside. destruct Hside as [_ Hside].
        apply all_hold_one, holds_core_eq in Hside.
        rewrite <- Hside, (eval_is_val N M b2 Hb2). exact Gz. }
    split; [exact G'|].
    destruct (match_zero_result N c a1 a2 _ e1 _ e2 fi G')
      as (Hc' & Hi' & _).
    rewrite Hc, Hc', Hi, Hi'. split; [reflexivity|].
    intros y. destruct (is_positive c); reflexivity.
  - (* match_max *)
    destruct (match_max_result N c a1 a2 b1 e1 b2 e2 fi G) as (Hc & Hi).
    destruct (match_max_rest N a1 a2 b1 e1 b2 e2 c fi G) as (Hs & _).
    rewrite Hs. intros Hside _.
    assert (G' : fst (match_max N c a1 (mk_val N (eval N M e1)) e1
                        a2 (mk_val N (eval N M e2)) e2 fi) = true).
    { rewrite match_max_fst in *.
      apply andb_true_iff in G. destruct G as [G Godd]. rewrite Godd.
      apply andb_true_iff in G. destruct G as [G0 Gm]. rewrite G0.
      unfold is_max in *. rewrite Hb1', Hv1. cbn [andb].
      rewrite andb_true_r.
      apply andb_true_iff in Gm. destruct Gm as [_ Gm].
      apply Z.eqb_eq in Gm. apply Z.eqb_eq.
      destruct (pdd_eqb b1 e1) eqn:Eb.
      - apply pdd_eqb_eq in Eb. rewrite <- Eb.
        rewrite (eval_is_val N M b1 Hb1). exact Gm.
      - apply all_hold_app in Hside. destruct Hside as [_ Hside].
        apply all_hold_one, holds_core_eq in Hside.
        rewrite <- Hside, (eval_is_val N M b1 Hb1). exact Gm. }
    split; [exact G'|].
    destruct (match_max_result N c a1 a2 _ e1 _ e2 fi G') as (Hc' & Hi').
    rewrite Hc, Hc', Hi, Hi'. split; [reflexivity|].
    intros y. destruct (is_positive c); reflexivity.
  - (* the linear patterns *)
    destruct (linear_shape N a1 a2 e1 e2 m c fi b1 b2 Hl G Ha1 Ha2)
      as (a & lo & hi & p & Ha & Hall).
    destruct (Hall b1 b2 Hb1 Hb2)
      as (T & lo_val & hi_val & Hshape & _ & _ & _ & _ & Hev).
    destruct (Hall _ _ Hb1' Hb2')
      as (T' & lo_val' & hi_val' & Hshape' & _ & _ & _ & _ & Hev').
    rewrite Hshape, Hshape'.
    destruct (finish_linear_rest N b1 e1 b2 e2 c T a lo_val hi_val lo hi
                (set_side_cond (push_eq N T p (side_cond fi)) fi))
      as (_ & _ & _ & extra & Hx & _).
    rewrite Hx. cbn [side_cond set_side_cond]. intros Hside _.
    apply all_hold_app in Hside. destruct Hside as [Hside _].
    assert (HT : T' = T).
    { destruct (Hev M0 H01 H02) as (_ & _ & HT0).
      destruct (Hev' M (eq_sym Hv1) (eq_sym Hv2)) as (_ & _ & HT1).
      rewrite HT1. destruct (is_val p) eqn:Hp.
      - rewrite (eval_constant N M M0 p Hp). symmetry. exact HT0.
      - symmetry. apply (push_eq_reads N M T p (side_cond fi) Hside Hp). }
    subst T'.
    split.
    { destruct Hl as [-> | [-> | ->]];
        rewrite ?match_linear1_fst, ?match_linear2_fst, ?match_linear3_fst
          in *; exact G. }
    match goal with
    | |- context [finish_linear N c T a lo_val lo hi_val hi b1 e1 b2 e2 ?f] =>
        destruct (finish_linear_fields N c T a lo_val hi_val lo hi
                                       b1 e1 b2 e2 f) as [Hi Hc]
    end.
    match goal with
    | |- context [finish_linear N c T a lo_val' lo hi_val' hi ?x1 e1 ?x2 e2
                                ?f] =>
        destruct (finish_linear_fields N c T a lo_val' hi_val' lo hi
                                       x1 e1 x2 e2 f) as [Hi' Hc']
    end.
    rewrite Hi, Hc, Hi', Hc'.
    destruct (to_interval_symbolic N M c T a lo_val' hi_val' lo_val hi_val
                                   lo hi) as [Hk Hy].
    split; [exact Hk|]. intros y. symmetry. apply Hy.
  - intros _ Hc. exfalso. apply Hc.
    apply (match_linear4_sentinel N c a1 a2 b1 e1 b2 e2 fi G).
Qed.

Lemma ule_pattern_lemma (m : pattern) (c : signed_constraint)
      (fi : fi_record) (M0 : pvar -> Z) (x : Z) :
  In m (ule_patterns N) ->
  fst (m c a1 b1 e1 a2 b2 e2 fi) = true ->
  is_val b1 = true -> is_val b2 = true ->
  0 <= a1 < two_to_N N -> 0 <= a2 < two_to_N N ->
  eval N M0 e1 = val N b1 -> eval N M0 e2 = val N b2 ->
  let r := snd (m c a1 b1 e1 a2 b2 e2 fi) in
  all_hold N M (side_cond r) ->
  coeff r <> -1 ->
  symbolically_contains N M (interval r) ((coeff r * x) mod two_to_N N)
  = negb (xorb (sign c)
               ((a1 * x + eval N M e1) mod two_to_N N
                <=? (a2 * x + eval N M e2) mod two_to_N N)).
Proof.
  intros Hin G Hb1 Hb2 Ha1 Ha2 H01 H02 r Hside Hc.
  destruct (ule_pattern_virtual m c fi M0 Hin G Hb1 Hb2 Ha1 Ha2 H01 H02
              Hside Hc) as (G' & Hc' & Hy).
  fold r in Hc', Hy.
  pose proof (is_val_mk_val N (eval N M e1)) as Hb1'.
  pose proof (is_val_mk_val N (eval N M e2)) as Hb2'.
  pose proof (val_of_word N _ (eval_range N M e1)) as Hv1.
  pose proof (val_of_word N _ (eval_range N M e2)) as Hv2.
  rewrite Hy, <- Hc'.
  assert (Hc'' : coeff (snd (m c a1 (mk_val N (eval N M e1)) e1
                               a2 (mk_val N (eval N M e2)) e2 fi)) <> -1)
    by (rewrite Hc'; exact Hc).
  rewrite symbolic_of_concrete.
  - rewrite (ule_pattern_forbids N a1 a2 _ e1 _ e2 m c fi x Hin G'
               Hb1' Hb2' Ha1 Ha2 Hc'').
    rewrite Hv1, Hv2. reflexivity.
  - intros l l_val h h_val Hi.
    apply (ule_pattern_ends N a1 a2 _ e1 _ e2 m c fi M l h l_val h_val
             Hin G' Hb1' Hb2' Ha1 Ha2); try assumption;
      symmetry; assumption.
Qed.

End PatternLemma.

(** X22. The interval of the inequality path as a lemma: let
    [get_interval] succeed on an inequality with a coefficient other than
    the sentinel [-1].  In every model that satisfies the side conditions
    of the record, whether or not it carries the current assignment, the
    word [coeff * v] lies in the interval read through its symbolic end
    points exactly when the inequality is false. *)
Theorem get_interval_ule_lemma
        (N : nat) (s : core) (c : signed_constraint) (v : pvar)
        (fi fi' : fi_record) (M : pvar -> Z) :
  is_ule c = true ->
  get_interval N s c v fi = (true, fi') ->
  coeff fi' <> -1 ->
  Forall (fun sc => holds N M sc = true) (side_cond fi') ->
  symbolically_contains N M (interval fi')
                        ((coeff fi' * M v) mod two_to_N N)
  = negb (holds N M c).
Proof.
  intros Hu H Hc Hside. unfold get_interval in H. rewrite Hu in H.
  destruct (get_interval_ule_inv N s v c _ fi' H)
    as (a1 & e1 & b1 & em1 & a2 & e2 & b2 & em2 & pre & m & post
        & E1 & E2 & Hps & Hfst & ->).
  set (M0 := fun x => match assigned s x with Some a => a | None => 0 end).
  assert (HM0 : agrees_off v (assigned s) M0).
  { intros x a _ Hx. unfold M0. rewrite Hx. reflexivity. }
  destruct (linear_decompose_agrees N s v _ _ _ _ _ _ M0 E1 eq_refl HM0)
    as (Hb1 & Ha1 & H01 & _ & _).
  destruct (linear_decompose_agrees N s v _ _ _ _ _ _ M0 E2 eq_refl HM0)
    as (Hb2 & Ha2 & H02 & _ & _).
  assert (Hin : In m (ule_patterns N)) by (rewrite Hps; apply in_elt).
  set (fi2 := set_side_cond
                (side_cond (set_bit_width (size s v) fi) ++ em1 ++ em2)
                (push_src c (set_coeff 1 (set_bit_width (size s v) fi))))
    in *.
  (* the side conditions of the two decompositions are among those of the
     record *)
  destruct (ule_pattern_rest N a1 a2 b1 e1 b2 e2 m c fi2 Hin
              (proj2 (Hfst c fi2)) Hb1 Hb2 Ha1 Ha2)
    as (_ & _ & _ & extra & Hx & _).
  assert (Hem : all_hold N M em1 /\ all_hold N M em2).
  { unfold all_hold. rewrite Hx in Hside.
    cbn [side_cond fi2 set_side_cond] in Hside.
    apply Forall_app in Hside. destruct Hside as [Hside _].
    apply Forall_app in Hside. destruct Hside as [_ Hside].
    apply Forall_app in Hside. exact Hside. }
  destruct Hem as [Hem1 Hem2].
  pose proof (linear_decompose_sound N s v _ _ _ _ _ _ E1 eq_refl M Hem1)
    as Hl.
  pose proof (linear_decompose_sound N s v _ _ _ _ _ _ E2 eq_refl M Hem2)
    as Hr.
  apply eval_of_eqmod in Hl, Hr.
  assert (Hgoal : holds N M c
                  = xorb (sign c)
                      ((a1 * M v + eval N M e1) mod two_to_N N
                       <=? (a2 * M v + eval N M e2) mod two_to_N N)).
  { unfold holds, is_ule, ule_lhs, ule_rhs in *.
    destruct (body c); try discriminate.
    cbn [eval_constraint]. rewrite Hl, Hr. reflexivity. }
  rewrite Hgoal.
  apply (ule_pattern_lemma N a1 a2 b1 e1 b2 e2 M m c fi2 M0 (M v) Hin
           (proj2 (Hfst c fi2)) Hb1 Hb2 Ha1 Ha2 H01 H02 Hside Hc).
Qed.

(* ================================================================== *)
(** * The shape of the records *)
(* ================================================================== *)

(** X23. The records of the overflow path: when [get_interval] succeeds on
    an overflow constraint, one of the two operands decomposes to the bare
    variable (coefficient one, remainder of value zero), the coefficient of
    the record is one, and the interval is anchored at zero: it is [full]
    or [[0, k)] for a positive constraint and [[k, 0)] for a negated one,
    with [k] a positive number. *)
Theorem get_interval_umul_ovfl_record
        (N : nat) (s : core) (c : signed_constraint) (v : pvar)
        (fi fi' : fi_record) :
  is_umul_ovfl c = true ->
  get_interval N s c v fi = (true, fi') ->
  coeff fi' = 1 /\
  (exists X e b,
      (X = ovfl_p c \/ X = ovfl_q c) /\
      fst (linear_decompose N s v X []) = (true, 1, e, b) /\
      is_zero N b = true) /\
  ((is_positive c = true /\ interval fi' = full) \/
   exists k, 0 < k /\
             interval fi'
             = if is_positive c
               then proper (mk_val N 0) 0 (mk_val N k) k
               else proper (mk_val N k) k (mk_val N 0) 0).
Proof.
  intros Ho H. unfold get_interval in H.
  rewrite (not_ule_of_umul_ovfl c Ho), Ho in H.
  split; [apply (get_interval_umul_ovfl_coeff N s v c _ fi' H)|].
  destruct (get_interval_umul_ovfl_inv N s v c _ fi' H)
    as (X & Y & eX & bX & emX & okY & aY & eY & bY & emY
        & HXY & EX & Hz & EY & Hcase).
  cbv zeta in Hcase. split.
  - exists X, eX, bX. split; [|split; [rewrite EX; reflexivity|exact Hz]].
    destruct HXY as [[-> _]|[-> _]]; [left|right]; reflexivity.
  - pose proof (val_range N bY) as HbY.
    assert (Hk : 0 < max_value N / val N bY + 1).
    { assert (0 <= max_value N / val N bY)
        by (apply Z_div_nonneg_nonneg; unfold max_value; lia). lia. }
    destruct Hcase as [(_ & Hpos & ->)|(_ & _ & [(Hpos & _ & ->)|[(Hpos & _ & ->)|(Hpos & _ & ->)]])];
      rewrite Hpos;
      cbn [interval set_interval push_side_cond set_side_cond].
    + right. exists 2. split; [lia|reflexivity].
    + left. split; reflexivity.
    + right. eexists. split; [exact Hk|reflexivity].
    + right. eexists. split; [exact Hk|reflexivity].
Qed.

(** X24. What [to_interval] means: for a range [[lo, hi)] of words that
    holds [coeff * x] exactly when a condition fails, the interval and the
    coefficient that [to_interval] answers hold [coeff' * x] exactly when
    the range holds [coeff * x], for a positive constraint, and exactly
    when it does not, for a negated one; replacing a coefficient above half
    the modulus by its negative does not change the words kept out.  For a
    trivial condition the interval is empty (positive) or full
    (negated). *)
Theorem to_interval_meaning
        (N : nat) (c : signed_constraint) (is_trivial : bool)
        (k lo_val hi_val : Z) (lo hi : pdd) (x : Z) :
  0 <= lo_val < two_to_N N -> 0 <= hi_val < two_to_N N ->
  (is_trivial = false -> lo_val <> hi_val) ->
  let r := to_interval N c is_trivial k lo_val lo hi_val hi in
  currently_contains (fst r) ((snd r * x) mod two_to_N N)
  = (if is_trivial then is_negative c
     else xorb (is_negative c)
               (in_range lo_val hi_val ((k * x) mod two_to_N N))) /\
  (is_trivial = false ->
   snd r = (if two_to_N N <? 2 * k then two_to_N N - k else k)).
Proof.
  intros Hlo Hhi Hne r. split.
  - apply to_interval_contains; assumption.
  - intros ->. unfold r, to_interval.
    destruct (two_to_N N <? 2 * k); destruct (is_positive c); reflexivity.
Qed.

Section SentinelRecord.

Variable N : nat.
Variables a1 a2 : Z.
Variables b1 e1 b2 e2 : pdd.

(** Only [match_linear4] leaves the sentinel. *)
Lemma ule_pattern_sentinel (m : pattern) (c : signed_constraint)
      (fi : fi_record) :
  In m (ule_patterns N) ->
  fst (m c a1 b1 e1 a2 b2 e2 fi) = true ->
  is_val b1 = true -> is_val b2 = true ->
  0 <= a1 < two_to_N N -> 0 <= a2 < two_to_N N ->
  coeff (snd (m c a1 b1 e1 a2 b2 e2 fi)) = -1 ->
  a1 <> a2 /\ a1 <> 0 /\ a2 <> 0 /\
  interval (snd (m c a1 b1 e1 a2 b2 e2 fi))
  = if is_positive c then proper b1 a1 b2 a2 else proper b2 a2 b1 a1.
Proof.
  intros Hin G Hb1 Hb2 Ha1 Ha2.
  destruct (ule_patterns_cases N m Hin) as [-> | [-> | [Hl | ->]]].
  - destruct (match_zero_result N c a1 a2 b1 e1 b2 e2 fi G) as (Hc & _).
    rewrite Hc. discriminate.
  - destruct (match_max_result N c a1 a2 b1 e1 b2 e2 fi G) as (Hc & _).
    rewrite Hc. discriminate.
  - destruct (linear_shape N a1 a2 e1 e2 m c fi b1 b2 Hl G Ha1 Ha2)
      as (a & lo & hi & p & Ha & Hall).
    destruct (Hall b1 b2 Hb1 Hb2) as (T & lo_val & hi_val & Hshape & _).
    rewrite Hshape.
    match goal with
    | |- context [finish_linear N c T a lo_val lo hi_val hi b1 e1 b2 e2 ?f] =>
        destruct (finish_linear_fields N c T a lo_val hi_val lo hi
                                       b1 e1 b2 e2 f) as [_ Hc]
    end.
    rewrite Hc.
    destruct (to_interval_coeff N c T a lo_val hi_val lo hi Ha) as [Hk _].
    destruct T; lia.
  - intros _. rewrite match_linear4_fst in G.
    unfold match_linear4. rewrite G. cbn [snd].
    destruct (finish_linear_fields N c false (-1) a1 a2 b1 b2 b1 e1 b2 e2 fi)
      as [-> _].
    apply andb_true_iff in G. destruct G as [G G2].
    apply andb_true_iff in G. destruct G as [G0 G1].
    apply negb_true_iff, Z.eqb_neq in G0, G1, G2.
    split; [exact G0|]. split; [exact G1|]. split; [exact G2|].
    unfold to_interval. pose proof (two_to_N_pos N) as HP.
    destruct (Z.ltb_spec (two_to_N N) (2 * -1)); [lia|].
    destruct (is_positive c); reflexivity.
Qed.

End SentinelRecord.

(** X25. The record with the sentinel coefficient [-1]: when
    [get_interval] succeeds with that coefficient, the constraint is an
    inequality whose sides decompose to [a1 * v + b1] and [a2 * v + b2]
    with two distinct non-zero coefficients, and the record carries these
    two linear forms where an interval would be: [proper b1 a1 b2 a2] for
    a positive constraint and [proper b2 a2 b1 a1] for a negated one.  In
    every model that carries the assignment on the other variables the
    two sides have the values [a1 * v + b1] and [a2 * v + b2]. *)
Theorem get_interval_sentinel_record
        (N : nat) (s : core) (c : signed_constraint) (v : pvar)
        (fi fi' : fi_record) :
  get_interval N s c v fi = (true, fi') ->
  coeff fi' = -1 ->
  is_ule c = true /\
  exists a1 b1 a2 b2,
    interval fi'
    = (if is_positive c then proper b1 a1 b2 a2 else proper b2 a2 b1 a1) /\
    a1 <> a2 /\ 0 < a1 < two_to_N N /\ 0 < a2 < two_to_N N /\
    is_val b1 = true /\ is_val b2 = true /\
    forall M : pvar -> Z,
      agrees_off v (assigned s) M ->
      eval N M (ule_lhs c) = (a1 * M v + val N b1) mod two_to_N N /\
      eval N M (ule_rhs c) = (a2 * M v + val N b2) mod two_to_N N.
Proof.
  intros H Hc. unfold get_interval in H.
  destruct (is_ule c) eqn:Hu.
  - split; [reflexivity|].
    destruct (get_interval_ule_inv N s v c _ fi' H)
      as (a1 & e1 & b1 & em1 & a2 & e2 & b2 & em2 & pre & m & post
          & E1 & E2 & Hps & Hfst & ->).
    destruct (linear_decompose_ranges N s v _ _ _ _ _ E1) as (Hb1 & Ha1).
    destruct (linear_decompose_ranges N s v _ _ _ _ _ E2) as (Hb2 & Ha2).
    assert (Hin : In m (ule_patterns N)) by (rewrite Hps; apply in_elt).
    destruct (ule_pattern_sentinel N a1 a2 b1 e1 b2 e2 m c _ Hin
                (proj2 (Hfst c _)) Hb1 Hb2 Ha1 Ha2 Hc)
      as (Hne & Hn1 & Hn2 & Hi).
    exists a1, b1, a2, b2.
    split; [exact Hi|]. split; [exact Hne|]. split; [lia|]. split; [lia|].
    split; [exact Hb1|]. split; [exact Hb2|].
    intros M HM.
    destruct (linear_decompose_agrees N s v _ _ _ _ _ _ M E1 eq_refl HM)
      as (_ & _ & _ & _ & Hl).
    destruct (linear_decompose_agrees N s v _ _ _ _ _ _ M E2 eq_refl HM)
      as (_ & _ & _ & _ & Hr).
    split; assumption.
  - destruct (is_umul_ovfl c) eqn:Ho; [|discriminate].
    rewrite (get_interval_umul_ovfl_coeff N s v c _ fi' H) in Hc.
    discriminate Hc.
Qed.

Section OverflowLemma.

Variable N : nat.
Variable s : core.
Variable v : pvar.
Variable M : pvar -> Z.

Lemma holds_ule_word (p : pdd) (z : Z) :
  0 <= z ->
  holds N M (cs_ule p (mk_val N z)) = true -> eval N M p <= z.
Proof.
  intros Hz. rewrite holds_cs_ule.
  rewrite (eval_of_eqmod N M _ z (eval_mk_val N M z)).
  intros H. apply Z.leb_le in H.
  pose proof (Z.mod_le z (two_to_N N) Hz (two_to_N_pos N)). lia.
Qed.

Lemma get_interval_umul_ovfl_lemma_path (c : signed_constraint)
      (fi fi' : fi_record) :
  is_umul_ovfl c = true ->
  decomposable N s v c = true ->
  get_interval_umul_ovfl N s c v fi = (true, fi') ->
  all_hold N M (side_cond fi') ->
  (forall X e b em,
      X = ovfl_p c \/ X = ovfl_q c ->
      linear_decompose N s v X [] = ((true, 1, e, b), em) ->
      eval N M e = 0) ->
  currently_contains (interval fi') ((coeff fi' * M v) mod two_to_N N)
  = true ->
  holds N M c = false.
Proof.
  intros Hk Hd H Hside Hrem.
  destruct (get_interval_umul_ovfl_inv N s v c fi fi' H)
    as (X & Y & eX & bX & emX & okY & aY & eY & bY & emY
        & HXY & EX & Hz & EY & Hcase).
  cbv zeta in Hcase.
  rewrite (decomposable_ovfl N s v c X Y _ _ _ _ _ _ _ _ _ Hk HXY EX EY)
    in Hd. subst okY.
  destruct Hcase as [(Hf & _)|(_ & -> & Hcase)]; [discriminate Hf|].
  pose proof (two_to_N_pos N) as HP.
  pose proof (val_range N bY) as HbY.
  pose proof (mod_range N (M v)) as Hx.
  pose proof (eval_range N M eY) as HE.
  (* the side conditions of the two decompositions hold *)
  assert (Hem : all_hold N M emX /\ all_hold N M emY /\
                exists sc,
                  side_cond fi'
                  = (side_cond fi
                       ++ snd (linear_decompose N s v (ovfl_p c) [])
                       ++ snd (linear_decompose N s v (ovfl_q c) []))
                      ++ [sc] /\
                  holds N M sc = true).
  { assert (Hlast : exists sc,
               side_cond fi'
               = (side_cond fi
                    ++ snd (linear_decompose N s v (ovfl_p c) [])
                    ++ snd (linear_decompose N s v (ovfl_q c) []))
                   ++ [sc]).
    { destruct Hcase as [(_ & _ & ->)|[(_ & _ & ->)|(_ & _ & ->)]];
        eexists; reflexivity. }
    destruct Hlast as (sc & Hsc). rewrite Hsc in Hside.
    apply all_hold_app in Hside. destruct Hside as [Hside Hlast].
    apply all_hold_app in Hside. destruct Hside as [_ Hside].
    apply all_hold_app in Hside. destruct Hside as [Hp Hq].
    apply all_hold_one in Hlast.
    assert (HemXY : all_hold N M emX /\ all_hold N M emY).
    { destruct HXY as [[-> ->]|[-> ->]]; rewrite EX, EY in *;
        cbn [snd] in *; split; assumption. }
    destruct HemXY as [HeX HeY]. split; [exact HeX|]. split; [exact HeY|].
    exists sc. split; [exact Hsc|exact Hlast]. }
  destruct Hem as (HemX & HemY & sc & Hsc & Hlast).
  assert (HX : eval N M X = M v mod two_to_N N).
  { apply eval_of_eqmod.
    rewrite (linear_decompose_sound N s v _ _ _ _ _ _ EX eq_refl M HemX).
    rewrite (Hrem X eX bX emX
               ltac:(destruct HXY as [[-> _]|[-> _]]; auto) EX).
    apply eqmod_of_eq. ring. }
  assert (HY : eval N M Y = eval N M eY).
  { rewrite (eval_of_eqmod N M Y _
               (linear_decompose_sound N s v _ _ _ _ _ _ EY eq_refl M HemY)).
    rewrite Z.mul_0_l, Z.add_0_l. apply Z.mod_small, eval_range. }
  rewrite (holds_ovfl_value N M c X Y _ _ Hk HXY HX HY).
  assert (Hone : coeff fi' = 1)
    by apply (get_interval_umul_ovfl_coeff N s v c fi fi' H).
  rewrite Hone, Z.mul_1_l.
  destruct Hcase as [(Hpos & Hle & ->)|[(Hpos & Hgt & ->)|(Hpos & Hgt & ->)]];
    cbn [side_cond push_side_cond set_side_cond set_interval] in Hsc;
    apply app_inv_head in Hsc; injection Hsc as <-;
    cbn [interval set_interval push_side_cond set_side_cond
         currently_contains];
    unfold is_positive in Hpos.
  - intros _. apply negb_true_iff in Hpos. rewrite Hpos. cbn [xorb].
    apply holds_ule_word in Hlast; [|lia]. apply Z.leb_gt. nia.
  - apply negb_true_iff in Hpos. rewrite Hpos. cbn [xorb].
    assert (Hb : 1 < val N bY <= max_value N) by (unfold max_value; lia).
    destruct (overflow_bounds_positive N (val N bY) Hb)
      as (HA & HB & HAB & _).
    cbv zeta in HA, HB, HAB.
    rewrite in_low_range by lia.
    intros Hin. apply Z.leb_le in Hin.
    apply holds_ule_word in Hlast; [|lia].
    apply Z.leb_gt.
    assert (Hmax : max_value N = two_to_N N - 1) by reflexivity.
    set (A := max_value N / val N bY) in *.
    set (B := (max_value N + A) / A - 1) in *.
    clearbody B A. nia.
  - apply negb_false_iff in Hpos. rewrite Hpos. cbn [xorb].
    assert (HA : 0 <= max_value N / val N bY)
      by (apply Z.div_pos; unfold max_value; lia).
    rewrite in_high_range by lia.
    intros Hin. apply negb_true_iff, Z.leb_gt in Hin.
    rewrite holds_cs_ule in Hlast.
    rewrite (eval_of_eqmod N M _ _ (eval_mk_val N M (val N bY))) in Hlast.
    rewrite Z.mod_small in Hlast by assumption.
    apply Z.leb_le in Hlast.
    assert (Ht : (two_to_N N <=? (M v mod two_to_N N) * val N bY) = true).
    { rewrite overflow_threshold by lia. apply negb_true_iff, Z.leb_gt.
      exact Hin. }
    apply Z.leb_le in Ht.
    assert (Hge : two_to_N N <= (M v mod two_to_N N) * eval N M eY) by nia.
    apply Z.leb_le in Hge. rewrite Hge. reflexivity.
Qed.

End OverflowLemma.

(** X26. The interval of the overflow path as a lemma: let [get_interval]
    succeed on an overflow constraint both operands of which decompose.
    In every model that satisfies the side conditions of the record and in
    which the remainder of the operand with coefficient one is zero,
    whatever value the other operand takes within the side condition, if
    the value of the variable lies inside the interval then the
    constraint is false.  The side condition [e2 <= B], respectively
    [b2 <= e2], is what makes the interval hold beyond the current value
    of the other operand. *)
Theorem get_interval_umul_ovfl_lemma
        (N : nat) (s : core) (c : signed_constraint) (v : pvar)
        (fi fi' : fi_record) (M : pvar -> Z) :
  is_umul_ovfl c = true ->
  decomposable N s v c = true ->
  get_interval N s c v fi = (true, fi') ->
  Forall (fun sc => holds N M sc = true) (side_cond fi') ->
  (forall X e b em,
      X = ovfl_p c \/ X = ovfl_q c ->
      linear_decompose N s v X [] = ((true, 1, e, b), em) ->
      eval N M e = 0) ->
  currently_contains (interval fi') ((coeff fi' * M v) mod two_to_N N)
  = true ->
  holds N M c = false.
Proof.
  intros Ho Hd H Hside Hrem Hin. unfold get_interval in H.
  rewrite (not_ule_of_umul_ovfl c Ho), Ho in H.
  apply (get_interval_umul_ovfl_lemma_path N s v M c _ fi' Ho Hd H Hside
           Hrem Hin).
Qed.

(* ================================================================== *)
(** * The matcher does not read the record *)
(* ================================================================== *)

Section Frame.

Variable N : nat.

Lemma push_eq_frame (is_zero : bool) (p : pdd)
      (side : list signed_constraint) :
  push_eq N is_zero p side = side ++ push_eq N is_zero p [].
Proof.
  unfold push_eq. destruct (is_val p); [symmetry; apply app_nil_r|].
  destruct is_zero; reflexivity.
Qed.

Lemma add_non_unit_side_conds_frame (k : Z) (b1 e1 b2 e2 : pdd) :
  exists X,
    forall fi, coeff fi = k ->
               side_cond (add_non_unit_side_conds N fi b1 e1 b2 e2)
               = side_cond fi ++ X.
Proof.
  unfold add_non_unit_side_conds.
  destruct (k =? 1) eqn:Hk.
  - exists []. intros fi ->. rewrite Hk. symmetry. apply app_nil_r.
  - destruct (pdd_eqb b1 e1), (pdd_eqb b2 e2); eexists; intros fi ->;
      rewrite Hk; cbn [negb side_cond push_side_cond set_side_cond];
      rewrite <- ?app_assoc; try reflexivity.
    symmetry. apply app_nil_r.
Qed.

Lemma finish_linear_frame (c : signed_constraint) (is_trivial : bool)
      (a lo_val hi_val : Z) (lo hi b1 e1 b2 e2 : pdd) :
  exists X,
    forall fi,
      side_cond (finish_linear N c is_trivial a lo_val lo hi_val hi
                               b1 e1 b2 e2 fi)
      = side_cond fi ++ X.
Proof.
  destruct (add_non_unit_side_conds_frame
              (snd (to_interval N c is_trivial a lo_val lo hi_val hi))
              b1 e1 b2 e2) as (X & HX).
  exists X. intros fi. unfold finish_linear. cbv zeta.
  rewrite HX; reflexivity.
Qed.

Variables a1 a2 : Z.
Variables b1 e1 b2 e2 : pdd.

(** What a pattern that matches writes is the same for every record it is
    handed: it appends one list of side conditions and sets one interval
    and one coefficient. *)
Lemma ule_pattern_frame (m : pattern) (c : signed_constraint)
      (fi0 : fi_record) :
  In m (ule_patterns N) ->
  fst (m c a1 b1 e1 a2 b2 e2 fi0) = true ->
  is_val b1 = true -> is_val b2 = true ->
  0 <= a1 < two_to_N N -> 0 <= a2 < two_to_N N ->
  exists X I K,
    forall fi,
      side_cond (snd (m c a1 b1 e1 a2 b2 e2 fi)) = side_cond fi ++ X /\
      interval (snd (m c a1 b1 e1 a2 b2 e2 fi)) = I /\
      coeff (snd (m c a1 b1 e1 a2 b2 e2 fi)) = K.
Proof.
  intros Hin G Hb1 Hb2 Ha1 Ha2.
  destruct (ule_patterns_cases N m Hin) as [-> | [-> | [Hl | ->]]].
  - eexists. eexists. eexists. intros fi.
    assert (G' : fst (match_zero N c a1 b1 e1 a2 b2 e2 fi) = true)
      by (rewrite match_zero_fst in *; exact G).
    destruct (match_zero_result N c a1 a2 b1 e1 b2 e2 fi G')
      as (Hc & Hi & Hs & _).
    rewrite Hc, Hi, Hs. split; [|split; reflexivity].
    instantiate (1 := if pdd_eqb b2 e2 then [] else [core_eq N b2 e2]).
    destruct (pdd_eqb b2 e2); [symmetry; apply app_nil_r|reflexivity].
  - eexists. eexists. eexists. intros fi.
    assert (G' : fst (match_max N c a1 b1 e1 a2 b2 e2 fi) = true)
      by (rewrite match_max_fst in *; exact G).
    destruct (match_max_result N c a1 a2 b1 e1 b2 e2 fi G') as (Hc & Hi).
    destruct (match_max_rest N a1 a2 b1 e1 b2 e2 c fi G') as (Hs & _).
    rewrite Hc, Hi, Hs. split; [|split; reflexivity].
    instantiate (1 := if pdd_eqb b1 e1 then [] else [core_eq N b1 e1]).
    destruct (pdd_eqb b1 e1); [symmetry; apply app_nil_r|reflexivity].
  - destruct (linear_shape N a1 a2 e1 e2 m c fi0 b1 b2 Hl G Ha1 Ha2)
      as (a & lo & hi & p & Ha & Hall).
    destruct (Hall b1 b2 Hb1 Hb2) as (T & lo_val & hi_val & Hshape & _).
    destruct (finish_linear_frame c T a lo_val hi_val lo hi b1 e1 b2 e2)
      as (X & HX).
    exists (push_eq N T p [] ++ X),
      (fst (to_interval N c T a lo_val lo hi_val hi)),
      (snd (to_interval N c T a lo_val lo hi_val hi)).
    intros fi. rewrite Hshape, HX.
    cbn [side_cond set_side_cond].
    rewrite (push_eq_frame T p (side_cond fi)), <- app_assoc.
    split; [reflexivity|]. apply finish_linear_fields.
  - destruct (finish_linear_frame c false (-1) a1 a2 b1 b2 b1 e1 b2 e2)
      as (X & HX).
    exists X, (fst (to_interval N c false (-1) a1 b1 a2 b2)),
      (snd (to_interval N c false (-1) a1 b1 a2 b2)).
    intros fi. rewrite match_linear4_fst in G.
    unfold match_linear4. rewrite G. cbn [snd]. rewrite HX.
    split; [reflexivity|]. apply finish_linear_fields.
Qed.

End Frame.

Section FramePaths.

Variable N : nat.
Variable s : core.
Variable v : pvar.

Lemma get_interval_ule_frame (c : signed_constraint)
      (fi fj fi' : fi_record) :
  get_interval_ule N s c v fi = (true, fi') ->
  exists fj' X,
    get_interval_ule N s c v fj = (true, fj') /\
    interval fi' = interval fj' /\ coeff fi' = coeff fj' /\
    side_cond fi' = side_cond fi ++ X /\
    side_cond fj' = side_cond fj ++ X.
Proof.
  intros H.
  destruct (get_interval_ule_inv N s v c fi fi' H)
    as (a1 & e1 & b1 & em1 & a2 & e2 & b2 & em2 & pre & m & post
        & E1 & E2 & Hps & Hfst & ->).
  destruct (linear_decompose_ranges N s v _ _ _ _ _ E1) as (Hb1 & Ha1).
  destruct (linear_decompose_ranges N s v _ _ _ _ _ E2) as (Hb2 & Ha2).
  assert (Hin : In m (ule_patterns N)) by (rewrite Hps; apply in_elt).
  assert (Hnz : (a1 =? 0) && (a2 =? 0) = false).
  { destruct ((a1 =? 0) && (a2 =? 0)) eqn:G; [|reflexivity].
    rewrite (get_interval_ule_eq N s c v fi _ _ _ _ _ _ _ _ _ _ E1 E2) in H.
    cbn [negb orb] in H. rewrite G in H. discriminate H. }
  set (fi2 := set_side_cond (side_cond fi ++ em1 ++ em2)
                            (push_src c (set_coeff 1 fi))).
  set (fj2 := set_side_cond (side_cond fj ++ em1 ++ em2)
                            (push_src c (set_coeff 1 fj))).
  destruct (ule_pattern_frame N a1 a2 b1 e1 b2 e2 m c fi2 Hin
              (proj2 (Hfst c fi2)) Hb1 Hb2 Ha1 Ha2) as (X & I & K & Hfr).
  destruct (Hfr fi2) as (Hs2 & Hi2 & Hk2).
  destruct (Hfr fj2) as (Hs3 & Hi3 & Hk3).
  exists (snd (m c a1 b1 e1 a2 b2 e2 fj2)), (em1 ++ em2 ++ X).
  split.
  - rewrite (get_interval_ule_eq N s c v fj _ _ _ _ _ _ _ _ _ _ E1 E2).
    cbn [negb orb]. rewrite Hnz, Hps. fold fj2.
    apply first_match_at; apply Hfst.
  - rewrite Hi2, Hi3, Hk2, Hk3, Hs2, Hs3.
    split; [reflexivity|]. split; [reflexivity|].
    cbn [side_cond fi2 fj2 set_side_cond].
    rewrite <- !app_assoc. split; reflexivity.
Qed.

Lemma get_interval_umul_ovfl_frame (c : signed_constraint)
      (fi fj fi' : fi_record) :
  get_interval_umul_ovfl N s c v fi = (true, fi') ->
  exists fj' X,
    get_interval_umul_ovfl N s c v fj = (true, fj') /\
    interval fi' = interval fj' /\ coeff fi' = coeff fj' /\
    side_cond fi' = side_cond fi ++ X /\
    side_cond fj' = side_cond fj ++ X.
Proof.
  destruct (linear_decompose N s v (ovfl_p c) [])
    as [[[[ok1 a1] e1] b1] em1] eqn:E1.
  destruct (linear_decompose N s v (ovfl_q c) [])
    as [[[[ok2 a2] e2] b2] em2] eqn:E2.
  rewrite (get_interval_umul_ovfl_eq N s v c fi _ _ _ _ _ _ _ _ _ _ E1 E2
             _ eq_refl).
  rewrite (get_interval_umul_ovfl_eq N s v c fj _ _ _ _ _ _ _ _ _ _
             E1 E2 _ eq_refl).
  cbv zeta.
  assert (Hsc : forall f sc i,
             side_cond
               (push_side_cond sc
                  (set_interval i
                     (set_side_cond (side_cond f ++ em1 ++ em2)
                        (push_src c (set_coeff 1 f)))))
             = side_cond f ++ (em1 ++ em2 ++ [sc])).
  { intros f sc i. cbn [side_cond push_side_cond set_interval set_side_cond].
    rewrite <- !app_assoc. reflexivity. }
  destruct (if ok2 && negb ok1
            then (ok2, a2, e2, b2, ok1, a1, e1, b1)
            else (ok1, a1, e1, b1, ok2, a2, e2, b2))
    as [[[[[[[o1 x1] y1] z1] o2] x2] y2] z2].
  destruct (o1 && negb o2 && (x1 =? 1) && is_zero N z1 && is_positive c).
  { intros H. injection H as <-. eexists. exists (em1 ++ em2).
    split; [reflexivity|]. repeat split. }
  destruct (negb o1 || negb o2); [intros H; discriminate H|].
  destruct (if (x2 =? 1) && (x1 =? 0)
            then (x2, y2, z2, x1, y1, z1)
            else (x1, y1, z1, x2, y2, z2))
    as [[[[[u1 w1] t1] u2] w2] t2].
  destruct (negb (u1 =? 1) || negb (u2 =? 0)); [intros H; discriminate H|].
  destruct (negb (is_zero N t1)); [intros H; discriminate H|].
  destruct (is_positive c).
  - destruct (val N t2 <=? 1).
    + intros H. injection H as <-. eexists. eexists.
      split; [reflexivity|].
      split; [reflexivity|]. split; [reflexivity|]. split; apply Hsc.
    + destruct (_ && _); [intros H; discriminate H|].
      intros H. injection H as <-. eexists. eexists.
      split; [reflexivity|].
      split; [reflexivity|]. split; [reflexivity|]. split; apply Hsc.
  - destruct (val N t2 <=? 1); [intros H; discriminate H|].
    destruct (_ && _); [intros H; discriminate H|].
    intros H. injection H as <-. eexists. eexists.
    split; [reflexivity|].
    split; [reflexivity|]. split; [reflexivity|]. split; apply Hsc.
Qed.

End FramePaths.

(** X27. The matcher does not read the record it fills: when
    [get_interval] succeeds on a record, it succeeds on the empty record
    as well, with the same interval and the same coefficient, and the side
    conditions it leaves are those of the record on entry followed by
    those it leaves on the empty record. *)
Theorem get_interval_frame
        (N : nat) (s : core) (c : signed_constraint) (v : pvar)
        (fi fi' : fi_record) :
  get_interval N s c v fi = (true, fi') ->
  exists fi0,
    get_interval N s c v fi_empty = (true, fi0) /\
    interval fi' = interval fi0 /\
    coeff fi' = coeff fi0 /\
    side_cond fi' = side_cond fi ++ side_cond fi0.
Proof.
  unfold get_interval. intros H.
  assert (Hpath :
    exists fj' X,
      (if is_ule c
       then get_interval_ule N s c v (set_bit_width (size s v) fi_empty)
       else if is_umul_ovfl c
            then get_interval_umul_ovfl N s c v
                   (set_bit_width (size s v) fi_empty)
            else (false, set_bit_width (size s v) fi_empty)) = (true, fj') /\
      interval fi' = interval fj' /\ coeff fi' = coeff fj' /\
      side_cond fi' = side_cond (set_bit_width (size s v) fi) ++ X /\
      side_cond fj' = side_cond (set_bit_width (size s v) fi_empty) ++ X).
  { destruct (is_ule c).
    - apply (get_interval_ule_frame N s v c _
               (set_bit_width (size s v) fi_empty) fi' H).
    - destruct (is_umul_ovfl c); [|discriminate H].
      apply (get_interval_umul_ovfl_frame N s v c _
               (set_bit_width (size s v) fi_empty) fi' H). }
  destruct Hpath as (fj' & X & H0 & Hi & Hk & Hs & Hs0).
  exists fj'. split; [exact H0|]. split; [exact Hi|]. split; [exact Hk|].
  rewrite Hs, Hs0. reflexivity.
Qed.

(** X28. The patterns agree: any two patterns of the inequality path that
    match the same decomposed inequality, both with a coefficient other
    than the sentinel, forbid the same values of the variable, each
    through its own coefficient.  The priority order decides how the set
    of forbidden values is written down, not which set it is. *)
Theorem ule_patterns_agree
        (N : nat) (c : signed_constraint) (a1 a2 : Z) (b1 e1 b2 e2 : pdd)
        (m m' : pattern) (fi fi' : fi_record) (x : Z) :
  In m (ule_patterns N) -> In m' (ule_patterns N) ->
  fst (m c a1 b1 e1 a2 b2 e2 fi) = true ->
  fst (m' c a1 b1 e1 a2 b2 e2 fi') = true ->
  is_val b1 = true -> is_val b2 = true ->
  0 <= a1 < two_to_N N -> 0 <= a2 < two_to_N N ->
  let r := snd (m c a1 b1 e1 a2 b2 e2 fi) in
  let r' := snd (m' c a1 b1 e1 a2 b2 e2 fi') in
  coeff r <> -1 -> coeff r' <> -1 ->
  currently_contains (interval r) ((coeff r * x) mod two_to_N N)
  = currently_contains (interval r') ((coeff r' * x) mod two_to_N N).
Proof.
  intros Hin Hin' G G' Hb1 Hb2 Ha1 Ha2 r r' Hc Hc'.
  unfold r, r'.
  rewrite (ule_pattern_forbids N a1 a2 b1 e1 b2 e2 m c fi x Hin G
             Hb1 Hb2 Ha1 Ha2 Hc).
  rewrite (ule_pattern_forbids N a1 a2 b1 e1 b2 e2 m' c fi' x Hin' G'
             Hb1 Hb2 Ha1 Ha2 Hc').
  reflexivity.
Qed.

(* ================================================================== *)
(** * Records with a coefficient other than one *)
(* ================================================================== *)

Section NonUnitRecords.

Variable N : nat.
Variables a1 a2 : Z.
Variables b1 e1 b2 e2 : pdd.
Variable M : pvar -> Z.

(** [add_non_unit_side_conds] leaves the coefficient alone, and on a
    record with a coefficient other than one its side conditions tie each
    remainder to the value it had under the assignment. *)
Lemma add_non_unit_side_conds_ties (fi : fi_record) :
  let r := add_non_unit_side_conds N fi b1 e1 b2 e2 in
  coeff r = coeff fi /\
  (coeff fi <> 1 ->
   all_hold N M (side_cond r) ->
   eval N M b1 = eval N M e1 /\ eval N M b2 = eval N M e2).
Proof.
  unfold add_non_unit_side_conds.
  destruct (Z.eqb_spec (coeff fi) 1) as [E|E].
  { split; [reflexivity|]. intros Hc. contradiction. }
  destruct (pdd_eqb b1 e1) eqn:E1, (pdd_eqb b2 e2) eqn:E2;
    cbn [negb coeff side_cond push_side_cond set_side_cond];
    (split; [reflexivity|]); intros _ Hside;
    try apply pdd_eqb_eq in E1; try apply pdd_eqb_eq in E2.
  - subst. split; reflexivity.
  - apply all_hold_app in Hside. destruct Hside as [_ H2].
    apply all_hold_one, holds_core_eq in H2.
    subst. split; [reflexivity|exact H2].
  - apply all_hold_app in Hside. destruct Hside as [_ H1].
    apply all_hold_one, holds_core_eq in H1.
    subst. split; [exact H1|reflexivity].
  - apply all_hold_app in Hside. destruct Hside as [Hside H2].
    apply all_hold_app in Hside. destruct Hside as [_ H1].
    apply all_hold_one, holds_core_eq in H1.
    apply all_hold_one, holds_core_eq in H2.
    split; assumption.
Qed.

Lemma finish_linear_ties (c : signed_constraint) (is_trivial : bool)
      (a lo_val hi_val : Z) (lo hi : pdd) (fi : fi_record) :
  let r := finish_linear N c is_trivial a lo_val lo hi_val hi
                         b1 e1 b2 e2 fi in
  coeff r <> 1 ->
  all_hold N M (side_cond r) ->
  eval N M b1 = eval N M e1 /\ eval N M b2 = eval N M e2.
Proof.
  unfold finish_linear. cbv zeta.
  match goal with
  | |- context [add_non_unit_side_conds N ?f b1 e1 b2 e2] =>
      destruct (add_non_unit_side_conds_ties f) as [Hk Ht]
  end.
  rewrite Hk. exact Ht.
Qed.

(** A record of the inequality path with a coefficient other than one
    carries the side conditions [b1 = e1] and [b2 = e2]: a model that
    satisfies them gives the remainders the values they had under the
    assignment. *)
Lemma ule_pattern_ties (m : pattern) (c : signed_constraint)
      (fi : fi_record) :
  In m (ule_patterns N) ->
  fst (m c a1 b1 e1 a2 b2 e2 fi) = true ->
  is_val b1 = true -> is_val b2 = true ->
  0 <= a1 < two_to_N N -> 0 <= a2 < two_to_N N ->
  let r := snd (m c a1 b1 e1 a2 b2 e2 fi) in
  coeff r <> 1 ->
  all_hold N M (side_cond r) ->
  eval N M e1 = val N b1 /\ eval N M e2 = val N b2.
Proof.
  intros Hin G Hb1 Hb2 Ha1 Ha2.
  rewrite <- (eval_is_val N M b1 Hb1), <- (eval_is_val N M b2 Hb2).
  destruct (ule_patterns_cases N m Hin) as [-> | [-> | [Hl | ->]]]; cbv zeta.
  - destruct (match_zero_result N c a1 a2 b1 e1 b2 e2 fi G) as (Hc & _).
    intros Hn. contradiction.
  - destruct (match_max_result N c a1 a2 b1 e1 b2 e2 fi G) as (Hc & _).
    intros Hn. contradiction.
  - destruct (linear_shape N a1 a2 e1 e2 m c fi b1 b2 Hl G Ha1 Ha2)
      as (a & lo & hi & p & _ & Hall).
    destruct (Hall b1 b2 Hb1 Hb2) as (T & lo_val & hi_val & Hshape & _).
    rewrite Hshape. intros Hn Hside.
    destruct (finish_linear_ties c T a lo_val hi_val lo hi _ Hn Hside)
      as [H1 H2].
    split; symmetry; assumption.
  - rewrite match_linear4_fst in G. unfold match_linear4. rewrite G.
    cbn [snd]. intros Hn Hside.
    destruct (finish_linear_ties c false (-1) a1 a2 b1 b2 _ Hn Hside)
      as [H1 H2].
    split; symmetry; assumption.
Qed.

End NonUnitRecords.

(* ================================================================== *)
(** * Exactness of the matcher *)
(* ================================================================== *)

Section MatcherFromSideConditions.

Variable N : nat.
Variable s : core.
Variable v : pvar.
Variable M : pvar -> Z.

Lemma remainder_kept_value (p : pdd) (ok : bool) (a : Z) (e b : pdd)
      (em : list signed_constraint) :
  linear_decompose N s v p [] = ((ok, a, e, b), em) ->
  remainder_kept N s v M p = true ->
  eval N M e = val N b.
Proof.
  unfold remainder_kept. intros ->. apply Z.eqb_eq.
Qed.

(** A model that carries the assignment on the other variables keeps the
    remainders. *)
Lemma agreement_keeps_remainders (c : signed_constraint) :
  agrees_off v (assigned s) M ->
  decomposable N s v c = true ->
  remainders_kept N s v M c = true.
Proof.
  intros Hag. unfold decomposable, remainders_kept, decomposes.
  assert (Hone : forall p,
             fst (fst (fst (fst (linear_decompose N s v p [])))) = true ->
             remainder_kept N s v M p = true).
  { intros p. unfold remainder_kept.
    destruct (linear_decompose N s v p []) as [[[[ok a] e] b] em] eqn:E.
    cbn [fst]. intros ->.
    destruct (linear_decompose_agrees N s v _ _ _ _ _ _ M E eq_refl Hag)
      as (_ & _ & He & _).
    apply Z.eqb_eq. exact He. }
  destruct (body c); try discriminate; intros H;
    apply andb_true_iff in H; destruct H as [H1 H2];
    rewrite (Hone _ H1), (Hone _ H2); reflexivity.
Qed.

(** The inequality path from the side conditions.  Outside the interval
    read through its symbolic end points the inequality holds; the same is
    true of the stored end points when the coefficient is not one, and
    when it is one as soon as the model keeps the remainders. *)
Lemma get_interval_ule_from_side_conds (c : signed_constraint)
      (fi fi' : fi_record) :
  is_ule c = true ->
  get_interval_ule N s c v fi = (true, fi') ->
  coeff fi' <> -1 ->
  all_hold N M (side_cond fi') ->
  let x := (coeff fi' * M v) mod two_to_N N in
  (symbolically_contains N M (interval fi') x = false ->
   holds N M c = true) /\
  ((coeff fi' = 1 -> remainders_kept N s v M c = true) ->
   currently_contains (interval fi') x = false ->
   holds N M c = true).
Proof.
  intros Hu H Hc Hside.
  destruct (get_interval_ule_inv N s v c fi fi' H)
    as (a1 & e1 & b1 & em1 & a2 & e2 & b2 & em2 & pre & m & post
        & E1 & E2 & Hps & Hfst & ->).
  set (M0 := fun x => match assigned s x with Some a => a | None => 0 end).
  assert (HM0 : agrees_off v (assigned s) M0).
  { intros x a _ Hx. unfold M0. rewrite Hx. reflexivity. }
  destruct (linear_decompose_agrees N s v _ _ _ _ _ _ M0 E1 eq_refl HM0)
    as (Hb1 & Ha1 & H01 & _ & _).
  destruct (linear_decompose_agrees N s v _ _ _ _ _ _ M0 E2 eq_refl HM0)
    as (Hb2 & Ha2 & H02 & _ & _).
  assert (Hin : In m (ule_patterns N)) by (rewrite Hps; apply in_elt).
  set (fi2 := set_side_cond (side_cond fi ++ em1 ++ em2)
                            (push_src c (set_coeff 1 fi))) in *.
  pose proof (proj2 (Hfst c fi2)) as G.
  destruct (ule_pattern_rest N a1 a2 b1 e1 b2 e2 m c fi2 Hin G
              Hb1 Hb2 Ha1 Ha2)
    as (_ & _ & _ & extra & Hx & _).
  assert (Hem : all_hold N M em1 /\ all_hold N M em2).
  { pose proof Hside as Hs. rewrite Hx in Hs.
    cbn [side_cond fi2 set_side_cond] in Hs.
    apply all_hold_app in Hs. destruct Hs as [Hs _].
    apply all_hold_app in Hs. destruct Hs as [_ Hs].
    apply all_hold_app in Hs. exact Hs. }
  destruct Hem as [Hem1 Hem2].
  pose proof (linear_decompose_sound N s v _ _ _ _ _ _ E1 eq_refl M Hem1)
    as Hl.
  pose proof (linear_decompose_sound N s v _ _ _ _ _ _ E2 eq_refl M Hem2)
    as Hr.
  apply eval_of_eqmod in Hl, Hr.
  assert (Hgoal : holds N M c
                  = xorb (sign c)
                      ((a1 * M v + eval N M e1) mod two_to_N N
                       <=? (a2 * M v + eval N M e2) mod two_to_N N)).
  { unfold holds, is_ule, ule_lhs, ule_rhs in *.
    destruct (body c); try discriminate.
    cbn [eval_constraint]. rewrite Hl, Hr. reflexivity. }
  cbv zeta. rewrite Hgoal. split.
  - rewrite (ule_pattern_lemma N a1 a2 b1 e1 b2 e2 M m c fi2 M0 (M v) Hin
               G Hb1 Hb2 Ha1 Ha2 H01 H02 Hside Hc).
    apply negb_false_iff.
  - intros Hkept.
    assert (He : eval N M e1 = val N b1 /\ eval N M e2 = val N b2).
    { destruct (Z.eq_dec (coeff (snd (m c a1 b1 e1 a2 b2 e2 fi2))) 1)
        as [E|E].
      - specialize (Hkept E). unfold remainders_kept in Hkept.
        unfold is_ule, ule_lhs, ule_rhs in *.
        destruct (body c); try discriminate.
        apply andb_true_iff in Hkept. destruct Hkept as [K1 K2].
        split; [apply (remainder_kept_value _ _ _ _ _ _ E1 K1)
               |apply (remainder_kept_value _ _ _ _ _ _ E2 K2)].
      - apply (ule_pattern_ties N a1 a2 b1 e1 b2 e2 M m c fi2 Hin G
                 Hb1 Hb2 Ha1 Ha2 E Hside). }
    destruct He as [He1 He2].
    rewrite (ule_pattern_forbids N a1 a2 b1 e1 b2 e2 m c fi2 (M v) Hin G
               Hb1 Hb2 Ha1 Ha2 Hc).
    rewrite He1, He2. apply negb_false_iff.
Qed.

(** The overflow path: outside the interval the constraint holds in a
    model that satisfies the side conditions and keeps the remainders.
    The side conditions give the coefficients; the side condition on the
    other operand bounds it from one side only. *)
Lemma get_interval_umul_ovfl_from_side_conds (c : signed_constraint)
      (fi fi' : fi_record) :
  is_umul_ovfl c = true ->
  decomposable N s v c = true ->
  get_interval_umul_ovfl N s c v fi = (true, fi') ->
  all_hold N M (side_cond fi') ->
  remainders_kept N s v M c = true ->
  currently_contains (interval fi') ((coeff fi' * M v) mod two_to_N N)
  = false ->
  holds N M c = true.
Proof.
  intros Hk Hd H Hside Hkept.
  destruct (get_interval_umul_ovfl_inv N s v c fi fi' H)
    as (X & Y & eX & bX & emX & okY & aY & eY & bY & emY
        & HXY & EX & Hz & EY & Hcase).
  cbv zeta in Hcase.
  rewrite (decomposable_ovfl N s v c X Y _ _ _ _ _ _ _ _ _ Hk HXY EX EY)
    in Hd. subst okY.
  destruct Hcase as [(Hf & _)|(_ & -> & Hcase)]; [discriminate Hf|].
  pose proof (two_to_N_pos N) as HP.
  pose proof (val_range N bY) as HbY.
  pose proof (mod_range N (M v)) as Hx.
  (* the side conditions of the two decompositions hold *)
  assert (Hem : all_hold N M emX /\ all_hold N M emY).
  { assert (Hlast : exists sc,
               side_cond fi'
               = (side_cond fi
                    ++ snd (linear_decompose N s v (ovfl_p c) [])
                    ++ snd (linear_decompose N s v (ovfl_q c) []))
                   ++ [sc]).
    { destruct Hcase as [(_ & _ & ->)|[(_ & _ & ->)|(_ & _ & ->)]];
        eexists; reflexivity. }
    destruct Hlast as (sc & Hsc). rewrite Hsc in Hside.
    apply all_hold_app in Hside. destruct Hside as [Hside _].
    apply all_hold_app in Hside. destruct Hside as [_ Hside].
    apply all_hold_app in Hside. destruct Hside as [Hp Hq].
    destruct HXY as [[-> ->]|[-> ->]]; rewrite EX, EY in *;
      cbn [snd] in *; split; assumption. }
  destruct Hem as [HemX HemY].
  (* the remainders have the values they had under the assignment *)
  assert (He : eval N M eX = val N bX /\ eval N M eY = val N bY).
  { unfold remainders_kept in Hkept.
    unfold is_umul_ovfl, ovfl_p, ovfl_q in *.
    destruct (body c); try discriminate.
    apply andb_true_iff in Hkept. destruct Hkept as [K1 K2].
    destruct HXY as [[-> ->]|[-> ->]]; split;
      eapply remainder_kept_value; eassumption. }
  destruct He as [HeX HeY].
  unfold is_zero in Hz. apply andb_true_iff in Hz. destruct Hz as [_ Hz].
  apply Z.eqb_eq in Hz.
  assert (HX : eval N M X = M v mod two_to_N N).
  { apply eval_of_eqmod.
    rewrite (linear_decompose_sound N s v _ _ _ _ _ _ EX eq_refl M HemX).
    rewrite HeX, Hz. apply eqmod_of_eq. ring. }
  assert (HY : eval N M Y = val N bY).
  { rewrite (eval_of_eqmod N M Y _
               (linear_decompose_sound N s v _ _ _ _ _ _ EY eq_refl M HemY)).
    rewrite Z.mul_0_l, Z.add_0_l, HeY. apply Z.mod_small, HbY. }
  rewrite (holds_ovfl_value N M c X Y _ _ Hk HXY HX HY).
  assert (Hone : coeff fi' = 1)
    by apply (get_interval_umul_ovfl_coeff N s v c fi fi' H).
  rewrite Hone, Z.mul_1_l.
  destruct Hcase as [(Hpos & Hle & ->)|[(Hpos & Hgt & ->)|(Hpos & Hgt & ->)]];
    cbn [interval set_interval push_side_cond set_side_cond
         currently_contains];
    unfold is_positive in Hpos.
  - intros Hout. discriminate Hout.
  - apply negb_true_iff in Hpos. rewrite Hpos. cbn [xorb].
    apply (ovfl_above N _ _ (proj1 Hx) Hgt).
  - apply negb_false_iff in Hpos. rewrite Hpos. cbn [xorb].
    intros Hout. rewrite (ovfl_below N _ _ (proj1 Hx) Hgt Hout). reflexivity.
Qed.

End MatcherFromSideConditions.

(** C1 (as the code has it). Exactness of the matcher: let [get_interval]
    succeed on a constraint both sides of which decompose linearly in the
    variable, with a record whose coefficient is not the sentinel [-1] of
    [match_linear4], and take any model that satisfies the side conditions
    of the record.  If the word [coeff * v] lies outside the returned
    interval then the constraint is true: on the inequality path for the
    interval read through its symbolic end points; and on both paths for
    the stored end points, where a record with coefficient one, which
    carries no side condition on the remainders (every record of the
    overflow path is one), asks in addition that the model give the
    remainders of the two sides the values they have under the current
    assignment.  The interval bounds [coeff * v], not [v]. *)
Theorem get_interval_exact
        (N : nat) (s : core) (c : signed_constraint) (v : pvar)
        (fi fi' : fi_record) (M : pvar -> Z) :
  get_interval N s c v fi = (true, fi') ->
  decomposable N s v c = true ->
  coeff fi' <> -1 ->
  Forall (fun sc => holds N M sc = true) (side_cond fi') ->
  (is_ule c = true ->
   symbolically_contains N M (interval fi')
                         ((coeff fi' * M v) mod two_to_N N) = false ->
   holds N M c = true) /\
  ((coeff fi' = 1 -> remainders_kept N s v M c = true) ->
   currently_contains (interval fi') ((coeff fi' * M v) mod two_to_N N)
   = false ->
   holds N M c = true).
Proof.
  intros H Hdec Hc Hside. unfold get_interval in H.
  destruct (is_ule c) eqn:Hu.
  - destruct (get_interval_ule_from_side_conds N s v M c _ fi' Hu H Hc Hside)
      as [Hsym Hval].
    split; [intros _; exact Hsym|exact Hval].
  - split; [discriminate|].
    destruct (is_umul_ovfl c) eqn:Ho; [|discriminate].
    intros Hkept Hout.
    pose proof (get_interval_umul_ovfl_coeff N s v c _ fi' H) as E.
    apply (get_interval_umul_ovfl_from_side_conds N s v M c _ fi' Ho Hdec H
             Hside (Hkept E) Hout).
Qed.

(** C1 at [2*v + y + z <= 5] with [y] assigned 1 and [z] assigned 2, width
    8: the record has coefficient 2, the interval [[3, 253)] and the side
    condition [3 = y + z].  The model [v = 1], [y = 3], [z = 0] does not
    carry the assignment and satisfies the side condition; the word
    [2*v = 2] lies outside the interval and the inequality holds. *)
Lemma get_interval_exact_witness :
  get_interval 8 sample_core_y1_z2 sample_2v_y_z_le_5 0%nat fi_empty
  = (true,
     mk_fi (proper (add 8 (sub 8 (mk_val 8 5)
                              (add 8 (mk_var 8 1%nat) (mk_var 8 2%nat)))
                          (one 8)) 3
                   (neg 8 (add 8 (mk_var 8 1%nat) (mk_var 8 2%nat))) 253)
           [core_eq 8 (mk_val 8 3) (add 8 (mk_var 8 1%nat) (mk_var 8 2%nat))]
           [sample_2v_y_z_le_5] [] 2 8%nat)
  /\ decomposable 8 sample_core_y1_z2 0%nat sample_2v_y_z_le_5 = true
  /\ assigned sample_core_y1_z2 1%nat = Some 1
  /\ sample_model_v1_y3 1%nat = 3
  /\ holds 8 sample_model_v1_y3
           (core_eq 8 (mk_val 8 3) (add 8 (mk_var 8 1%nat) (mk_var 8 2%nat)))
     = true
  /\ in_range 3 253 ((2 * 1) mod two_to_N 8) = false
  /\ holds 8 sample_model_v1_y3 sample_2v_y_z_le_5 = true.
Proof.
  split; [reflexivity|]. split; [reflexivity|]. split; [reflexivity|].
  split; [reflexivity|]. split; [reflexivity|]. split; [reflexivity|].
  assert (Hside : Forall (fun sc => holds 8 sample_model_v1_y3 sc = true)
                         [core_eq 8 (mk_val 8 3)
                                  (add 8 (mk_var 8 1%nat) (mk_var 8 2%nat))])
    by (constructor; [reflexivity|constructor]).
  assert (Hc : 2 <> -1) by discriminate.
  apply (proj2 (get_interval_exact
                  8 sample_core_y1_z2 sample_2v_y_z_le_5 0%nat fi_empty
                  (mk_fi (proper (add 8 (sub 8 (mk_val 8 5)
                                           (add 8 (mk_var 8 1%nat)
                                                  (mk_var 8 2%nat)))
                                       (one 8)) 3
                                 (neg 8 (add 8 (mk_var 8 1%nat)
                                               (mk_var 8 2%nat))) 253)
                         [core_eq 8 (mk_val 8 3)
                                  (add 8 (mk_var 8 1%nat) (mk_var 8 2%nat))]
                         [sample_2v_y_z_le_5] [] 2 8%nat)
                  sample_model_v1_y3
                  eq_refl eq_refl Hc Hside)).
  - intros E. discriminate E.
  - reflexivity.
Defined.

(** Why a record with coefficient one asks for the remainders.  On
    [v + y <= 5] with [y] assigned 1 the record has coefficient 1, the
    stored interval [[5, 255)] and no side condition; the model
    [v = 255], [y = 0] does not keep the remainder [y], the word 255 lies
    outside that interval and [255 <= 5] is false. *)
Lemma unit_record_needs_the_remainders :
  exists fi',
    get_interval 8 sample_core_y1 sample_v_plus_y_le_5 0%nat fi_empty
    = (true, fi') /\
    decomposable 8 sample_core_y1 0%nat sample_v_plus_y_le_5 = true /\
    coeff fi' = 1 /\
    side_cond fi' = [] /\
    remainders_kept 8 sample_core_y1 0%nat sample_model_v255
                    sample_v_plus_y_le_5 = false /\
    currently_contains (interval fi')
                       ((coeff fi' * sample_model_v255 0%nat) mod two_to_N 8)
    = false /\
    holds 8 sample_model_v255 sample_v_plus_y_le_5 = false.
Proof. eexists. repeat split. Qed.

(** The same on the overflow path, where the side condition bounds the
    other operand from one side only.  On [ovfl(v, y)] with [y] assigned 2
    the record has the interval [[0, 128)] and the side condition
    [y <= 2]; the model [v = 200], [y = 0] satisfies it and does not keep
    the remainder [y], 200 lies outside the interval and [200 * 0] does
    not overflow. *)
Lemma overflow_record_needs_the_remainders :
  exists fi',
    get_interval 8 sample_core_y2 sample_ovfl_v_y 0%nat fi_empty
    = (true, fi') /\
    decomposable 8 sample_core_y2 0%nat sample_ovfl_v_y = true /\
    interval fi' = proper (mk_val 8 0) 0 (mk_val 8 128) 128 /\
    side_cond fi' = [cs_ule (mk_var 8 1%nat) (mk_val 8 2)] /\
    Forall (fun sc => holds 8 sample_model_v200 sc = true) (side_cond fi') /\
    remainders_kept 8 sample_core_y2 0%nat sample_model_v200 sample_ovfl_v_y
    = false /\
    currently_contains (interval fi')
                       ((coeff fi' * sample_model_v200 0%nat) mod two_to_N 8)
    = false /\
    holds 8 sample_model_v200 sample_ovfl_v_y = false.
Proof.
  eexists. split; [reflexivity|]. split; [reflexivity|].
  split; [reflexivity|]. split; [reflexivity|].
  split; [|repeat split].
  constructor; [reflexivity|constructor].
Qed.

(* ================================================================== *)
(** * The further properties at the sample inputs *)
(* ================================================================== *)

(** X1 at [2*v <= 5], width 8: the interval is [[6, 0)] for [2*v]; at
    [v = 3] the word [2*v = 6] lies inside it and the inequality fails. *)
Lemma get_interval_forbids_witness :
  get_interval 8 sample_core sample_2v_le_5 0%nat fi_empty
  = (true,
     mk_fi (proper (mk_val 8 6) 6 (zero 8) 0) [] [sample_2v_le_5] [] 2 8%nat)
  /\ currently_contains (proper (mk_val 8 6) 6 (zero 8) 0)
                        ((2 * 3) mod two_to_N 8) = true
  /\ holds 8 (fun _ => 3) sample_2v_le_5 = false.
Proof.
  split; [reflexivity|]. split; [reflexivity|].
  apply (get_interval_forbids
           8 sample_core sample_2v_le_5 0%nat fi_empty
           (mk_fi (proper (mk_val 8 6) 6 (zero 8) 0) []
                  [sample_2v_le_5] [] 2 8%nat)
           (fun _ => 3)).
  - reflexivity.
  - discriminate.
  - intros x a _ H. discriminate H.
  - reflexivity.
Defined.

(** X2 at [y*v + 3 <= 5] with [y] assigned 2: the one side condition added
    is [y - 2 = 0], and it holds in the model [v = 5], [y = 2]. *)
Lemma get_interval_side_conditions_witness :
  exists extra,
    extra = [core_eq 8 (mk_var 8 1%nat) (mk_val 8 2)] /\
    Forall (fun sc => holds 8 sample_model_v5_y2 sc = true) extra.
Proof.
  destruct (get_interval_side_conditions
              8 sample_core_y2 sample_yv3_le_5 0%nat fi_empty
              (mk_fi (proper (mk_val 8 3) 3 (mk_val 8 253) 253)
                     [core_eq 8 (mk_var 8 1%nat) (mk_val 8 2)]
                     [sample_yv3_le_5] [] 2 8%nat)
              eq_refl) as (extra & Hx & Hh).
  exists extra. split.
  - symmetry. exact Hx.
  - apply Hh. intros x a _ H. cbn in H.
    destruct x as [|[|x]]; try discriminate H.
    injection H as <-. reflexivity.
Defined.

(** X3 at [2*v <= 5] on an empty record. *)
Lemma get_interval_success_record_witness :
  src (mk_fi (proper (mk_val 8 6) 6 (zero 8) 0) [] [sample_2v_le_5] [] 2
             8%nat)
  = src fi_empty ++ [sample_2v_le_5] /\
  bit_width (mk_fi (proper (mk_val 8 6) 6 (zero 8) 0) []
                   [sample_2v_le_5] [] 2 8%nat)
  = size sample_core 0%nat.
Proof.
  destruct (get_interval_success_record
              8 sample_core sample_2v_le_5 0%nat fi_empty
              (mk_fi (proper (mk_val 8 6) 6 (zero 8) 0) []
                     [sample_2v_le_5] [] 2 8%nat)
              eq_refl) as (Hs & _ & Hw & _).
  split; [exact Hs|exact Hw].
Defined.

(** X4 at [2*v <= 5]: the end points [6] and [0] of the interval are the
    values of the polynomials stored with them. *)
Lemma get_interval_end_points_witness :
  eval 8 (fun _ => 3) (mk_val 8 6) = 6 /\ eval 8 (fun _ => 3) (zero 8) = 0.
Proof.
  assert (HM : agrees_off 0%nat (assigned sample_core) (fun _ => 3))
    by (intros x a _ H; discriminate H).
  assert (Hc : coeff (mk_fi (proper (mk_val 8 6) 6 (zero 8) 0) []
                            [sample_2v_le_5] [] 2 8%nat) <> -1)
    by discriminate.
  destruct (get_interval_end_points
              8 sample_core sample_2v_le_5 0%nat fi_empty
              (mk_fi (proper (mk_val 8 6) 6 (zero 8) 0) []
                     [sample_2v_le_5] [] 2 8%nat)
              (fun _ => 3) (mk_val 8 6) (zero 8) 6 0
              eq_refl Hc (or_introl eq_refl) HM eq_refl) as (Hl & Hh & _).
  split; [exact Hl|exact Hh].
Defined.

(** X5 at [2*v <= 5]: the coefficient 2 is at most half of 256. *)
Lemma get_interval_coefficient_witness :
  (1 <= 8)%nat /\
  (2 = -1 \/ (0 < 2 /\ 2 * 2 <= two_to_N 8)).
Proof.
  assert (H8 : (1 <= 8)%nat) by (repeat constructor).
  split; [exact H8|].
  exact (get_interval_coefficient
           8 sample_core sample_2v_le_5 0%nat fi_empty
           (mk_fi (proper (mk_val 8 6) 6 (zero 8) 0) []
                  [sample_2v_le_5] [] 2 8%nat)
           (mk_val 8 6) (zero 8) 6 0 H8 eq_refl eq_refl).
Defined.

(** X6 at [2*v <= 5] and its negation: the intervals are [[6, 0)] and
    [[0, 6)], both with coefficient 2; the word 3 is in the second and not
    in the first. *)
Lemma get_interval_negation_witness :
  get_interval 8 sample_core (sc_not sample_2v_le_5) 0%nat fi_empty
  = (true,
     mk_fi (proper (zero 8) 0 (mk_val 8 6) 6) []
           [sc_not sample_2v_le_5] [] 2 8%nat) /\
  currently_contains (proper (zero 8) 0 (mk_val 8 6) 6) 3
  = negb (currently_contains (proper (mk_val 8 6) 6 (zero 8) 0) 3).
Proof.
  split; [reflexivity|].
  destruct (get_interval_negation
              8 sample_core sample_2v_le_5 0%nat fi_empty fi_empty
              (mk_fi (proper (mk_val 8 6) 6 (zero 8) 0) []
                     [sample_2v_le_5] [] 2 8%nat)
              (mk_fi (proper (zero 8) 0 (mk_val 8 6) 6) []
                     [sc_not sample_2v_le_5] [] 2 8%nat)
              eq_refl eq_refl) as (_ & H).
  exact (H 3).
Defined.

(** X7 at [2*v <= 5], which decomposes with the coefficients 2 and 0, and
    at [v*v <= 5], which does not decompose. *)
Lemma get_interval_ule_succeeds_witness :
  fst (get_interval 8 sample_core sample_2v_le_5 0%nat fi_empty)
  = decomposable 8 sample_core 0%nat sample_2v_le_5
    && negb ((coefficient 8 sample_core 0%nat (ule_lhs sample_2v_le_5) =? 0)
             && (coefficient 8 sample_core 0%nat (ule_rhs sample_2v_le_5)
                 =? 0)) /\
  decomposable 8 sample_core 0%nat sample_vv_le_5 = false.
Proof.
  split; [|reflexivity].
  exact (get_interval_ule_succeeds
           8 sample_core sample_2v_le_5 0%nat fi_empty eq_refl).
Defined.

(** X8 at width 8 for the multiplier 3: [A = 85] and [B = 3]. *)
Lemma umul_ovfl_asserted_bounds_witness :
  1 < 3 <= max_value 8 /\
  max_value 8 / 3 = 85 /\ (max_value 8 + 85) / 85 - 1 = 3 /\
  3 <= (max_value 8 + max_value 8 / 3) / (max_value 8 / 3) - 1.
Proof.
  assert (Hb : 1 < 3 <= max_value 8)
    by (split; [reflexivity|discriminate]).
  split; [exact Hb|]. split; [reflexivity|]. split; [reflexivity|].
  exact (proj1 (proj1 (umul_ovfl_asserted_bounds 8 3 Hb))).
Defined.

(** X9 at [y*v + 3] with [y] assigned 2. *)
Lemma linear_decompose_complete_witness :
  (degree 0%nat sample_yv_plus_3 <= 1)%nat /\
  assigned_but (assigned sample_core_y2) 0%nat sample_yv_plus_3 = true /\
  exists a e b side',
    linear_decompose 8 sample_core_y2 0%nat sample_yv_plus_3 []
    = ((true, a, e, b), side').
Proof.
  assert (Hd : (degree 0%nat sample_yv_plus_3 <= 1)%nat)
    by (apply Nat.leb_le; reflexivity).
  split; [exact Hd|]. split; [reflexivity|].
  exact (linear_decompose_complete
           8 sample_core_y2 0%nat sample_yv_plus_3 [] Hd eq_refl).
Defined.

(** X10 at [y*v + 3] with [y] assigned 2: the coefficient is 2 and the
    remainder 3 does not mention [v]. *)
Lemma linear_decompose_remainder_witness :
  0 <= 2 < two_to_N 8 /\ degree 0%nat (mk_val 8 3) = O /\
  is_val (mk_val 8 3) = true.
Proof.
  destruct (linear_decompose_remainder
              8 sample_core_y2 0%nat sample_yv_plus_3 []
              2 (mk_val 8 3) (mk_val 8 3)
              [core_eq 8 (mk_var 8 1%nat) (mk_val 8 2)] eq_refl)
    as (Ha & Hd & _ & Hv & _).
  split; [exact Ha|]. split; [exact Hd|exact Hv].
Defined.

(** X11 at [not (v + 3 <= w)], width 8: the interval is [[253, 254)], and
    at [v = 253] the left side is 0. *)
Lemma match_non_zero_forbids_witness :
  match_non_zero 8 sample_not_v3_le_w 1 (mk_val 8 3) (mk_val 8 3)
                 (mk_var 8 2%nat) fi_empty
  = (true,
     mk_fi (proper (mk_val 8 253) 253
                   (add 8 (mk_var 8 2%nat) (mk_val 8 254)) 254)
           [] [] [] 1 O) /\
  (1 * 253 + val 8 (mk_val 8 3)) mod two_to_N 8 = 0.
Proof.
  split; [reflexivity|].
  assert (H7 : 0 <= 7) by discriminate.
  destruct (match_non_zero_forbids
              8 sample_not_v3_le_w 1 (mk_val 8 3) (mk_val 8 3)
              (mk_var 8 2%nat) fi_empty 253 7 eq_refl eq_refl H7)
    as (_ & _ & H).
  exact (proj1 (H eq_refl)).
Defined.

(** X12 at [not (w <= v + 3)], width 8: the interval is [[252, 253)], and
    at [v = 252] the right side is 255. *)
Lemma match_non_max_forbids_witness :
  fst (match_non_max 8 sample_not_w_le_v3 (mk_var 8 2%nat) 1
                     (mk_val 8 3) (mk_val 8 3) fi_empty) = true /\
  (1 * 252 + val 8 (mk_val 8 3)) mod two_to_N 8 = max_value 8.
Proof.
  split; [reflexivity|].
  assert (H7 : 7 < two_to_N 8) by reflexivity.
  destruct (match_non_max_forbids
              8 sample_not_w_le_v3 (mk_var 8 2%nat) 1
              (mk_val 8 3) (mk_val 8 3) fi_empty 252 7 eq_refl eq_refl H7)
    as (_ & _ & H).
  exact (proj1 (H eq_refl)).
Defined.

(** X13 at [y*x <= z*x] in the model [x = 1], [y = 1], [z = 2]: the
    inequality holds and so does the member [y <= z] of the clause. *)
Lemma try_ugt_x_valid_witness :
  holds_inequality 8 sample_model_x1_y1_z2 sample_yx_le_zx = true /\
  exists name cs,
    clauses (try_ugt_x 8 (is_xY_l_xZ_model 8) (fun _ => true) 0%nat
                       sample_yx_le_zx sample_saturation)
    = clauses sample_saturation ++ [(name, cs, false)] /\
    In (of_dep (ineq_dep sample_yx_le_zx)) cs /\
    clause_holds 8 sample_model_x1_y1_z2 cs = true.
Proof.
  split; [reflexivity|].
  destruct (is_xY_l_xZ_model_sound
              8 sample_model_x1_y1_z2 sample_yx_le_zx 0%nat
              (mk_var 8 1%nat) (mk_var 8 2%nat) eq_refl) as [Hl Hr].
  exact (try_ugt_x_valid
           8 (is_xY_l_xZ_model 8) (fun _ => true) 0%nat
           sample_yx_le_zx sample_saturation
           (mk_var 8 1%nat) (mk_var 8 2%nat) sample_model_x1_y1_z2
           eq_refl Hl Hr eq_refl).
Defined.

(** X17 with [y] assigned 2: [y * 3] is evaluated to 6, which does not
    overflow at width 8. *)
Lemma is_non_overflow_sound_witness :
  is_non_overflow 8 sample_core_y2 (mk_var 8 1%nat) (mk_val 8 3) = true /\
  holds 8 sample_model_v5_y2 (cs_umul_ovfl (mk_var 8 1%nat) (mk_val 8 3))
  = false.
Proof.
  split; [reflexivity|].
  assert (HM : agrees (assigned sample_core_y2) sample_model_v5_y2).
  { intros x a H. cbn in H. destruct x as [|[|x]]; try discriminate H.
    injection H as <-. reflexivity. }
  destruct (is_non_overflow_sound
              8 sample_core_y2 (mk_var 8 1%nat) (mk_val 8 3)
              sample_model_v5_y2 HM) as (_ & H & _).
  exact (proj2 (H eq_refl)).
Defined.

(** X22 at [v + y <= 5] with [y] assigned 1, in the model [v = 5],
    [y = 2], which does not carry the assignment: the record has no side
    condition, the symbolic interval [[6 - y, -y)] is [[4, 254)] in the
    model, it holds [v = 5], and [5 + 2 <= 5] is false. *)
Lemma get_interval_ule_lemma_witness :
  side_cond (snd (get_interval 8 sample_core_y1 sample_v_plus_y_le_5
                               0%nat fi_empty)) = [] /\
  symbolically_contains 8 sample_model_v5_y2
    (interval (snd (get_interval 8 sample_core_y1 sample_v_plus_y_le_5
                                 0%nat fi_empty)))
    ((coeff (snd (get_interval 8 sample_core_y1 sample_v_plus_y_le_5
                               0%nat fi_empty))
      * sample_model_v5_y2 0%nat) mod two_to_N 8)
  = negb (holds 8 sample_model_v5_y2 sample_v_plus_y_le_5) /\
  holds 8 sample_model_v5_y2 sample_v_plus_y_le_5 = false.
Proof.
  split; [reflexivity|]. split; [|reflexivity].
  apply (get_interval_ule_lemma
           8 sample_core_y1 sample_v_plus_y_le_5 0%nat fi_empty
           (snd (get_interval 8 sample_core_y1 sample_v_plus_y_le_5
                              0%nat fi_empty))
           sample_model_v5_y2).
  - reflexivity.
  - reflexivity.
  - discriminate.
  - constructor.
Defined.

(** X23 at [ovfl(v, 3)], width 8: the interval is [[0, 86)]. *)
Lemma get_interval_umul_ovfl_record_witness :
  coeff (snd (get_interval 8 sample_core sample_ovfl_v_3 0%nat fi_empty)) = 1
  /\ interval (snd (get_interval 8 sample_core sample_ovfl_v_3 0%nat
                                 fi_empty))
     = proper (mk_val 8 0) 0 (mk_val 8 86) 86.
Proof.
  split; [|reflexivity].
  exact (proj1 (get_interval_umul_ovfl_record
                  8 sample_core sample_ovfl_v_3 0%nat fi_empty
                  (snd (get_interval 8 sample_core sample_ovfl_v_3 0%nat
                                     fi_empty))
                  eq_refl eq_refl)).
Defined.

(** X24 at width 8 for the coefficient 200 and the range [[6, 0)]: the
    coefficient becomes 56, and the word [56 * 3] is kept out as
    [200 * 3] was. *)
Lemma to_interval_meaning_witness :
  snd (to_interval 8 sample_2v_le_5 false 200 6 (mk_val 8 6) 0 (zero 8)) = 56
  /\ currently_contains
       (fst (to_interval 8 sample_2v_le_5 false 200 6 (mk_val 8 6) 0
                         (zero 8)))
       ((56 * 3) mod two_to_N 8)
     = in_range 6 0 ((200 * 3) mod two_to_N 8).
Proof.
  split; [reflexivity|].
  assert (H6 : 0 <= 6 < two_to_N 8) by (split; [discriminate|reflexivity]).
  assert (H0 : 0 <= 0 < two_to_N 8) by (split; [discriminate|reflexivity]).
  assert (Hne : false = false -> 6 <> 0) by (intros _; discriminate).
  exact (proj1 (to_interval_meaning
                  8 sample_2v_le_5 false 200 6 0 (mk_val 8 6) (zero 8) 3
                  H6 H0 Hne)).
Defined.

(** X25 at [2*v <= 3*v], width 8: the record carries the coefficients 2
    and 3 and the two zero remainders. *)
Lemma get_interval_sentinel_record_witness :
  coeff (snd (get_interval 8 sample_core sample_2v_le_3v 0%nat fi_empty))
  = -1 /\
  interval (snd (get_interval 8 sample_core sample_2v_le_3v 0%nat fi_empty))
  = proper (zero 8) 2 (zero 8) 3 /\
  is_ule sample_2v_le_3v = true.
Proof.
  split; [reflexivity|]. split; [reflexivity|].
  exact (proj1 (get_interval_sentinel_record
                  8 sample_core sample_2v_le_3v 0%nat fi_empty
                  (snd (get_interval 8 sample_core sample_2v_le_3v 0%nat
                                     fi_empty))
                  eq_refl eq_refl)).
Defined.

(** X26 at [ovfl(v, y)] with [y] assigned 2, width 8: the interval is
    [[0, 128)] under the side condition [y <= 2]; the model [v = 5],
    [y = 1] does not carry the assignment, satisfies the side condition,
    has [v] inside the interval, and [5 * 1] does not overflow. *)
Lemma get_interval_umul_ovfl_lemma_witness :
  get_interval 8 sample_core_y2 sample_ovfl_v_y 0%nat fi_empty
  = (true,
     mk_fi (proper (mk_val 8 0) 0 (mk_val 8 128) 128)
           [cs_ule (mk_var 8 1%nat) (mk_val 8 2)]
           [sample_ovfl_v_y] [] 1 8%nat) /\
  holds 8 sample_model_v5_y1 (cs_ule (mk_var 8 1%nat) (mk_val 8 2)) = true /\
  holds 8 sample_model_v5_y1 sample_ovfl_v_y = false.
Proof.
  split; [reflexivity|]. split; [reflexivity|].
  apply (get_interval_umul_ovfl_lemma
           8 sample_core_y2 sample_ovfl_v_y 0%nat fi_empty
           (mk_fi (proper (mk_val 8 0) 0 (mk_val 8 128) 128)
                  [cs_ule (mk_var 8 1%nat) (mk_val 8 2)]
                  [sample_ovfl_v_y] [] 1 8%nat)
           sample_model_v5_y1).
  - reflexivity.
  - reflexivity.
  - reflexivity.
  - constructor; [reflexivity|constructor].
  - intros X e b em [-> | ->] E; vm_compute in E.
    + injection E as <- _ _. reflexivity.
    + discriminate E.
  - reflexivity.
Defined.

(** X27 at [y*v + 3 <= 5] with [y] assigned 2, on a record that already
    holds a side condition: the run appends [y - 2 = 0] to it. *)
Lemma get_interval_frame_witness :
  exists fi0,
    get_interval 8 sample_core_y2 sample_yv3_le_5 0%nat fi_empty = (true, fi0)
    /\ side_cond fi0 = [core_eq 8 (mk_var 8 1%nat) (mk_val 8 2)]
    /\ side_cond (snd (get_interval 8 sample_core_y2 sample_yv3_le_5 0%nat
                                    (push_side_cond sample_2v_le_5 fi_empty)))
       = side_cond (push_side_cond sample_2v_le_5 fi_empty) ++ side_cond fi0.
Proof.
  destruct (get_interval_frame
              8 sample_core_y2 sample_yv3_le_5 0%nat
              (push_side_cond sample_2v_le_5 fi_empty)
              (snd (get_interval 8 sample_core_y2 sample_yv3_le_5 0%nat
                                 (push_side_cond sample_2v_le_5 fi_empty)))
              eq_refl) as (fi0 & H0 & _ & _ & Hs).
  exists fi0. split; [exact H0|]. split; [|exact Hs].
  vm_compute in H0. injection H0 as <-. reflexivity.
Defined.

(** X28 at [3*v + 7 <= 0], width 8, which both [match_zero] and
    [match_linear1] match: at [v = 83] neither forbids the value. *)
Lemma ule_patterns_agree_witness :
  fst (match_zero 8 sample_3v7_le_0 3 (mk_val 8 7) (mk_val 8 7)
                  0 (zero 8) (zero 8) fi_empty) = true /\
  fst (match_linear1 8 sample_3v7_le_0 3 (mk_val 8 7) (mk_val 8 7)
                     0 (zero 8) (zero 8) fi_empty) = true /\
  currently_contains
    (interval (snd (match_zero 8 sample_3v7_le_0 3 (mk_val 8 7) (mk_val 8 7)
                               0 (zero 8) (zero 8) fi_empty)))
    ((coeff (snd (match_zero 8 sample_3v7_le_0 3 (mk_val 8 7) (mk_val 8 7)
                             0 (zero 8) (zero 8) fi_empty)) * 83)
       mod two_to_N 8)
  = currently_contains
      (interval (snd (match_linear1 8 sample_3v7_le_0 3 (mk_val 8 7)
                                    (mk_val 8 7) 0 (zero 8) (zero 8)
                                    fi_empty)))
      ((coeff (snd (match_linear1 8 sample_3v7_le_0 3 (mk_val 8 7)
                                  (mk_val 8 7) 0 (zero 8) (zero 8)
                                  fi_empty)) * 83)
         mod two_to_N 8).
Proof.
  split; [reflexivity|]. split; [reflexivity|].
  assert (H3 : 0 <= 3 < two_to_N 8) by (split; [discriminate|reflexivity]).
  assert (H0 : 0 <= 0 < two_to_N 8) by (split; [discriminate|reflexivity]).
  apply (ule_patterns_agree
           8 sample_3v7_le_0 3 0 (mk_val 8 7) (mk_val 8 7) (zero 8) (zero 8)
           (match_zero 8) (match_linear1 8) fi_empty fi_empty 83).
  - left. reflexivity.
  - right. right. left. reflexivity.
  - reflexivity.
  - reflexivity.
  - reflexivity.
  - reflexivity.
  - exact H3.
  - exact H0.
  - discriminate.
  - discriminate.
Defined.
